(** * Mewgenics Japanese translation scripts: tokenizer, line wrapper, CSV merge

    A shallow embedding of [scripts/auto_wrap_ja.py] (functions
    [_tokenize_plain], [tokenize], [wrap_segment], [wrap_ja_text] and
    [process_file]), of [scripts/merge_translated.py] ([normalize_text],
    [merge_file]) and of [scripts/add_ja_column.py] ([add_column_after],
    [process_file]).  The file drivers are modelled on the header and the
    rows [csv.DictReader] yields and the rows handed to
    [csv.DictWriter.writerow], which raises [ValueError] for a row with a
    key outside the header; the parsing and quoting of the [csv] module
    and the [main] functions, which walk a directory, are not modelled.

    Python [str] values are sequences of Unicode code points: a character
    is its code point ([N]) and a string is a list of characters, so that
    [len] is [length] and a slice [text[a:b]] is [take]/[drop].  Python
    [int] widths are [Z].  A [dict] with string keys is a [gmap]; a CSV
    row, which can have the key [None] as well, is a record of one and
    the entry under [None]. *)

From Stdlib Require Import ZArith NArith List Bool Lia Ascii String.
From stdpp Require Import base option list gmap.

Local Open Scope Z_scope.

Abbreviation char := N.
Abbreviation str := (list N).

(** Code points of the ASCII characters the patterns mention. *)
Definition NEWLINE  : char := 10%N.   (* \n *)
Definition AMP      : char := 38%N.   (* &  *)
Definition SLASH    : char := 47%N.   (* /  *)
Definition COLON    : char := 58%N.   (* :  *)
Definition SEMI     : char := 59%N.   (* ;  *)
Definition LBRACKET : char := 91%N.   (* [  *)
Definition RBRACKET : char := 93%N.   (* ]  *)
Definition UNDERSCORE : char := 95%N. (* _  *)
Definition LBRACE   : char := 123%N.  (* {  *)
Definition RBRACE   : char := 125%N.  (* }  *)
Definition CH_i : char := 105%N.
Definition CH_m : char := 109%N.
Definition CH_g : char := 103%N.

(** A Rocq string literal read as ASCII text (one code point per byte);
    only used to write down example inputs. *)
Definition u (s : string) : str :=
  map N_of_ascii (list_ascii_of_string s).

(** Python slice [text[a:b]] for [0 <= a], [0 <= b]: empty when [b <= a],
    clipped at the end of the text, never an error. *)
Definition slice (text : str) (a b : nat) : str :=
  take (b - a) (drop a text).

(** ** A backtracking matcher for the fragment of [re] the scripts use *)

Module Re.

(** The constructs of the script's patterns: literals, concatenation,
    the greedy optional [r?] and the greedy repetition [[class]+] of one
    character class; a single class and an alternation inside a pattern
    complete the fragment.  The top-level alternatives of a pattern are
    kept as a list ([match_alts]), so that the group that matched is
    known. *)
Inductive regex : Type :=
| Lit (c : char)
| Cls (p : char -> bool)
| Seq (r1 r2 : regex)
| Alt (r1 r2 : regex)
| Opt (r : regex)
| Plus (p : char -> bool).

(** All ways [[class]+] can match at the head of [s], longest first
    (greedy), each as (consumed, rest). *)
Fixpoint plus_matches (p : char -> bool) (s : str) : list (str * str) :=
  match s with
  | c :: s' =>
      if p c
      then map (fun mr => (c :: fst mr, snd mr)) (plus_matches p s') ++ [([c], s')]
      else []
  | [] => []
  end.

(** All ways [r] can match at the head of [s], in the order a
    backtracking engine tries them; the engine's answer is the first. *)
Fixpoint matches (r : regex) (s : str) : list (str * str) :=
  match r with
  | Lit c =>
      match s with
      | x :: s' => if N.eqb x c then [([x], s')] else []
      | [] => []
      end
  | Cls p =>
      match s with
      | x :: s' => if p x then [([x], s')] else []
      | [] => []
      end
  | Seq r1 r2 =>
      flat_map (fun mr1 =>
        map (fun mr2 => (fst mr1 ++ fst mr2, snd mr2)) (matches r2 (snd mr1)))
        (matches r1 s)
  | Alt r1 r2 => matches r1 s ++ matches r2 s
  | Opt r1 => matches r1 s ++ [([], s)]
  | Plus p => plus_matches p s
  end.

(** A pattern is a list of top-level alternatives, each one a capturing
    group (numbered from 1).  [match_at] is [Pattern.match] at the head of
    [s]: the first alternative that matches, with the text it consumed and
    the rest. *)
Fixpoint match_alts (g : nat) (alts : list regex) (s : str)
  : option (nat * str * str) :=
  match alts with
  | [] => None
  | r :: alts' =>
      match matches r s with
      | (m, rest) :: _ => Some (g, m, rest)
      | [] => match_alts (S g) alts' s
      end
  end.

Definition match_at (alts : list regex) (s : str) : option (nat * str * str) :=
  match_alts 1 alts s.

(** A match object: [m.start()], [m.end()] and the number of the
    alternative that matched. *)
Record Match : Type := mkMatch {
  m_start : nat;
  m_end : nat;
  m_alt : nat
}.

(** [m.group(i)]: the whole match for [i = 0], the text of group [i] when
    alternative [i] matched, [None] for a group that did not take part. *)
Definition group (text : str) (m : Match) (i : nat) : option str :=
  if (i =? 0)%nat || (i =? m_alt m)%nat
  then Some (slice text (m_start m) (m_end m))
  else None.

(** Truth value of [m.group(i)]: [None] and the empty string are false. *)
Definition truthy (o : option str) : bool :=
  match o with
  | Some (_ :: _) => true
  | _ => false
  end.

Definition text_of (o : option str) : str := default [] o.

(** [Pattern.finditer]: the scan visits the positions from left to right;
    positions below [resume] lie inside the previous match and are passed
    over, at the others the pattern is tried.  [s] is the text from
    position [pos] on. *)
Fixpoint finditer_from (alts : list regex) (s : str) (pos resume : nat)
  : list Match :=
  match s with
  | [] => []
  | _ :: s' =>
      if (pos <? resume)%nat
      then finditer_from alts s' (S pos) resume
      else
        match match_at alts s with
        | Some (g, m, _) =>
            mkMatch pos (pos + length m) g
              :: finditer_from alts s' (S pos) (pos + length m)
        | None => finditer_from alts s' (S pos) resume
        end
  end.

Definition finditer (alts : list regex) (text : str) : list Match :=
  finditer_from alts text 0 0.

(** [Pattern.search]: the leftmost position at which the pattern matches,
    as (text before the match, alternative, matched text, rest).
    [finditer] is repeated [search], each resuming where the previous match
    ended (lemma [finditer_search_some]). *)
Fixpoint search (alts : list regex) (s : str)
  : option (str * nat * str * str) :=
  match match_at alts s with
  | Some (g, m, r) => Some ([], g, m, r)
  | None =>
      match s with
      | [] => None
      | c :: s' =>
          match search alts s' with
          | Some (x, g, m, r) => Some (c :: x, g, m, r)
          | None => None
          end
      end
  end.

(** The characters of class [p] up to the first [c] (which is not in the
    class), and what follows that [c]. *)
Fixpoint until (p : char -> bool) (c : char) (s : str) : option (str * str) :=
  match s with
  | [] => None
  | x :: s' =>
      if p x then
        match until p c s' with
        | Some (w, r) => Some (x :: w, r)
        | None => None
        end
      else if (x =? c)%N then Some ([], s') else None
  end.

(** The same with at least one character before the [c]: what
    [[class]+c] matches, in closed form (lemma [plus_lit_closed]). *)
Definition run1 (p : char -> bool) (c : char) (s : str) : option (str * str) :=
  match s with
  | x :: s' =>
      if p x then
        match until p c s' with
        | Some (w, r) => Some (x :: w, r)
        | None => None
        end
      else None
  | [] => None
  end.

(** The longest prefix in class [p], and the rest. *)
Fixpoint span (p : char -> bool) (s : str) : str * str :=
  match s with
  | x :: s' =>
      if p x then (x :: fst (span p s'), snd (span p s')) else ([], s)
  | [] => ([], [])
  end.

(** Where a run of class [p] stops: at the end or before a character
    outside the class. *)
Definition stops (p : char -> bool) (r : str) : Prop :=
  match r with [] => True | c :: _ => p c = false end.

(** Appending [z] to [y] creates no match at a position of [y]. *)
Definition no_new_match (alts : list regex) (z y : str) : Prop :=
  forall y1 y2, y = y1 ++ y2 -> y2 <> [] ->
    match_at alts y2 = None -> match_at alts (y2 ++ z) = None.

(** A match object moved [k] positions to the right. *)
Definition shift (k : nat) (m : Match) : Match :=
  mkMatch (k + m_start m) (k + m_end m) (m_alt m).

End Re.

Import Re.

Infix "·" := Seq (at level 60, right associativity).

(** ** [auto_wrap_ja.py] *)

Module AutoWrap.

(** [[A-Za-z0-9]]. *)
Definition ascii_alnum (c : char) : bool :=
  ((65 <=? c) && (c <=? 90) || (97 <=? c) && (c <=? 122)
   || (48 <=? c) && (c <=? 57))%N.

(** A token: (text, display width). *)
Abbreviation token := (str * Z)%type.

(** The text of a run of tokens. *)
Definition text_of_tokens (tokens : list token) : str :=
  concat (map fst tokens).

(** A well-formed token: some text, a width that is not negative. *)
Definition token_ok (t : token) : Prop := fst t <> [] /\ 0 <= snd t.

Section WithUnicodeTable.

(** Python's [\w] on [str] patterns matches [[A-Za-z0-9_]] and, beyond
    ASCII, every character the Unicode database classes as alphanumeric.
    That table belongs to the interpreter, not to the script: it is a
    parameter, consulted for non-ASCII code points only. *)
Variable unicode_alnum : char -> bool.

Definition is_word (c : char) : bool :=
  if (c <? 128)%N
  then ascii_alnum c || (c =? UNDERSCORE)%N
  else unicode_alnum c.

(** [[^\[\]]] and [[^{}]]. *)
Definition not_bracket (c : char) : bool :=
  negb ((c =? LBRACKET)%N || (c =? RBRACKET)%N).
Definition not_brace (c : char) : bool :=
  negb ((c =? LBRACE)%N || (c =? RBRACE)%N).

(** The four alternatives of [combined], in order:
    [(\[img:\w+\])], [(\[/?[^\[\]]+\])], [(\{[^{}]+\})], [(&\w+;)]. *)
Definition IMG_TAG : regex :=
  Lit LBRACKET · Lit CH_i · Lit CH_m · Lit CH_g · Lit COLON
    · Plus is_word · Lit RBRACKET.
Definition TAG : regex :=
  Lit LBRACKET · Opt (Lit SLASH) · Plus not_bracket · Lit RBRACKET.
Definition TEMPLATE_VAR : regex :=
  Lit LBRACE · Plus not_brace · Lit RBRACE.
Definition ENTITY : regex :=
  Lit AMP · Plus is_word · Lit SEMI.

Definition combined : list regex := [IMG_TAG; TAG; TEMPLATE_VAR; ENTITY].

(** [ascii_word = re.compile(r"[A-Za-z0-9]+")], without groups. *)
Definition ascii_word : list regex := [Plus ascii_alnum].

Definition chars_as_tokens (x : str) : list token :=
  map (fun ch => ([ch], 1)) x.

(** The [for m in ascii_word.finditer(text)] loop of [_tokenize_plain],
    on the state [(pos, tokens)]. *)
Fixpoint plain_loop (text : str) (ms : list Match) (pos : nat)
    (tokens : list token) : nat * list token :=
  match ms with
  | [] => (pos, tokens)
  | m :: ms' =>
      let tokens := tokens ++ chars_as_tokens (slice text pos (m_start m)) in
      let word := text_of (group text m 0) in
      let tokens := tokens ++ [(word, Z.of_nat (length word))] in
      plain_loop text ms' (m_end m) tokens
  end.

Definition _tokenize_plain (text : str) : list token :=
  let '(pos, tokens) := plain_loop text (finditer ascii_word text) 0 [] in
  tokens ++ chars_as_tokens (slice text pos (length text)).

(** The [for m in combined.finditer(text)] loop of [tokenize]. *)
Fixpoint tokenize_loop (text : str) (ms : list Match) (pos : nat)
    (tokens : list token) : nat * list token :=
  match ms with
  | [] => (pos, tokens)
  | m :: ms' =>
      let tokens :=
        if (pos <? m_start m)%nat
        then tokens ++ _tokenize_plain (slice text pos (m_start m))
        else tokens in
      let tokens :=
        if truthy (group text m 1) then
          tokens ++ [(text_of (group text m 1), 1)]
        else if truthy (group text m 2) then
          tokens ++ [(text_of (group text m 2), 0)]
        else if truthy (group text m 3) then
          let var := text_of (group text m 3) in
          tokens ++ [(var, Z.of_nat (length var))]
        else if truthy (group text m 4) then
          tokens ++ [(text_of (group text m 4), 1)]
        else tokens in
      tokenize_loop text ms' (m_end m) tokens
  end.

Definition tokenize (text : str) : list token :=
  let '(pos, tokens) := tokenize_loop text (finditer combined text) 0 [] in
  if (pos <? length text)%nat
  then tokens ++ _tokenize_plain (slice text pos (length text))
  else tokens.

(** [sum(w for _, w in tokens)]. *)
Definition total_width (tokens : list token) : Z :=
  fold_right Z.add 0 (map snd tokens).

(** ["\n".join(lines)]. *)
Fixpoint join_lines (lines : list str) : str :=
  match lines with
  | [] => []
  | [l] => l
  | l :: ls => l ++ NEWLINE :: join_lines ls
  end.

(** [text.split("\n")]: one more part than there are newlines. *)
Fixpoint split_lines (text : str) : list str :=
  match text with
  | [] => [[]]
  | c :: text' =>
      if (c =? NEWLINE)%N then [] :: split_lines text'
      else match split_lines text' with
           | l :: ls => (c :: l) :: ls
           | [] => [[c]]
           end
  end.

(** The state of the packing loop of [wrap_segment]. *)
Record pack_state : Type := mkPack {
  lines : list str;
  current : str;
  current_display : Z
}.

(** Truth value of a string: non-empty. *)
Definition nonempty (s : str) : bool :=
  match s with [] => false | _ :: _ => true end.

(** One iteration of [for token_str, token_width in tokens]. *)
Definition pack_step (max_len : Z) (st : pack_state) (tok : token) : pack_state :=
  let '(token_str, token_width) := tok in
  if (0 <? token_width) && (max_len <? current_display st + token_width)
     && nonempty (current st)
  then mkPack (lines st ++ [current st]) token_str token_width
  else mkPack (lines st) (current st ++ token_str)
              (current_display st + token_width).

Definition wrap_segment (segment : str) (max_len : Z) : str :=
  let tokens := tokenize segment in
  let total_display := total_width tokens in
  if total_display <=? max_len then segment
  else
    let st := fold_left (pack_step max_len) tokens (mkPack [] [] 0) in
    let lines := if nonempty (current st) then lines st ++ [current st]
                 else lines st in
    join_lines lines.

Definition str_eqb (a b : str) : bool := bool_decide (a = b).

Definition wrap_ja_text (text : str) (max_len : Z) : str * bool :=
  if negb (nonempty text) then (text, false)
  else
    let parts := split_lines text in
    let wrapped_parts := map (fun part => wrap_segment part max_len) parts in
    let wrapped := join_lines wrapped_parts in
    (wrapped, negb (str_eqb wrapped text)).

(** *** The patterns seen in closed form *)

(** What [combined] matches at the head of a string, in closed form
    (lemma [match_at_combined]): the opening character selects the
    alternatives that can apply. *)
Definition img_body (s : str) : option (str * str) :=
  match s with
  | c1 :: c2 :: c3 :: c4 :: s5 =>
      if (c1 =? CH_i)%N && (c2 =? CH_m)%N && (c3 =? CH_g)%N && (c4 =? COLON)%N
      then match run1 is_word RBRACKET s5 with
           | Some (w, r) => Some (c1 :: c2 :: c3 :: c4 :: w ++ [RBRACKET], r)
           | None => None
           end
      else None
  | _ => None
  end.

Definition lex_at (s : str) : option (nat * str * str) :=
  match s with
  | x :: s' =>
      if (x =? LBRACKET)%N then
        match img_body s' with
        | Some (m, r) => Some (1%nat, x :: m, r)
        | None =>
            match run1 not_bracket RBRACKET s' with
            | Some (b, r) => Some (2%nat, x :: b ++ [RBRACKET], r)
            | None => None
            end
        end
      else if (x =? LBRACE)%N then
        match run1 not_brace RBRACE s' with
        | Some (b, r) => Some (3%nat, x :: b ++ [RBRACE], r)
        | None => None
        end
      else if (x =? AMP)%N then
        match run1 is_word SEMI s' with
        | Some (b, r) => Some (4%nat, x :: b ++ [SEMI], r)
        | None => None
        end
      else None
  | [] => None
  end.

(** An opening bracket or brace [c], between [pre] and [post], that no
    construct can contain: no closer of its kind follows it, and no
    construct of the other kind can enclose it. *)
Definition unterminated (pre : str) (c : char) (post : str) : Prop :=
  (c = LBRACKET /\ ~ In RBRACKET post
   /\ (~ In RBRACE post \/ ~ In LBRACE pre))
  \/ (c = LBRACE /\ ~ In RBRACE post
      /\ (~ In RBRACKET post \/ ~ In LBRACKET pre)).

(** A character [c], between [pre] and [post], that lies in no match of
    [COMBINED.finditer]: every match the scan of [tokenize] finds in
    [pre ++ c :: post] ends at or before [c] or starts after it.  The
    loop of [tokenize] hands the text outside the matches to
    [_tokenize_plain]. *)
Definition uncovered (pre : str) (c : char) (post : str) : bool :=
  forallb (fun m => (m_end m <=? length pre)%nat
                    || (length pre <? m_start m)%nat)
    (finditer combined (pre ++ c :: post)).

(** *** The packer seen on tokens

    The loop of [wrap_segment] keeps strings and forgets which tokens a
    line is made of.  [pack_groups] is the same loop with the tokens kept:
    [cur] holds the tokens of the current line, [cd] its display width,
    and the result lists the lines still to be closed (lemma
    [pack_step_groups] relates the two). *)
Fixpoint pack_groups (max_len : Z) (cur : list token) (cd : Z)
    (tokens : list token) : list (list token) :=
  match tokens with
  | [] => if nonempty (text_of_tokens cur) then [cur] else []
  | tok :: rest =>
      if (0 <? snd tok) && (max_len <? cd + snd tok)
         && nonempty (text_of_tokens cur)
      then cur :: pack_groups max_len [tok] (snd tok) rest
      else pack_groups max_len (cur ++ [tok]) (cd + snd tok) rest
  end.

(** The token groups behind the lines [wrap_segment] returns. *)
Definition line_groups (segment : str) (max_len : Z) : list (list token) :=
  let tokens := tokenize segment in
  if total_width tokens <=? max_len then [tokens]
  else pack_groups max_len [] 0 tokens.

(** The lines [wrap_segment] joins once its loop is over. *)
Definition final_lines (st : pack_state) : list str :=
  if nonempty (current st) then lines st ++ [current st] else lines st.

End WithUnicodeTable.

(** The shape the two [finditer] loops of the script share: the text
    between the previous match and this one goes through [A], the match
    (alternative, text) through [B].  Used to reason about both loops at
    once (lemmas [plain_loop_emit] and [tokenize_loop_emit]). *)
Fixpoint emit_loop (A : str -> list token) (B : nat -> str -> list token)
    (text : str) (ms : list Match) (pos : nat) (tokens : list token)
  : nat * list token :=
  match ms with
  | [] => (pos, tokens)
  | m :: ms' =>
      emit_loop A B text ms' (m_end m)
        (tokens ++ A (slice text pos (m_start m))
                ++ B (m_alt m) (slice text (m_start m) (m_end m)))
  end.

Definition emit (A : str -> list token) (B : nat -> str -> list token)
    (alts : list regex) (text : str) : list token :=
  let '(pos, tokens) := emit_loop A B text (finditer alts text) 0 [] in
  tokens ++ A (slice text pos (length text)).

(** What the two loops append for a match: [_tokenize_plain] the word
    with its length, [tokenize] a token whose width depends on the group
    that is true (none for an empty match). *)
Definition word_token (g : nat) (word : str) : list token :=
  [(word, Z.of_nat (length word))].

Definition match_token (g : nat) (w : str) : list token :=
  match w with
  | [] => []
  | _ :: _ =>
      match g with
      | 1%nat => [(w, 1)]
      | 2%nat => [(w, 0)]
      | 3%nat => [(w, Z.of_nat (length w))]
      | 4%nat => [(w, 1)]
      | _ => []
      end
  end.


(** Within a line whose tokens so far have width [cd], each further token
    has width zero or still fits: the loop did not break before it. *)
Fixpoint fits_from (max_len cd : Z) (g : list token) : bool :=
  match g with
  | [] => true
  | t :: g' =>
      ((snd t =? 0) || (cd + snd t <=? max_len))
      && fits_from max_len (cd + snd t) g'
  end.

(** A line: after its first token, every token was appended by the rule. *)
Definition line_ok (max_len : Z) (g : list token) : bool :=
  match g with
  | [] => true
  | t :: g' => fits_from max_len (snd t) g'
  end.

(** Between consecutive lines: the token that opens the next line has
    positive width and did not fit on the line before it. *)
Fixpoint breaks_ok (max_len : Z) (gs : list (list token)) : bool :=
  match gs with
  | g :: (g' :: _) as tl =>
      match g' with
      | t :: _ => (0 <? snd t) && (max_len <? total_width g + snd t)
      | [] => false
      end && nonempty (text_of_tokens g) && breaks_ok max_len tl
  | _ => true
  end.

Definition newline_free (s : str) : Prop := ~ In NEWLINE s.

(** The text without its newline characters. *)
Definition strip_newlines (s : str) : str :=
  List.filter (fun c => negb (c =? NEWLINE)%N) s.

(** An excerpt of the Unicode table for the examples below: hiragana,
    katakana and the CJK unified ideographs are letters. *)
Definition kana_kanji (c : char) : bool :=
  ((0x3041 <=? c) && (c <=? 0x3096) || (0x30A1 <=? c) && (c <=? 0x30FA)
   || (0x4E00 <=? c) && (c <=? 0x9FFF))%N.

End AutoWrap.

Import AutoWrap.

(** ** [merge_translated.py] *)

Module MergeTranslated.

(** [str.isspace]: the characters [str.strip()] removes. *)
Definition is_space (c : char) : bool :=
  ((9 <=? c) && (c <=? 13) || (28 <=? c) && (c <=? 32)
   || (c =? 0x85) || (c =? 0xA0) || (c =? 0x1680)
   || (0x2000 <=? c) && (c <=? 0x200A)
   || (c =? 0x2028) || (c =? 0x2029) || (c =? 0x202F) || (c =? 0x205F)
   || (c =? 0x3000))%N.

Fixpoint lstrip (s : str) : str :=
  match s with
  | c :: s' => if is_space c then lstrip s' else s
  | [] => []
  end.

(** [value.strip()]. *)
Definition strip (s : str) : str := rev (lstrip (rev (lstrip s))).

Definition normalize_text (value : option str) : str :=
  match value with
  | None => []
  | Some v => strip v
  end.

(** A row as [csv.DictReader] yields it, a dict: [cells] maps the string
    keys (the field names) to the cell text, [None] for a cell the record
    is too short to have; [rest] is the entry under the key [None],
    present when the record is longer than the header and then holding
    the surplus cells. *)
Record row : Type := mkRow {
  cells : gmap str (option str);
  rest : option (list str)
}.

(** [name in row] and [row[name]], [row[name] = v] and the empty dict,
    for string keys: [r !! name], [<[name := v]> r] and [∅]. *)
#[global] Instance row_lookup : Lookup str (option str) row :=
  fun name r => cells r !! name.
#[global] Instance row_insert : Insert str (option str) row :=
  fun name v r => mkRow (<[name := v]> (cells r)) (rest r).
#[global] Instance row_empty : Empty row := mkRow ∅ None.

(** [row.get(name)]: [None] for a missing key and for a [None] cell. *)
Definition get (r : row) (name : str) : option str :=
  match r !! name with
  | Some v => v
  | None => None
  end.

Definition KEY : str := [75; 69; 89]%N.

(** What [csv.DictReader] gives for a file: [reader.fieldnames or []] and
    [list(reader)]. *)
Record csv_table : Type := mkTable {
  fieldnames : list str;
  rows : list row
}.

(** How a call ends: it returns a value, or [DictWriter.writerow] raises
    [ValueError]. *)
Inductive outcome (A : Type) : Type :=
| Returned (a : A)
| ValueError.

Arguments Returned {A} a.
Arguments ValueError {A}.

(** [DictWriter.writerow(row)], with the default [extrasaction="raise"],
    writes a row whose keys are all among the field names and raises
    [ValueError] for any other: for a row with the key [None] of a record
    longer than the header, or with a string key outside the header.  A
    key of the header that the row lacks is written as an empty cell, as
    is a cell that holds [None]. *)
Definition writable (fieldnames : list str) (r : row) : bool :=
  match rest r with
  | Some _ => false
  | None =>
      bool_decide (map_Forall (fun name _ => name ∈ fieldnames) (cells r))
  end.

(** A loop [for row in rows: ...; writer.writerow(row)], where the body
    before the call leaves [update row] in [row]: the loop ends, or the
    writer raises at the first row it refuses; and the rows written until
    then. *)
Fixpoint write_rows (fieldnames : list str) (update : row -> row)
    (rows : list row) : outcome unit * list row :=
  match rows with
  | [] => (Returned tt, [])
  | r :: rows' =>
      let r' := update r in
      if writable fieldnames r' then
        let w := write_rows fieldnames update rows' in
        (fst w, r' :: snd w)
      else (ValueError, [])
  end.

(** The leading rows the writer accepts: those before the first one it
    refuses. *)
Fixpoint accepted (fieldnames : list str) (rows : list row) : list row :=
  match rows with
  | [] => []
  | r :: rows' =>
      if writable fieldnames r then r :: accepted fieldnames rows' else []
  end.

(** [row.get(target_col) or ""]: the empty string for [None] too. *)
Definition value_or_empty (o : option str) : str :=
  match o with
  | Some (c :: v) => c :: v
  | _ => []
  end.

(** One iteration of [for row in translated_rows]. *)
Definition index_step (target_col : str) (translated_index : gmap str str)
    (r : row) : gmap str str :=
  let key := normalize_text (get r KEY) in
  let value := value_or_empty (get r target_col) in
  if nonempty key && nonempty (normalize_text (Some value))
  then <[key := value]> translated_index
  else translated_index.

Definition build_index (target_col : str) (translated_rows : list row)
  : gmap str str :=
  fold_left (index_step target_col) translated_rows ∅.

(** The state of [for row in base_rows]: the two counters and the rows
    written so far. *)
Record merge_state : Type := mkMerge {
  merged : nat;
  skipped : nat;
  written : list row
}.

Definition in_index (translated_index : gmap str str) (key : str) : bool :=
  bool_decide (is_Some (translated_index !! key)).

(** One iteration of [for row in base_rows] up to the call of the
    writer: the row and the counters as the two branches leave them.
    [translated_index[key]] is read under the guard
    [key in translated_index] only. *)
Definition merge_row (target_col : str) (translated_index : gmap str str)
    (st : merge_state) (r : row) : row * nat * nat :=
  let key := normalize_text (get r KEY) in
  let current_value := normalize_text (get r target_col) in
  if in_index translated_index key && negb (nonempty current_value) then
    (<[target_col := Some (default [] (translated_index !! key))]> r,
     S (merged st), skipped st)
  else if in_index translated_index key && nonempty current_value then
    (r, merged st, S (skipped st))
  else
    (r, merged st, skipped st).

(** [for row in base_rows]: each iteration ends with
    [writer.writerow(row)]; the loop ends with the counters, or the
    writer raises and the counters are lost. *)
Fixpoint merge_loop (target_col : str) (fieldnames : list str)
    (translated_index : gmap str str) (base_rows : list row)
    (st : merge_state) : outcome (nat * nat) * list row :=
  match base_rows with
  | [] => (Returned (merged st, skipped st), written st)
  | r :: base_rows' =>
      let '(r', merged', skipped') :=
        merge_row target_col translated_index st r in
      if writable fieldnames r' then
        merge_loop target_col fieldnames translated_index base_rows'
          (mkMerge merged' skipped' (written st ++ [r']))
      else (ValueError, written st)
  end.

(** [merge_file] on the tables read from [base_path] and
    [translated_path]: how the call ends, with the pair
    [(merged, skipped)] when it returns; and what it leaves in
    [output_path]: [None] when it returns before opening it, else the
    header and the rows written, in the order written.  When the writer
    raises, the file is left with the rows written before. *)
Definition merge_file (base translated : csv_table) (target_col : str)
  : outcome (nat * nat) * option (list str * list row) :=
  if negb (bool_decide (KEY ∈ fieldnames translated))
     || negb (bool_decide (target_col ∈ fieldnames translated))
  then (Returned (0, 0)%nat, None)
  else
    let translated_index := build_index target_col (rows translated) in
    if bool_decide (translated_index = ∅) then (Returned (0, 0)%nat, None)
    else if negb (bool_decide (target_col ∈ fieldnames base))
    then (Returned (0, 0)%nat, None)
    else
      let w := merge_loop target_col (fieldnames base) translated_index
                 (rows base) (mkMerge 0 0 []) in
      (fst w, Some (fieldnames base, snd w)).

(** The row an iteration hands to the writer. *)
Definition merged_row (target_col : str) (translated_index : gmap str str)
    (r : row) : row :=
  let key := normalize_text (get r KEY) in
  if in_index translated_index key
     && negb (nonempty (normalize_text (get r target_col)))
  then <[target_col := Some (default [] (translated_index !! key))]> r
  else r.

(** The rows the two counters count. *)
Definition counts_merged (target_col : str) (translated_index : gmap str str)
    (r : row) : bool :=
  in_index translated_index (normalize_text (get r KEY))
  && negb (nonempty (normalize_text (get r target_col))).

Definition counts_skipped (target_col : str) (translated_index : gmap str str)
    (r : row) : bool :=
  in_index translated_index (normalize_text (get r KEY))
  && nonempty (normalize_text (get r target_col)).

(** Two small tables for the examples: the base file has an empty cell, a
    filled cell and a blank cell; the translated file has a value for the
    first two keys and a blank value for the third. *)
Definition JA : str := [106; 97]%N.

Definition example_row (k v : string) : row :=
  <[KEY := Some (u k)]> (<[JA := Some (u v)]> ∅).

Definition example_base : csv_table :=
  mkTable [KEY; JA]
    [example_row "a" ""; example_row "b" "old"; example_row "c" "  "].

(** The base file with a record longer than the header in the second
    place: [b,old,x] under the header [KEY,ja]. *)
Definition long_record : row :=
  mkRow (cells (example_row "b" "old")) (Some [u "x"]).

Definition example_long_base : csv_table :=
  mkTable [KEY; JA]
    [example_row "a" ""; long_record; example_row "c" "  "].

Definition example_translated : csv_table :=
  mkTable [KEY; JA]
    [example_row "a" "A"; example_row " b " "B"; example_row "c" " "].

(** The test [if key and normalize_text(value)] of the index loop: the
    translated row has a key and a value that are not blank. *)
Definition usable (target_col : str) (r : row) : bool :=
  nonempty (normalize_text (get r KEY))
  && nonempty (normalize_text (Some (value_or_empty (get r target_col)))).

(** The first character, if there is one, is not whitespace. *)
Definition starts_solid (s : str) : Prop :=
  match s with [] => True | c :: _ => is_space c = false end.

End MergeTranslated.

Import MergeTranslated.


(** ** [auto_wrap_ja.py]: the file driver *)

Module AutoWrapFile.

(** [s.count(c)] for a one-character needle. *)
Definition count (c : char) (s : str) : nat :=
  length (List.filter (fun x => (x =? c)%N) s).

(** [s.startswith(prefix)]. *)
Fixpoint startswith (s prefix : str) : bool :=
  match prefix, s with
  | [], _ => true
  | p :: prefix', c :: s' => (c =? p)%N && startswith s' prefix'
  | _ :: _, [] => false
  end.

(** ["//"], the prefix of a comment key. *)
Definition COMMENT : str := [47; 47]%N.

(** The state of [for row in rows] in [process_file]: the two counters
    and the rows, each as the loop leaves it. *)
Record file_state : Type := mkFile {
  rows_changed : nat;
  wraps_added : Z;
  rows_out : list row
}.

Section WithUnicodeTable.

Variable unicode_alnum : char -> bool.

(** One iteration of [for row in rows].  The print of a dry run shows
    the change and does not alter the state. *)
Definition process_row (max_len : Z) (st : file_state) (r : row) : file_state :=
  let keep := mkFile (rows_changed st) (wraps_added st) (rows_out st ++ [r]) in
  let key := strip (value_or_empty (get r KEY)) in
  if negb (nonempty key) || startswith key COMMENT then keep
  else
    match get r JA with
    | Some (c :: o) =>
        let original := c :: o in
        let '(wrapped, changed) := wrap_ja_text unicode_alnum original max_len in
        if changed then
          mkFile (S (rows_changed st))
            (wraps_added st
             + (Z.of_nat (count NEWLINE wrapped)
                - Z.of_nat (count NEWLINE original)))
            (rows_out st ++ [<[JA := Some wrapped]> r])
        else keep
    | _ => keep
    end.

(** [process_file] on the table read from [filepath]: how the call ends,
    with the pair [(rows_changed, wraps_added)] when it returns; and what
    it leaves in the file it opened for writing ([None] when it does not
    open it): the header and the rows written.  The rows are written
    after the loop over the rows has ended; when the writer raises, the
    file is left with the rows written before. *)
Definition process_file (table : csv_table) (max_len : Z) (dry_run : bool)
  : outcome (nat * Z) * option (list str * list row) :=
  if negb (bool_decide (JA ∈ fieldnames table))
  then (Returned (0%nat, 0), None)
  else
    let st := fold_left (process_row max_len) (rows table) (mkFile 0 0 []) in
    if negb dry_run && (0 <? rows_changed st)%nat then
      let w := write_rows (fieldnames table) (fun r => r) (rows_out st) in
      (match fst w with
       | Returned _ => Returned (rows_changed st, wraps_added st)
       | ValueError => ValueError
       end,
       Some (fieldnames table, snd w))
    else (Returned (rows_changed st, wraps_added st), None).

End WithUnicodeTable.

(** What one iteration does to a row, read off a run from the initial
    state: the row it leaves in the list (a list of one row), whether it
    counts the row as changed, the newlines it counts as added. *)
Definition row_after (ua : char -> bool) (max_len : Z) (r : row) : list row :=
  rows_out (process_row ua max_len (mkFile 0 0 []) r).

Definition row_changed (ua : char -> bool) (max_len : Z) (r : row) : nat :=
  rows_changed (process_row ua max_len (mkFile 0 0 []) r).

Definition row_wraps (ua : char -> bool) (max_len : Z) (r : row) : Z :=
  wraps_added (process_row ua max_len (mkFile 0 0 []) r).

(** The test [if not key or key.startswith("//")]: the loop passes the
    row by without reading its [ja] cell. *)
Definition row_skipped (r : row) : bool :=
  negb (nonempty (strip (value_or_empty (get r KEY))))
  || startswith (strip (value_or_empty (get r KEY))) COMMENT.

End AutoWrapFile.

(** ** [add_ja_column.py] *)

Module AddJaColumn.

(** [fieldnames.index(x)]: the first position of [x], [None] where Python
    raises [ValueError]. *)
Fixpoint index (fieldnames : list str) (x : str) : option nat :=
  match fieldnames with
  | [] => None
  | f :: fs =>
      if bool_decide (f = x) then Some 0%nat
      else match index fs x with
           | Some i => Some (S i)
           | None => None
           end
  end.

Definition add_column_after (fieldnames : list str) (after_col new_col : str)
  : list str :=
  if bool_decide (new_col ∈ fieldnames) then fieldnames
  else if bool_decide (after_col ∈ fieldnames) then
    match index fieldnames after_col with
    | Some i =>
        let idx := (i + 1)%nat in
        take idx fieldnames ++ [new_col] ++ drop idx fieldnames
    | None => fieldnames   (* unreachable: [after_col] is in the list *)
    end
  else fieldnames ++ [new_col].

(** Python strings as cell values: [""] is [Some []]. *)
Definition fill_row (new_col : str) (r : row) : row :=
  if bool_decide (is_Some (r !! new_col)) then r
  else <[new_col := Some []]> r.

(** [process_file] on the table read from [file_path]: how the call
    ends, with the flag it returns; and what it leaves in [output_path]
    ([None] when it returns before opening it): the new header and the
    rows written.  When the writer raises, the file is left with the rows
    written before. *)
Definition process_file (table : csv_table) (new_col after_col : str)
  : outcome bool * option (list str * list row) :=
  if bool_decide (new_col ∈ fieldnames table) then (Returned false, None)
  else
    let new_fieldnames := add_column_after (fieldnames table) after_col new_col in
    let w := write_rows new_fieldnames (fill_row new_col) (rows table) in
    (match fst w with
     | Returned _ => Returned true
     | ValueError => ValueError
     end,
     Some (new_fieldnames, snd w)).

End AddJaColumn.

(** * Properties *)

(** ** The matcher *)

Section ReFacts.

Lemma slice_app_l (a b : str) : slice (a ++ b) 0 (length a) = a.
Proof.
  unfold slice. rewrite Nat.sub_0_r, drop_0.
  by rewrite take_app_length.
Qed.

Lemma slice_app_mid (a m b : str) :
  slice (a ++ m ++ b) (length a) (length a + length m) = m.
Proof.
  unfold slice. rewrite drop_app_length.
  replace (length a + length m - length a)%nat with (length m) by lia.
  by rewrite take_app_length.
Qed.

Lemma slice_shift (pre r : str) (a b : nat) :
  slice (pre ++ r) (length pre + a) (length pre + b) = slice r a b.
Proof.
  unfold slice. rewrite drop_app_add'; [|done].
  f_equal. lia.
Qed.

Lemma slice_empty (text : str) (a b : nat) : (b <= a)%nat -> slice text a b = [].
Proof.
  intros H. unfold slice. replace (b - a)%nat with 0%nat by lia. done.
Qed.

Lemma slice_full (text : str) : slice text 0 (length text) = text.
Proof. unfold slice. rewrite Nat.sub_0_r, drop_0. apply firstn_all. Qed.

Lemma plus_matches_sound p s m r :
  In (m, r) (plus_matches p s) ->
  s = m ++ r /\ m <> [] /\ forallb p m = true.
Proof.
  revert m r. induction s as [|c s IH]; intros m r; simpl; [tauto|].
  destruct (p c) eqn:Hc; [|simpl; tauto].
  rewrite in_app_iff, in_map_iff. intros [[[m' r'] [E Hin]]|[E|[]]].
  - simpl in E. inversion E; subst. destruct (IH _ _ Hin) as (-> & _ & Hall).
    simpl. by rewrite Hc, Hall.
  - inversion E; subst. simpl. by rewrite Hc.
Qed.

Lemma matches_sound r s m rest :
  In (m, rest) (matches r s) -> s = m ++ rest.
Proof.
  revert s m rest. induction r as [c|p|r1 IH1 r2 IH2|r1 IH1 r2 IH2|r1 IH1|p];
    intros s m rest; simpl.
  - destruct s as [|x s]; [simpl; tauto|].
    destruct (N.eqb x c); simpl; [|tauto]. intros [E|[]]. by inversion E.
  - destruct s as [|x s]; [simpl; tauto|].
    destruct (p x); simpl; [|tauto]. intros [E|[]]. by inversion E.
  - rewrite in_flat_map. intros [[m1 s1] [H1 H2]].
    rewrite in_map_iff in H2. destruct H2 as [[m2 s2] [E H2]].
    simpl in *. inversion E; subst.
    rewrite (IH1 _ _ _ H1), (IH2 _ _ _ H2). by rewrite app_assoc.
  - rewrite in_app_iff. intros [H|H]; eauto.
  - rewrite in_app_iff. intros [H|[E|[]]]; eauto. by inversion E.
  - intros H. by apply plus_matches_sound in H as [? _].
Qed.

Lemma match_alts_sound alts g s g' m r :
  match_alts g alts s = Some (g', m, r) ->
  s = m ++ r /\ (g <= g' < g + length alts)%nat.
Proof.
  revert g. induction alts as [|re alts IH]; intros g; simpl; [done|].
  destruct (matches re s) as [|[m0 r0] l] eqn:E.
  - intros H. apply IH in H as [? ?]. split; [done|lia].
  - intros [= <- <- <-]. split; [|lia].
    apply (matches_sound re). rewrite E. by left.
Qed.

Lemma match_at_sound alts s g m r :
  match_at alts s = Some (g, m, r) ->
  s = m ++ r /\ (1 <= g <= length alts)%nat.
Proof.
  intros H. apply match_alts_sound in H. split; [tauto|lia].
Qed.

Lemma finditer_from_resume_le alts s pos resume resume' :
  (resume <= pos)%nat -> (resume' <= pos)%nat ->
  finditer_from alts s pos resume = finditer_from alts s pos resume'.
Proof.
  revert pos resume resume'. induction s as [|c s IH]; intros pos r1 r2 H1 H2;
    simpl; [done|].
  destruct (Nat.ltb_spec pos r1); [lia|].
  destruct (Nat.ltb_spec pos r2); [lia|].
  destruct (match_at alts (c :: s)) as [[[g m] r]|]; [done|].
  apply IH; lia.
Qed.

Lemma finditer_from_skip alts m r pos :
  finditer_from alts (m ++ r) pos (pos + length m)
  = finditer_from alts r (pos + length m) (pos + length m).
Proof.
  revert pos. induction m as [|c m IH]; intros pos; simpl.
  - by rewrite Nat.add_0_r.
  - destruct (Nat.ltb_spec pos (pos + S (length m))); [|lia].
    replace (pos + S (length m))%nat with (S pos + length m)%nat by lia.
    apply IH.
Qed.

Lemma finditer_from_shift alts s k pos resume :
  finditer_from alts s (k + pos) (k + resume)
  = map (shift k) (finditer_from alts s pos resume).
Proof.
  revert pos resume. induction s as [|c s IH]; intros pos resume; simpl; [done|].
  replace (S (k + pos)) with (k + S pos)%nat by lia.
  destruct (Nat.ltb_spec pos resume), (Nat.ltb_spec (k + pos) (k + resume));
    try lia.
  - apply IH.
  - destruct (match_at alts (c :: s)) as [[[g m] r]|]; simpl.
    + unfold shift at 1. simpl. f_equal; [f_equal; lia|].
      rewrite <- IH. f_equal. lia.
    + apply IH.
Qed.

Lemma finditer_from_none alts c s pos :
  match_at alts (c :: s) = None ->
  finditer_from alts (c :: s) pos pos = finditer_from alts s (S pos) (S pos).
Proof.
  intros H. simpl. rewrite Nat.ltb_irrefl, H.
  apply finditer_from_resume_le; lia.
Qed.

Lemma finditer_from_some alts s pos g m r :
  match_at alts s = Some (g, m, r) -> m <> [] ->
  finditer_from alts s pos pos
  = mkMatch pos (pos + length m) g
      :: finditer_from alts r (pos + length m) (pos + length m).
Proof.
  intros H Hm. destruct (match_at_sound _ _ _ _ _ H) as [-> _].
  destruct m as [|c m]; [done|]. simpl app in *. 
  cbn [finditer_from]. rewrite Nat.ltb_irrefl, H. f_equal.
  cbn [length]. replace (pos + S (length m))%nat with (S pos + length m)%nat by lia.
  apply finditer_from_skip.
Qed.

End ReFacts.

(** ** [finditer] as repeated [search] *)

Section SearchFacts.

Variable alts : list regex.

(** None of the script's patterns matches the empty string. *)
Hypothesis match_nonempty :
  forall s g m r, match_at alts s = Some (g, m, r) -> m <> [].

Lemma search_sound s x g m r :
  search alts s = Some (x, g, m, r) ->
  s = x ++ m ++ r /\ match_at alts (m ++ r) = Some (g, m, r).
Proof.
  revert x. induction s as [|c s IH]; intros x; simpl.
  - destruct (match_at alts []) as [[[g0 m0] r0]|] eqn:E; [|done].
    intros [= <- <- <- <-]. destruct (match_at_sound _ _ _ _ _ E) as [E' _].
    simpl. by rewrite <- E'.
  - destruct (match_at alts (c :: s)) as [[[g0 m0] r0]|] eqn:E.
    + intros [= <- <- <- <-]. destruct (match_at_sound _ _ _ _ _ E) as [E' _].
      simpl. by rewrite <- E'.
    + destruct (search alts s) as [[[[x0 g0] m0] r0]|]; [|done].
      intros [= <- <- <- <-]. destruct (IH _ eq_refl) as [-> ?]. done.
Qed.

(** No position before the first match matches. *)
Lemma search_before s x g m r x1 c x2 :
  search alts s = Some (x, g, m, r) -> x = x1 ++ c :: x2 ->
  match_at alts (c :: x2 ++ m ++ r) = None.
Proof.
  revert x x1. induction s as [|c0 s IH]; intros x x1; simpl.
  - destruct (match_at alts []) as [[[g0 m0] r0]|]; [|done].
    intros [= <- _ _ _]. by destruct x1.
  - destruct (match_at alts (c0 :: s)) as [[[g0 m0] r0]|] eqn:E.
    + intros [= <- _ _ _]. by destruct x1.
    + destruct (search alts s) as [[[[x0 g0] m0] r0]|] eqn:Es; [|done].
      intros [= <- <- <- <-] Hx. destruct (search_sound _ _ _ _ _ Es) as [-> _].
      destruct x1 as [|c1 x1]; simpl in Hx; inversion Hx; subst.
      * done.
      * eapply IH; eauto.
Qed.

Lemma search_none_at s : search alts s = None -> match_at alts s = None.
Proof.
  destruct s; simpl; by destruct (match_at alts _) as [[[? ?] ?]|].
Qed.

Lemma search_none_tail c s : search alts (c :: s) = None -> search alts s = None.
Proof.
  simpl. destruct (match_at alts _) as [[[? ?] ?]|]; [done|].
  by destruct (search alts s) as [[[[? ?] ?] ?]|].
Qed.

Lemma search_rest_shorter s x g m r :
  search alts s = Some (x, g, m, r) -> (length r < length s)%nat.
Proof.
  intros H. destruct (search_sound _ _ _ _ _ H) as [-> Hm].
  apply match_nonempty in Hm. rewrite !length_app.
  destruct m; [done|simpl; lia].
Qed.

(** Induction along the scan: a string without a match, or a first match
    and the scan of what follows it. *)
Lemma search_ind (P : str -> Prop) :
  (forall s, search alts s = None -> P s) ->
  (forall s x g m r, search alts s = Some (x, g, m, r) -> P r -> P s) ->
  forall s, P s.
Proof.
  intros Hnone Hsome s.
  induction s as [s IH] using (well_founded_induction
    (well_founded_ltof _ (@length N))).
  destruct (search alts s) as [[[[x g] m] r]|] eqn:E; [|by apply Hnone].
  eapply Hsome; [exact E|]. apply IH. unfold ltof.
  eapply search_rest_shorter; eauto.
Qed.

Lemma finditer_search_none s pos :
  search alts s = None -> finditer_from alts s pos pos = [].
Proof.
  revert pos. induction s as [|c s IH]; intros pos H; [done|].
  rewrite finditer_from_none by (by apply search_none_at).
  apply IH. by eapply search_none_tail.
Qed.

Lemma finditer_search_some s pos x g m r :
  search alts s = Some (x, g, m, r) ->
  finditer_from alts s pos pos
  = mkMatch (pos + length x) (pos + length x + length m) g
      :: finditer_from alts r (pos + length x + length m)
                              (pos + length x + length m).
Proof.
  revert pos x. induction s as [|c s IH]; intros pos x; simpl search.
  - destruct (match_at alts []) as [[[g0 m0] r0]|] eqn:E; [|done].
    pose proof (match_nonempty _ _ _ _ E) as Hm.
    destruct (match_at_sound _ _ _ _ _ E) as [E' _]. by destruct m0.
  - destruct (match_at alts (c :: s)) as [[[g0 m0] r0]|] eqn:E.
    + intros [= <- <- <- <-]. simpl length. rewrite Nat.add_0_r.
      apply finditer_from_some; eauto.
    + destruct (search alts s) as [[[[x0 g0] m0] r0]|] eqn:Es; [|done].
      intros [= <- <- <- <-]. rewrite finditer_from_none by done.
      rewrite (IH _ _ eq_refl). simpl length.
      by replace (S pos + length x0)%nat with (pos + S (length x0))%nat by lia.
Qed.

Section Emit.

Variable A : str -> list token.
Variable B : nat -> str -> list token.

Lemma emit_loop_acc text ms pos tokens :
  emit_loop A B text ms pos tokens
  = (fst (emit_loop A B text ms pos []),
     tokens ++ snd (emit_loop A B text ms pos [])).
Proof.
  revert pos tokens. induction ms as [|m ms IH]; intros pos tokens; simpl.
  - by rewrite app_nil_r.
  - rewrite IH. rewrite (IH _ (A _ ++ B _ _)). simpl.
    by rewrite <- !app_assoc.
Qed.

Lemma emit_loop_shift (pre r : str) ms pos tokens :
  emit_loop A B (pre ++ r) (map (shift (length pre)) ms)
    (length pre + pos)%nat tokens
  = ((length pre + fst (emit_loop A B r ms pos []))%nat,
     tokens ++ snd (emit_loop A B r ms pos [])).
Proof.
  revert pos tokens. induction ms as [|m ms IH]; intros pos tokens; simpl.
  - by rewrite app_nil_r.
  - rewrite !slice_shift, IH. rewrite (emit_loop_acc r ms _ (A _ ++ B _ _)).
    simpl. by rewrite <- !app_assoc.
Qed.

Lemma emit_none s : search alts s = None -> emit A B alts s = A s.
Proof.
  intros H. unfold emit, finditer. rewrite finditer_search_none by done.
  simpl. by rewrite slice_full.
Qed.

Lemma emit_some s x g m r :
  search alts s = Some (x, g, m, r) ->
  emit A B alts s = A x ++ B g m ++ emit A B alts r.
Proof.
  intros H. unfold emit, finditer.
  rewrite (finditer_search_some _ 0 _ _ _ _ H).
  destruct (search_sound _ _ _ _ _ H) as [-> _].
  cbn [emit_loop m_start m_end m_alt Nat.add app].
  rewrite slice_app_l, slice_app_mid.
  pose proof (finditer_from_shift alts r (length x + length m) 0 0) as Hs.
  rewrite Nat.add_0_r in Hs. rewrite Hs.
  pose proof (emit_loop_shift (x ++ m) r (finditer_from alts r 0 0) 0
                (A x ++ B g m)) as Hl.
  rewrite length_app, Nat.add_0_r, <- app_assoc in Hl. rewrite Hl.
  destruct (emit_loop A B r (finditer_from alts r 0 0) 0 []) as [p t].
  simpl fst; simpl snd.
  replace (length (x ++ m ++ r)) with (length x + length m + length r)%nat
    by (rewrite !length_app; lia).
  pose proof (slice_shift (x ++ m) r p (length r)) as Hsl.
  rewrite length_app, <- app_assoc in Hsl. rewrite Hsl.
  by rewrite <- !app_assoc.
Qed.

End Emit.

End SearchFacts.

(** ** The tokenizers *)

Section TokenizeFacts.

Variable ua : char -> bool.

Local Abbreviation combined := (AutoWrap.combined ua).
Local Abbreviation tokenize := (AutoWrap.tokenize ua).

Lemma matches_lit_seq c r s :
  matches (Lit c · r) s
  = match s with
    | x :: s' =>
        if (x =? c)%N
        then map (fun mr => (x :: fst mr, snd mr)) (matches r s')
        else []
    | [] => []
    end.
Proof.
  simpl. destruct s as [|x s']; [done|].
  destruct (x =? c)%N; [|done]. simpl. by rewrite app_nil_r.
Qed.

Lemma matches_lit_seq_nonempty c r s m rest :
  In (m, rest) (matches (Lit c · r) s) -> m <> [].
Proof.
  rewrite matches_lit_seq. destruct s as [|x s']; [done|].
  destruct (x =? c)%N; [|done]. rewrite in_map_iff.
  by intros [[m' r'] [[= <- <-] _]].
Qed.

Lemma combined_nonempty s g m r :
  match_at combined s = Some (g, m, r) -> m <> [].
Proof.
  unfold match_at, AutoWrap.combined. cbn [match_alts].
  repeat match goal with
  | |- context [matches ?re s] =>
      let E := fresh "E" in
      destruct (matches re s) as [|[? ?] ?] eqn:E;
      [| intros [= <- <- <-];
         eapply (matches_lit_seq_nonempty _ _ s); unfold IMG_TAG, TAG,
           TEMPLATE_VAR, ENTITY in E; rewrite E; by left ]
  end.
  done.
Qed.

Lemma ascii_word_nonempty s g m r :
  match_at ascii_word s = Some (g, m, r) -> m <> [].
Proof.
  unfold match_at, ascii_word. cbn [match_alts matches].
  destruct (plus_matches ascii_alnum s) as [|[m0 r0] l] eqn:E; [done|].
  intros [= <- <- <-].
  destruct (plus_matches_sound ascii_alnum s m0 r0) as (_ & Hm & _);
    [rewrite E; by left | done].
Qed.

Lemma ascii_word_alt s g m r :
  match_at ascii_word s = Some (g, m, r) -> g = 1%nat.
Proof. intros H. apply match_at_sound in H. simpl in H. lia. Qed.

(** The two loops of the script are instances of [emit_loop]. *)
Lemma plain_loop_emit text ms pos tokens :
  plain_loop text ms pos tokens
  = emit_loop chars_as_tokens word_token text ms pos tokens.
Proof.
  revert pos tokens. induction ms as [|m ms IH]; intros pos tokens; [done|].
  simpl. rewrite IH. by rewrite <- app_assoc.
Qed.

Lemma tokenize_plain_emit text :
  _tokenize_plain text = emit chars_as_tokens word_token ascii_word text.
Proof. unfold _tokenize_plain, emit. by rewrite plain_loop_emit. Qed.

Lemma tokenize_plain_nil : _tokenize_plain [] = [].
Proof. reflexivity. Qed.

Lemma tokenize_loop_emit text ms pos tokens :
  tokenize_loop text ms pos tokens
  = emit_loop _tokenize_plain match_token text ms pos tokens.
Proof.
  revert pos tokens. induction ms as [|m ms IH]; intros pos tokens; [done|].
  cbn [tokenize_loop emit_loop]. rewrite IH. f_equal.
  assert (Hplain : (if (pos <? m_start m)%nat
                    then tokens ++ _tokenize_plain (slice text pos (m_start m))
                    else tokens)
                   = tokens ++ _tokenize_plain (slice text pos (m_start m))).
  { destruct (Nat.ltb_spec pos (m_start m)); [done|].
    by rewrite slice_empty, tokenize_plain_nil, app_nil_r. }
  rewrite Hplain, app_assoc.
  generalize (tokens ++ _tokenize_plain (slice text pos (m_start m))).
  intros T. unfold group, match_token.
  destruct (slice text (m_start m) (m_end m)) as [|c w] eqn:Ew;
    destruct (m_alt m) as [|[|[|[|[|k]]]]]; cbn; by rewrite ?app_nil_r.
Qed.

Lemma tokenize_emit text :
  tokenize text = emit _tokenize_plain match_token combined text.
Proof.
  unfold AutoWrap.tokenize, emit. rewrite tokenize_loop_emit.
  destruct (emit_loop _ _ _ _ _ _) as [pos tokens].
  destruct (Nat.ltb_spec pos (length text)); [done|].
  by rewrite slice_empty, tokenize_plain_nil, app_nil_r.
Qed.

(** Unfolding equations of the tokenizers along the scan. *)
Lemma tokenize_plain_none s :
  search ascii_word s = None -> _tokenize_plain s = chars_as_tokens s.
Proof.
  intros H. rewrite tokenize_plain_emit.
  by apply emit_none.
Qed.

Lemma tokenize_plain_some s x g m r :
  search ascii_word s = Some (x, g, m, r) ->
  _tokenize_plain s
  = chars_as_tokens x ++ (m, Z.of_nat (length m)) :: _tokenize_plain r.
Proof.
  intros H. rewrite !tokenize_plain_emit.
  by rewrite (emit_some _ ascii_word_nonempty _ _ _ _ _ _ _ H).
Qed.

Lemma tokenize_none s :
  search combined s = None -> tokenize s = _tokenize_plain s.
Proof.
  intros H. rewrite tokenize_emit.
  by apply emit_none.
Qed.

Lemma tokenize_some s x g m r :
  search combined s = Some (x, g, m, r) ->
  tokenize s = _tokenize_plain x ++ match_token g m ++ tokenize r.
Proof.
  intros H. rewrite !tokenize_emit.
  by rewrite (emit_some _ combined_nonempty _ _ _ _ _ _ _ H).
Qed.

Lemma text_of_tokens_app a b :
  text_of_tokens (a ++ b) = text_of_tokens a ++ text_of_tokens b.
Proof. unfold text_of_tokens. by rewrite map_app, concat_app. Qed.

Lemma text_of_tokens_cons t a :
  text_of_tokens (t :: a) = fst t ++ text_of_tokens a.
Proof. done. Qed.

Lemma text_of_chars x : text_of_tokens (chars_as_tokens x) = x.
Proof.
  induction x as [|c x IH]; [done|].
  cbn. unfold text_of_tokens, chars_as_tokens in IH. by rewrite IH.
Qed.

Lemma chars_tokens_ok x : Forall token_ok (chars_as_tokens x).
Proof.
  induction x as [|c x IH]; constructor; [|done]. split; [done|cbn; lia].
Qed.

Lemma match_token_spec g m :
  (1 <= g <= 4)%nat -> m <> [] ->
  exists w, match_token g m = [(m, w)] /\ 0 <= w.
Proof.
  intros Hg Hm. destruct m as [|c m]; [done|].
  destruct g as [|[|[|[|[|k]]]]]; try lia; cbn [match_token];
    eexists; (split; [reflexivity|lia]).
Qed.

Lemma combined_match_token s x g m r :
  search combined s = Some (x, g, m, r) ->
  exists w, match_token g m = [(m, w)] /\ 0 <= w.
Proof.
  intros H. destruct (search_sound _ _ _ _ _ _ H) as [_ Hm].
  apply match_token_spec.
  - apply match_at_sound in Hm. cbn in Hm. lia.
  - eapply combined_nonempty; eauto.
Qed.

Lemma tokenize_plain_text s : text_of_tokens (_tokenize_plain s) = s.
Proof.
  induction s as [s H|s x g m r H IH] using (search_ind _ ascii_word_nonempty).
  - by rewrite tokenize_plain_none, text_of_chars.
  - rewrite (tokenize_plain_some _ _ _ _ _ H), text_of_tokens_app,
      text_of_chars, text_of_tokens_cons, IH.
    by destruct (search_sound _ _ _ _ _ _ H) as [-> _].
Qed.

Lemma tokenize_plain_ok s : Forall token_ok (_tokenize_plain s).
Proof.
  induction s as [s H|s x g m r H IH] using (search_ind _ ascii_word_nonempty).
  - rewrite tokenize_plain_none by done. apply chars_tokens_ok.
  - rewrite (tokenize_plain_some _ _ _ _ _ H).
    apply Forall_app; split; [apply chars_tokens_ok|].
    constructor; [|done]. destruct (search_sound _ _ _ _ _ _ H) as [_ Hm].
    apply ascii_word_nonempty in Hm. split; [done|cbn; lia].
Qed.

Lemma tokenize_text s : text_of_tokens (tokenize s) = s.
Proof.
  induction s as [s H|s x g m r H IH] using (search_ind _ combined_nonempty).
  - by rewrite tokenize_none, tokenize_plain_text.
  - rewrite (tokenize_some _ _ _ _ _ H), !text_of_tokens_app,
      tokenize_plain_text, IH.
    destruct (combined_match_token _ _ _ _ _ H) as (w & -> & _).
    destruct (search_sound _ _ _ _ _ _ H) as [-> _].
    cbn. by rewrite app_nil_r.
Qed.

Lemma tokenize_ok s : Forall token_ok (tokenize s).
Proof.
  induction s as [s H|s x g m r H IH] using (search_ind _ combined_nonempty).
  - rewrite tokenize_none by done. apply tokenize_plain_ok.
  - rewrite (tokenize_some _ _ _ _ _ H).
    apply Forall_app; split; [apply tokenize_plain_ok|].
    apply Forall_app; split; [|done].
    destruct (combined_match_token _ _ _ _ _ H) as (w & -> & Hw).
    constructor; [|done]. split; [|done].
    destruct (search_sound _ _ _ _ _ _ H) as [_ Hm].
    eapply combined_nonempty; eauto.
Qed.

End TokenizeFacts.

(** ** Splitting and joining lines *)

Section LineFacts.

Lemma split_lines_nonnil s : split_lines s <> [].
Proof.
  destruct s as [|c s]; [done|]. simpl.
  destruct (c =? NEWLINE)%N; [done|]. by destruct (split_lines s).
Qed.

Lemma split_lines_newline_free s : newline_free s -> split_lines s = [s].
Proof.
  unfold newline_free. induction s as [|c s IH]; [done|]. intros H. simpl.
  destruct (N.eqb_spec c NEWLINE) as [->|_]; [exfalso; apply H; by left|].
  rewrite IH; [done|]. intros Hin. apply H. by right.
Qed.

Lemma split_lines_app a b :
  split_lines (a ++ NEWLINE :: b) = split_lines a ++ split_lines b.
Proof.
  induction a as [|c a IH]; [done|]. simpl.
  destruct (c =? NEWLINE)%N; rewrite IH; [done|].
  pose proof (split_lines_nonnil a). by destruct (split_lines a).
Qed.

Lemma join_split s : join_lines (split_lines s) = s.
Proof.
  induction s as [|c s IH]; [done|]. simpl.
  pose proof (split_lines_nonnil s) as Hne.
  destruct (N.eqb_spec c NEWLINE) as [->|_].
  - destruct (split_lines s) as [|l ls]; [done|]. simpl. simpl in IH.
    by rewrite IH.
  - destruct (split_lines s) as [|l ls]; [done|].
    rewrite <- IH. by destruct ls.
Qed.

Lemma join_lines_cons l l' ls :
  join_lines (l :: l' :: ls) = l ++ NEWLINE :: join_lines (l' :: ls).
Proof. done. Qed.

Lemma split_join ls :
  ls <> [] -> split_lines (join_lines ls) = concat (map split_lines ls).
Proof.
  induction ls as [|l ls IH]; [done|]. intros _.
  destruct ls as [|l' ls]; [simpl; by rewrite app_nil_r|].
  rewrite join_lines_cons, split_lines_app, IH by done. done.
Qed.

Lemma split_lines_parts_free s : Forall newline_free (split_lines s).
Proof.
  induction s as [|c s IH]; [constructor; [by intros []|constructor]|]. simpl.
  destruct (N.eqb_spec c NEWLINE) as [->|Hc];
    [constructor; [by intros []|done]|].
  destruct (split_lines s) as [|l ls];
    [constructor; [by intros [?|[]]|constructor]|].
  inversion IH; subst. constructor; [|done].
  intros [?|?]; [congruence|done].
Qed.

Lemma strip_newlines_free s : newline_free s -> strip_newlines s = s.
Proof.
  unfold newline_free. induction s as [|c s IH]; [done|]. intros H. simpl.
  destruct (N.eqb_spec c NEWLINE) as [->|_]; [exfalso; apply H; by left|].
  simpl. rewrite IH; [done|]. intros ?. apply H. by right.
Qed.

Lemma strip_newlines_app a b :
  strip_newlines (a ++ b) = strip_newlines a ++ strip_newlines b.
Proof. apply List.filter_app. Qed.

Lemma strip_newlines_join ls :
  strip_newlines (join_lines ls) = concat (map strip_newlines ls).
Proof.
  induction ls as [|l ls IH]; [done|].
  destruct ls as [|l' ls]; [simpl; by rewrite app_nil_r|].
  rewrite join_lines_cons, strip_newlines_app. simpl in *. by rewrite IH.
Qed.

Lemma newline_free_app a b :
  newline_free (a ++ b) <-> newline_free a /\ newline_free b.
Proof. unfold newline_free. rewrite in_app_iff. tauto. Qed.

Lemma newline_free_concat (ls : list str) :
  newline_free (concat ls) <-> Forall newline_free ls.
Proof.
  induction ls as [|l ls IH]; simpl.
  - split; [by constructor|]. by intros _ [].
  - rewrite newline_free_app, IH. split.
    + intros [? ?]. by constructor.
    + by inversion 1.
Qed.

End LineFacts.

(** ** The packing loop *)

Section PackFacts.

Variable max_len : Z.

Lemma total_width_app a b :
  total_width (a ++ b) = total_width a + total_width b.
Proof.
  unfold total_width. induction a as [|t a IH]; simpl; [done|]. lia.
Qed.

Lemma total_width_nonneg g : Forall token_ok g -> 0 <= total_width g.
Proof.
  unfold total_width. induction 1 as [|t g [_ Ht] _ IH]; simpl; lia.
Qed.

Lemma nonempty_text_tokens (g : list token) :
  Forall token_ok g -> g <> [] -> nonempty (text_of_tokens g) = true.
Proof.
  intros H Hg. destruct H as [|t g [Ht _] _]; [done|].
  rewrite text_of_tokens_cons. by destruct (fst t).
Qed.

(** The string loop and the token loop go in step. *)
Lemma pack_step_groups tokens ls cur cd :
  final_lines (fold_left (pack_step max_len) tokens
                 (mkPack ls (text_of_tokens cur) cd))
  = ls ++ map text_of_tokens (pack_groups max_len cur cd tokens).
Proof.
  revert ls cur cd. induction tokens as [|[ts tw] tokens IH]; intros ls cur cd.
  - unfold final_lines. simpl.
    destruct (nonempty (text_of_tokens cur)); simpl; by rewrite ?app_nil_r.
  - cbn [fold_left pack_groups]. unfold pack_step at 2.
    cbn [current current_display lines snd].
    destruct ((0 <? tw) && (max_len <? cd + tw)
              && nonempty (text_of_tokens cur)).
    + pose proof (IH (ls ++ [text_of_tokens cur]) [(ts, tw)] tw) as H.
      unfold text_of_tokens at 2 in H. simpl in H. rewrite app_nil_r in H.
      rewrite H. by rewrite <- app_assoc.
    + pose proof (IH ls (cur ++ [(ts, tw)]) (cd + tw)) as H.
      rewrite text_of_tokens_app in H. unfold text_of_tokens at 2 in H.
      simpl in H. rewrite app_nil_r in H. exact H.
Qed.

Lemma fits_from_snoc cd g t :
  fits_from max_len cd (g ++ [t])
  = fits_from max_len cd g
    && ((snd t =? 0) || (cd + total_width g + snd t <=? max_len)).
Proof.
  revert cd. induction g as [|t0 g IH]; intros cd; simpl.
  - unfold total_width. simpl. rewrite Z.add_0_r. by rewrite andb_true_r.
  - rewrite IH. unfold total_width. simpl.
    rewrite <- andb_assoc. do 3 f_equal. f_equal. lia.
Qed.

Lemma line_ok_snoc g t :
  g <> [] ->
  line_ok max_len (g ++ [t])
  = line_ok max_len g
    && ((snd t =? 0) || (total_width g + snd t <=? max_len)).
Proof.
  destruct g as [|t0 g]; [done|]. intros _. simpl.
  rewrite fits_from_snoc. unfold total_width. simpl. done.
Qed.

Lemma fits_from_total cd g :
  Forall token_ok g -> cd + total_width g <= max_len ->
  fits_from max_len cd g = true.
Proof.
  revert cd. induction g as [|t g IH]; intros cd Hok Hle; [done|].
  inversion Hok as [|? ? [_ Ht] Hok']; subst.
  pose proof (total_width_nonneg _ Hok') as Hg.
  unfold total_width in *. simpl in *.
  rewrite IH by (done || lia).
  destruct (Z.leb_spec (cd + snd t) max_len); [|lia].
  by rewrite orb_true_r.
Qed.

Lemma line_ok_total g :
  Forall token_ok g -> total_width g <= max_len -> line_ok max_len g = true.
Proof.
  destruct g as [|t g]; [done|]. intros Hok Hle.
  inversion Hok; subst. apply fits_from_total; [done|].
  unfold total_width in *. simpl in *. lia.
Qed.

(** A line that went through the rule stays within the width... *)
Lemma fits_from_bound cd g :
  Forall token_ok g -> cd <= max_len -> fits_from max_len cd g = true ->
  cd + total_width g <= max_len.
Proof.
  revert cd. induction g as [|t g IH]; intros cd Hok Hcd Hfit.
  - unfold total_width. simpl. lia.
  - inversion Hok as [|? ? [_ Ht] Hok']; subst. simpl in Hfit.
    apply andb_true_iff in Hfit as [H1 H2].
    assert (cd + snd t <= max_len) by
      (destruct (Z.eqb_spec (snd t) 0), (Z.leb_spec (cd + snd t) max_len);
       (done || lia)).
    specialize (IH _ Hok' H H2). unfold total_width in *. simpl. lia.
Qed.

(** ... unless its first token alone is too wide, and then every other
    token on it has width zero. *)
Lemma fits_from_over cd g :
  Forall token_ok g -> max_len < cd -> fits_from max_len cd g = true ->
  Forall (fun t => snd t = 0) g.
Proof.
  revert cd. induction g as [|t g IH]; intros cd Hok Hcd Hfit; [constructor|].
  inversion Hok as [|? ? [_ Ht] Hok']; subst. simpl in Hfit.
  apply andb_true_iff in Hfit as [H1 H2].
  assert (snd t = 0) as H0 by
    (destruct (Z.eqb_spec (snd t) 0), (Z.leb_spec (cd + snd t) max_len);
     (done || lia)).
  constructor; [done|]. rewrite H0, Z.add_0_r in H2. eauto.
Qed.

Lemma line_ok_bound g :
  0 <= max_len -> Forall token_ok g -> line_ok max_len g = true ->
  total_width g <= max_len
  \/ exists t g', g = t :: g' /\ max_len < snd t
                  /\ Forall (fun t' => snd t' = 0) g'.
Proof.
  intros Hmax Hok Hl. destruct g as [|t g]; [by left|].
  inversion Hok as [|? ? _ Hok']; subst. simpl in Hl.
  destruct (Z.le_gt_cases (snd t) max_len) as [Hle|Hgt].
  - left. pose proof (fits_from_bound _ _ Hok' Hle Hl).
    unfold total_width in *. simpl. lia.
  - right. exists t, g. split; [done|]. split; [lia|].
    eapply fits_from_over; eauto.
Qed.

(** What [pack_groups] returns, by induction along the loop. *)
Lemma pack_groups_spec tokens : forall cur cd,
  Forall token_ok cur -> Forall token_ok tokens ->
  cd = total_width cur -> line_ok max_len cur = true ->
  let gs := pack_groups max_len cur cd tokens in
  concat gs = cur ++ tokens
  /\ Forall (fun g => g <> []) gs
  /\ Forall (fun g => line_ok max_len g = true) gs
  /\ breaks_ok max_len gs = true
  /\ (cur <> [] -> exists g rest, gs = (cur ++ g) :: rest).
Proof.
  induction tokens as [|tok tokens IH]; intros cur cd Hcur Htoks Hcd Hline.
  - cbn. destruct cur as [|t cur].
    + cbn. repeat split; try constructor. done.
    + rewrite nonempty_text_tokens by done. cbn.
      split; [by rewrite !app_nil_r|].
      split; [by repeat constructor|].
      split; [by repeat constructor|].
      split; [done|].
      intros _. exists [], []. by rewrite app_nil_r.
  - inversion Htoks as [|? ? Htok Htoks']; subst.
    cbn [pack_groups].
    destruct ((0 <? snd tok) && (max_len <? total_width cur + snd tok)
              && nonempty (text_of_tokens cur)) eqn:Hb.
    + apply andb_true_iff in Hb as [Hb Hne].
      apply andb_true_iff in Hb as [Hpos Hover].
      destruct (IH [tok] (snd tok)) as (Hc & Hn & Hl & Hbr & Hpre);
        [by constructor|done|unfold total_width; simpl; lia|done|].
      destruct Hpre as (g & rest & Hgs); [done|].
      assert (cur <> []) as Hcne by (intros ->; done).
      cbn zeta.
      split; [cbn; by rewrite Hc|].
      split; [by constructor|].
      split; [by constructor|].
      split.
      { rewrite Hgs in *. cbn [breaks_ok app]. cbn [breaks_ok app] in Hbr.
        cbn [app] in Hpos, Hover. 
        rewrite Hpos, Hover, Hne. cbn. exact Hbr. }
      intros _. exists [], (pack_groups max_len [tok] (snd tok) tokens).
      by rewrite app_nil_r.
    + assert (line_ok max_len (cur ++ [tok]) = true) as Hline'.
      { destruct cur as [|t cur]; [done|].
        rewrite line_ok_snoc, Hline by done.
        rewrite nonempty_text_tokens in Hb by done.
        rewrite andb_true_r in Hb. destruct Htok as [_ Htok].
        destruct (Z.ltb_spec 0 (snd tok)), (Z.eqb_spec (snd tok) 0),
          (Z.ltb_spec max_len (total_width (t :: cur) + snd tok)),
          (Z.leb_spec (total_width (t :: cur) + snd tok) max_len);
          (done || lia). }
      destruct (IH (cur ++ [tok]) (total_width cur + snd tok))
        as (Hc & Hn & Hl & Hbr & Hpre);
        [apply Forall_app; split; [done|by constructor]|done| |done|].
      { rewrite total_width_app. unfold total_width. simpl. lia. }
      cbn zeta.
      split; [by rewrite Hc, <- app_assoc|].
      split; [done|]. split; [done|]. split; [done|].
      intros _. destruct Hpre as (g & rest & ->); [by destruct cur|].
      exists (tok :: g), rest. by rewrite <- app_assoc.
Qed.
End PackFacts.

(** ** [wrap_segment] and [wrap_ja_text] *)

Section WrapFacts.

Variable ua : char -> bool.

Local Abbreviation tokenize := (AutoWrap.tokenize ua).
Local Abbreviation wrap_segment := (AutoWrap.wrap_segment ua).
Local Abbreviation wrap_ja_text := (AutoWrap.wrap_ja_text ua).
Local Abbreviation line_groups := (AutoWrap.line_groups ua).

Lemma text_of_tokens_concat (gs : list (list token)) :
  text_of_tokens (concat gs) = concat (map text_of_tokens gs).
Proof.
  induction gs as [|g gs IH]; [done|].
  simpl. by rewrite text_of_tokens_app, IH.
Qed.

Lemma wrap_segment_groups seg max_len :
  wrap_segment seg max_len
  = join_lines (map text_of_tokens (line_groups seg max_len)).
Proof.
  unfold AutoWrap.wrap_segment, AutoWrap.line_groups.
  destruct (total_width (tokenize seg) <=? max_len).
  - simpl. by rewrite tokenize_text.
  - pose proof (pack_step_groups max_len (tokenize seg) [] [] 0) as H.
    unfold final_lines in H. simpl in H. by rewrite <- H.
Qed.

Lemma line_groups_spec seg max_len :
  let gs := line_groups seg max_len in
  concat gs = tokenize seg
  /\ Forall (fun g => line_ok max_len g = true) gs
  /\ breaks_ok max_len gs = true
  /\ (0 <= max_len -> gs <> [])
  /\ (seg <> [] -> Forall (fun g => g <> []) gs).
Proof.
  pose proof (tokenize_ok ua seg) as Hok.
  unfold AutoWrap.line_groups.
  destruct (Z.leb_spec (total_width (tokenize seg)) max_len) as [Hle|Hgt].
  - cbn zeta. split; [simpl; by rewrite app_nil_r|].
    split; [constructor; [by apply line_ok_total|constructor]|].
    split; [done|]. split; [done|].
    intros Hseg. constructor; [|constructor].
    intros E. apply Hseg. by rewrite <- (tokenize_text ua seg), E.
  - destruct (pack_groups_spec max_len (tokenize seg) [] 0)
      as (Hc & Hn & Hl & Hb & _); try done.
    cbn zeta. repeat split; try done.
    intros Hmax E. rewrite E in Hc. simpl in Hc. rewrite <- Hc in Hgt.
    unfold total_width in Hgt. simpl in Hgt. lia.
Qed.

Lemma line_groups_newline_free seg max_len :
  newline_free seg ->
  Forall newline_free (map text_of_tokens (line_groups seg max_len)).
Proof.
  intros H. apply newline_free_concat.
  rewrite <- text_of_tokens_concat.
  destruct (line_groups_spec seg max_len) as [-> _].
  by rewrite tokenize_text.
Qed.

Lemma concat_map_singleton_lines (ls : list str) :
  Forall newline_free ls -> concat (map split_lines ls) = ls.
Proof.
  induction 1 as [|l ls Hl _ IH]; [done|].
  simpl. by rewrite split_lines_newline_free, IH.
Qed.

Lemma wrap_segment_lines seg max_len :
  newline_free seg -> 0 <= max_len ->
  split_lines (wrap_segment seg max_len)
  = map text_of_tokens (line_groups seg max_len).
Proof.
  intros Hfree Hmax. rewrite wrap_segment_groups.
  destruct (line_groups_spec seg max_len) as (_ & _ & _ & Hne & _).
  rewrite split_join.
  - apply concat_map_singleton_lines. by apply line_groups_newline_free.
  - intros E. apply map_eq_nil in E. by apply Hne.
Qed.

Lemma wrap_segment_nil max_len : wrap_segment [] max_len = [].
Proof.
  unfold AutoWrap.wrap_segment. by destruct (_ <=? _).
Qed.

Lemma wrap_ja_text_fst text max_len :
  fst (wrap_ja_text text max_len)
  = join_lines (map (fun part => wrap_segment part max_len) (split_lines text)).
Proof.
  unfold AutoWrap.wrap_ja_text. destruct text as [|c text]; [|done].
  simpl. by rewrite wrap_segment_nil.
Qed.

Lemma wrap_ja_text_snd text max_len :
  snd (wrap_ja_text text max_len) = true
  <-> fst (wrap_ja_text text max_len) <> text.
Proof.
  unfold AutoWrap.wrap_ja_text. destruct text as [|c text]; [done|].
  cbn [nonempty negb fst snd]. unfold str_eqb.
  rewrite negb_true_iff, bool_decide_eq_false. done.
Qed.

Lemma wrap_segment_strip seg max_len :
  newline_free seg -> strip_newlines (wrap_segment seg max_len) = seg.
Proof.
  intros Hfree. rewrite wrap_segment_groups, strip_newlines_join.
  pose proof (line_groups_newline_free seg max_len Hfree) as H.
  assert (map strip_newlines (map text_of_tokens (line_groups seg max_len))
          = map text_of_tokens (line_groups seg max_len)) as ->.
  { induction H as [|l ls Hl _ IH]; [done|].
    simpl. by rewrite strip_newlines_free, IH. }
  rewrite <- text_of_tokens_concat.
  destruct (line_groups_spec seg max_len) as [-> _].
  apply tokenize_text.
Qed.

Lemma newline_free_forallb s :
  forallb (fun c => negb (c =? NEWLINE)%N) s = true -> newline_free s.
Proof.
  unfold newline_free. induction s as [|c s IH]; simpl; [tauto|].
  intros H. apply andb_true_iff in H as [Hc Hs].
  apply negb_true_iff, N.eqb_neq in Hc. intros [E|Hin]; [congruence|].
  by apply IH.
Qed.

Lemma group_texts_nonempty (gs : list (list token)) :
  Forall token_ok (concat gs) -> Forall (fun g => g <> []) gs ->
  Forall (fun l : str => l <> []) (map text_of_tokens gs).
Proof.
  induction gs as [|g gs IH]; [constructor|]. simpl.
  intros Hok Hne. apply Forall_app in Hok as [Hg Hgs].
  inversion Hne as [|? ? Hg0 Hne']; subst. constructor; [|by apply IH].
  pose proof (nonempty_text_tokens g Hg Hg0) as H.
  intros E. by rewrite E in H.
Qed.

(** A text all of whose lines are non-empty neither starts nor ends with
    a newline and has no two newlines in a row. *)
Lemma lines_nonempty_shape s :
  Forall (fun l : str => l <> []) (split_lines s) ->
  head s <> Some NEWLINE /\ last s <> Some NEWLINE
  /\ (forall a b, s <> a ++ [NEWLINE; NEWLINE] ++ b).
Proof.
  intros H. repeat split.
  - destruct s as [|c s]; [done|]. intros [= ->]. by inversion H.
  - intros Hl. apply last_Some in Hl as [a ->].
    rewrite split_lines_app in H. apply Forall_app in H as [_ H].
    by inversion H.
  - intros a b ->. simpl in H. rewrite split_lines_app in H.
    apply Forall_app in H as [_ H]. by inversion H.
Qed.

End WrapFacts.

(** ** The patterns in closed form *)

Section ClosedForms.

Lemma until_sound p c s w r :
  until p c s = Some (w, r) -> s = w ++ c :: r /\ forallb p w = true.
Proof.
  revert w r. induction s as [|x s IH]; intros w r; simpl; [done|].
  destruct (p x) eqn:Hx.
  - destruct (until p c s) as [[w0 r0]|]; [|done].
    intros [= <- <-]. destruct (IH _ _ eq_refl) as [-> Hw].
    simpl. by rewrite Hx.
  - destruct (N.eqb_spec x c) as [->|_]; [|done]. by intros [= <- <-].
Qed.

Lemma until_complete p c w r :
  p c = false -> forallb p w = true -> until p c (w ++ c :: r) = Some (w, r).
Proof.
  intros Hc. induction w as [|x w IH]; simpl.
  - intros _. by rewrite Hc, N.eqb_refl.
  - intros H. apply andb_true_iff in H as [-> Hw]. by rewrite IH.
Qed.

Lemma run1_sound p c s w r :
  run1 p c s = Some (w, r) ->
  s = w ++ c :: r /\ forallb p w = true /\ w <> [].
Proof.
  destruct s as [|x s]; simpl; [done|].
  destruct (p x) eqn:Hx; [|done].
  destruct (until p c s) as [[w0 r0]|] eqn:E; [|done].
  intros [= <- <-]. destruct (until_sound _ _ _ _ _ E) as [-> Hw].
  simpl. by rewrite Hx.
Qed.

Lemma run1_complete p c w r :
  p c = false -> forallb p w = true -> w <> [] ->
  run1 p c (w ++ c :: r) = Some (w, r).
Proof.
  intros Hc Hw Hne. destruct w as [|x w]; [done|]. simpl in *.
  apply andb_true_iff in Hw as [-> Hw]. by rewrite until_complete.
Qed.

Lemma run1_until p c s w r :
  run1 p c s = Some (w, r) -> until p c s = Some (w, r).
Proof.
  destruct s as [|x s]; simpl; [done|]. by destruct (p x).
Qed.

Lemma flat_map_cons_fst {A : Type} (x : char) (f : str * str -> list (str * A))
    (l : list (str * str)) :
  (forall m r, f (x :: m, r) = map (fun mr => (x :: fst mr, snd mr)) (f (m, r))) ->
  flat_map f (map (fun mr => (x :: fst mr, snd mr)) l)
  = map (fun mr => (x :: fst mr, snd mr)) (flat_map f l).
Proof.
  intros Hf. induction l as [|[m r] l IH]; [done|].
  simpl. by rewrite map_app, IH, Hf.
Qed.

(** [[class]+c] in closed form. *)
Lemma plus_lit_closed p c s :
  p c = false ->
  matches (Plus p · Lit c) s
  = match run1 p c s with
    | Some (w, r) => [(w ++ [c], r)]
    | None => []
    end.
Proof.
  intros Hc. induction s as [|x s IH]; [done|].
  cbn [matches plus_matches run1] in *.
  destruct (p x) eqn:Hx; [|done].
  rewrite flat_map_app, flat_map_cons_fst.
  2:{ intros m r. cbn [fst snd]. rewrite map_map. done. }
  rewrite IH. cbn [flat_map fst snd]. rewrite app_nil_r.
  destruct s as [|y s]; [done|]. cbn [until].
  destruct (p y) eqn:Hy.
  - assert ((y =? c)%N = false) as ->
      by (apply N.eqb_neq; intros ->; congruence).
    rewrite app_nil_r. cbn [run1]. rewrite Hy.
    by destruct (until p c s) as [[w r]|].
  - cbn [run1]. rewrite Hy. cbn.
    destruct (N.eqb_spec y c) as [->|_]; done.
Qed.

Lemma match_alts_head g re alts s :
  match_alts g (re :: alts) s
  = match head (matches re s) with
    | Some (m, r) => Some (g, m, r)
    | None => match_alts (S g) alts s
    end.
Proof. simpl. by destruct (matches re s) as [|[m r] l]. Qed.

Lemma head_map_cons (x : char) (l : list (str * str)) :
  head (map (fun mr => (x :: fst mr, snd mr)) l)
  = match head l with Some (m, r) => Some (x :: m, r) | None => None end.
Proof. by destruct l as [|[m r] l]. Qed.

End ClosedForms.

Section CombinedClosed.

Variable ua : char -> bool.

Local Abbreviation is_word := (AutoWrap.is_word ua).
Local Abbreviation combined := (AutoWrap.combined ua).
Local Abbreviation lex_at := (AutoWrap.lex_at ua).
Local Abbreviation img_body := (AutoWrap.img_body ua).

Lemma is_word_not_bracket c : is_word c = true -> not_bracket c = true.
Proof.
  unfold not_bracket.
  destruct (N.eqb_spec c LBRACKET) as [->|_]; [done|].
  destruct (N.eqb_spec c RBRACKET) as [->|_]; done.
Qed.

Lemma forallb_word_not_bracket w :
  forallb is_word w = true -> forallb not_bracket w = true.
Proof.
  induction w as [|c w IH]; [done|]. simpl. intros H.
  apply andb_true_iff in H as [Hc Hw].
  by rewrite is_word_not_bracket, IH.
Qed.

Lemma lit_plus_lit_head c0 p c s :
  p c = false ->
  head (matches (Lit c0 · Plus p · Lit c) s)
  = match s with
    | x :: s' =>
        if (x =? c0)%N then
          match run1 p c s' with
          | Some (w, r) => Some (x :: w ++ [c], r)
          | None => None
          end
        else None
    | [] => None
    end.
Proof.
  intros Hc. rewrite matches_lit_seq. destruct s as [|x s']; [done|].
  destruct (x =? c0)%N; [|done].
  rewrite head_map_cons, plus_lit_closed by done.
  by destruct (run1 p c s') as [[w r]|].
Qed.

Lemma img_tail_closed s :
  matches (Lit CH_i · Lit CH_m · Lit CH_g · Lit COLON
             · Plus is_word · Lit RBRACKET) s
  = match img_body s with Some mr => [mr] | None => [] end.
Proof.
  destruct s as [|c1 [|c2 [|c3 [|c4 s5]]]];
    rewrite ?matches_lit_seq; unfold AutoWrap.img_body;
    repeat (match goal with
            | |- context [(?a =? ?b)%N] => destruct (a =? b)%N
            end; cbn [andb map]); try done.
  rewrite plus_lit_closed by done.
  by destruct (run1 is_word RBRACKET s5) as [[w r]|].
Qed.

Lemma matches_opt_seq r1 R s :
  matches (Opt r1 · R) s
  = flat_map (fun mr1 =>
      map (fun mr2 => (fst mr1 ++ fst mr2, snd mr2)) (matches R (snd mr1)))
      (matches r1 s)
    ++ matches R s.
Proof.
  cbn [matches]. rewrite flat_map_app. f_equal. cbn [flat_map fst snd app].
  rewrite app_nil_r. induction (matches R s) as [|[m r] l IH]; [done|].
  simpl. by rewrite IH.
Qed.

Lemma matches_lit_cons c x s :
  matches (Lit c) (x :: s) = if (x =? c)%N then [([x], s)] else [].
Proof. done. Qed.

Lemma tag_tail_head s :
  head (matches (Opt (Lit SLASH) · Plus not_bracket · Lit RBRACKET) s)
  = match run1 not_bracket RBRACKET s with
    | Some (b, r) => Some (b ++ [RBRACKET], r)
    | None => None
    end.
Proof.
  rewrite matches_opt_seq.
  assert (forall t, head (matches (Plus not_bracket · Lit RBRACKET) t)
                    = match run1 not_bracket RBRACKET t with
                      | Some (b, r) => Some (b ++ [RBRACKET], r)
                      | None => None
                      end) as Hh.
  { intros t. rewrite plus_lit_closed by done.
    by destruct (run1 _ _ t) as [[? ?]|]. }
  destruct s as [|x s']; [done|]. rewrite matches_lit_cons.
  destruct (N.eqb_spec x SLASH) as [->|_]; [|apply (Hh (x :: s'))].
  cbn [flat_map fst snd]. rewrite app_nil_r.
  rewrite (plus_lit_closed _ _ s') by done.
  destruct (run1 not_bracket RBRACKET s') as [[w r]|] eqn:E;
    [|apply (Hh (SLASH :: s'))].
  apply run1_until in E. cbn [run1 map head app fst snd].
  change (not_bracket SLASH) with true. cbv iota. by rewrite E.
Qed.

Lemma match_at_combined s : match_at combined s = lex_at s.
Proof.
  unfold match_at, AutoWrap.combined. rewrite !match_alts_head.
  unfold IMG_TAG, TAG, TEMPLATE_VAR, ENTITY.
  rewrite !(lit_plus_lit_head _ _ _ s) by done.
  rewrite (matches_lit_seq LBRACKET _ s), (matches_lit_seq LBRACKET (Opt _ · _) s).
  destruct s as [|x s']; [done|]. unfold AutoWrap.lex_at.
  destruct (N.eqb_spec x LBRACKET) as [->|Hx1].
  - rewrite !head_map_cons, img_tail_closed, tag_tail_head.
    destruct (img_body s') as [[m r]|]; [done|]. cbn [head].
    destruct (run1 not_bracket RBRACKET s') as [[b r]|]; done.
  - cbn [head]. destruct (N.eqb_spec x LBRACE) as [->|Hx2].
    + by destruct (run1 not_brace RBRACE s') as [[b r]|].
    + destruct (N.eqb_spec x AMP) as [->|Hx3]; [|done].
      by destruct (run1 is_word SEMI s') as [[b r]|].
Qed.

Lemma img_body_sound s m r :
  img_body s = Some (m, r) ->
  exists w, m = CH_i :: CH_m :: CH_g :: COLON :: w ++ [RBRACKET]
            /\ s = m ++ r /\ forallb is_word w = true /\ w <> [].
Proof.
  unfold AutoWrap.img_body. destruct s as [|c1 [|c2 [|c3 [|c4 s5]]]]; try done.
  destruct (N.eqb_spec c1 CH_i) as [->|_]; [|done].
  destruct (N.eqb_spec c2 CH_m) as [->|_]; [|done].
  destruct (N.eqb_spec c3 CH_g) as [->|_]; [|done].
  destruct (N.eqb_spec c4 COLON) as [->|_]; [|done]. cbn [andb].
  destruct (run1 is_word RBRACKET s5) as [[w r0]|] eqn:E; [|done].
  intros [= <- <-]. destruct (run1_sound _ _ _ _ _ E) as (-> & Hw & Hne).
  exists w. repeat split; try done. cbn. by rewrite <- app_assoc.
Qed.

Lemma img_body_complete w r :
  forallb is_word w = true -> w <> [] ->
  img_body (CH_i :: CH_m :: CH_g :: COLON :: w ++ RBRACKET :: r)
  = Some (CH_i :: CH_m :: CH_g :: COLON :: w ++ [RBRACKET], r).
Proof.
  intros Hw Hne. unfold AutoWrap.img_body. cbn [N.eqb andb].
  rewrite !N.eqb_refl. cbn [andb]. by rewrite run1_complete.
Qed.

(** What [combined] matches at the head of a string does not depend on
    what follows the match. *)
Lemma lex_at_ext s g m r r' :
  lex_at s = Some (g, m, r) -> lex_at (m ++ r') = Some (g, m, r').
Proof.
  unfold AutoWrap.lex_at. destruct s as [|x s']; [done|].
  destruct (N.eqb_spec x LBRACKET) as [->|Hx1].
  - destruct (img_body s') as [[m0 r0]|] eqn:Ei.
    + intros [= <- <- <-]. cbn [app]. rewrite N.eqb_refl.
      destruct (img_body_sound _ _ _ Ei) as (w & -> & _ & Hw & Hne).
      cbn [app]. rewrite <- app_assoc. cbn [app].
      by rewrite img_body_complete.
    + destruct (run1 not_bracket RBRACKET s') as [[b r0]|] eqn:Er; [|done].
      intros [= <- <- <-]. cbn [app]. rewrite N.eqb_refl.
      destruct (run1_sound _ _ _ _ _ Er) as (-> & Hb & Hne).
      rewrite <- app_assoc. cbn [app].
      rewrite (run1_complete _ _ b r') by done.
      destruct (img_body (b ++ RBRACKET :: r')) as [[m1 r1]|] eqn:Ei'; [|done].
      exfalso. destruct (img_body_sound _ _ _ Ei') as (w & -> & E & Hw & Hne').
      assert (until not_bracket RBRACKET (b ++ RBRACKET :: r')
              = Some (CH_i :: CH_m :: CH_g :: COLON :: w, r1)) as Hu.
      { rewrite E. cbn [app]. rewrite <- app_assoc. cbn [app].
        apply (until_complete not_bracket RBRACKET
                 (CH_i :: CH_m :: CH_g :: COLON :: w) r1); [done|].
        cbn. by apply forallb_word_not_bracket. }
      rewrite until_complete in Hu by done. injection Hu as -> ->.
      cbn [app] in Ei. by rewrite img_body_complete in Ei.
  - destruct (N.eqb_spec x LBRACE) as [->|Hx2].
    + destruct (run1 not_brace RBRACE s') as [[b r0]|] eqn:Er; [|done].
      intros [= <- <- <-]. cbn [app].
      destruct (run1_sound _ _ _ _ _ Er) as (-> & Hb & Hne).
      rewrite <- app_assoc. cbn [app N.eqb Pos.eqb].
      by rewrite (run1_complete _ _ b r').
    + destruct (N.eqb_spec x AMP) as [->|Hx3]; [|done].
      destruct (run1 is_word SEMI s') as [[b r0]|] eqn:Er; [|done].
      intros [= <- <- <-]. cbn [app].
      destruct (run1_sound _ _ _ _ _ Er) as (-> & Hb & Hne).
      rewrite <- app_assoc. cbn [app N.eqb Pos.eqb].
      by rewrite (run1_complete _ _ b r').
Qed.

Lemma combined_ext s g m r r' :
  match_at combined s = Some (g, m, r) ->
  match_at combined (m ++ r') = Some (g, m, r').
Proof. rewrite !match_at_combined. apply lex_at_ext. Qed.

Lemma combined_nil : match_at combined [] = None.
Proof. by rewrite match_at_combined. Qed.

End CombinedClosed.

(** ** Cutting a scanned text at a token boundary *)

Section SearchExt.

Variable alts : list regex.

Hypothesis match_nonempty :
  forall s g m r, match_at alts s = Some (g, m, r) -> m <> [].

(** The match at the head of a string is the same whatever follows it. *)
Hypothesis match_ext :
  forall s g m r r',
    match_at alts s = Some (g, m, r) ->
    match_at alts (m ++ r') = Some (g, m, r').

Lemma match_at_app y z g m r :
  match_at alts y = Some (g, m, r) ->
  match_at alts (y ++ z) = Some (g, m, r ++ z).
Proof.
  intros H. destruct (match_at_sound _ _ _ _ _ H) as [-> _].
  rewrite <- app_assoc. eapply match_ext; eauto.
Qed.

Lemma match_at_nil : match_at alts [] = None.
Proof.
  destruct (match_at alts []) as [[[g m] r]|] eqn:E; [|done].
  destruct (match_at_sound _ _ _ _ _ E) as [E' _].
  apply match_nonempty in E. by destruct m.
Qed.

Lemma match_at_none_prefix y z :
  match_at alts (y ++ z) = None -> match_at alts y = None.
Proof.
  intros H. destruct (match_at alts y) as [[[g m] r]|] eqn:E; [|done].
  apply (match_at_app _ z) in E. congruence.
Qed.

Lemma search_cons_inv c s x g m r :
  search alts (c :: s) = Some (x, g, m, r) ->
  (x = [] /\ match_at alts (c :: s) = Some (g, m, r))
  \/ (exists x', x = c :: x' /\ match_at alts (c :: s) = None
                 /\ search alts s = Some (x', g, m, r)).
Proof.
  simpl. destruct (match_at alts (c :: s)) as [[[g0 m0] r0]|].
  - intros [= <- <- <- <-]. by left.
  - destruct (search alts s) as [[[[x0 g0] m0] r0]|]; [|done].
    intros [= <- <- <- <-]. right. by exists x0.
Qed.

Lemma search_head s g m r :
  match_at alts s = Some (g, m, r) -> search alts s = Some ([], g, m, r).
Proof. intros H. destruct s; simpl; by rewrite H. Qed.

Lemma search_cons_none c s :
  match_at alts (c :: s) = None ->
  search alts (c :: s)
  = match search alts s with
    | Some (x, g, m, r) => Some (c :: x, g, m, r)
    | None => None
    end.
Proof. intros H. simpl. by rewrite H. Qed.

Lemma search_none_app_l a b :
  search alts (a ++ b) = None -> search alts a = None.
Proof.
  induction a as [|c a IH]; intros H.
  - simpl. by rewrite match_at_nil.
  - simpl app in H. pose proof (search_none_at _ _ H) as Hm.
    apply search_none_tail in H.
    rewrite search_cons_none by (by apply (match_at_none_prefix (c :: a) b)).
    by rewrite IH.
Qed.

Lemma search_none_app_r a b :
  search alts (a ++ b) = None -> search alts b = None.
Proof.
  induction a as [|c a IH]; [done|]. intros H.
  apply IH. by eapply search_none_tail.
Qed.

(** Cutting the text before the first match: no match on the left part,
    the same first match on the right part. *)
Lemma search_split x1 x2 g m r :
  search alts (x1 ++ x2 ++ m ++ r) = Some (x1 ++ x2, g, m, r) ->
  search alts x1 = None
  /\ search alts (x2 ++ m ++ r) = Some (x2, g, m, r).
Proof.
  induction x1 as [|c x1 IH]; intros H.
  - split; [|done]. simpl. by rewrite match_at_nil.
  - simpl app in H. apply search_cons_inv in H as [[? _]|(x' & E & Hm & Hs)];
      [done|]. injection E as <-.
    destruct (IH Hs) as [H1 H2]. split; [|done].
    rewrite search_cons_none.
    + by rewrite H1.
    + apply (match_at_none_prefix (c :: x1) (x2 ++ m ++ r)). done.
Qed.

(** Cutting the text after the first match keeps the first match. *)
Lemma search_truncate x g m r1 r2 :
  search alts (x ++ m ++ r1 ++ r2) = Some (x, g, m, r1 ++ r2) ->
  search alts (x ++ m ++ r1) = Some (x, g, m, r1).
Proof.
  induction x as [|c x IH]; intros H.
  - simpl app in *. apply search_head.
    destruct (search_sound _ _ _ _ _ _ H) as [_ Hm].
    eapply match_ext; eauto.
  - simpl app in H. apply search_cons_inv in H as [[? _]|(x' & E & Hm & Hs)];
      [done|]. injection E as <-.
    simpl app. rewrite search_cons_none.
    + by rewrite (IH Hs).
    + apply (match_at_none_prefix _ r2).
      replace ((c :: x ++ m ++ r1) ++ r2) with (c :: x ++ m ++ r1 ++ r2)
        by (cbn [app]; by rewrite <- !app_assoc).
      done.
Qed.

End SearchExt.

Section PlainFacts.

Lemma span_sound p s :
  s = fst (span p s) ++ snd (span p s)
  /\ forallb p (fst (span p s)) = true /\ stops p (snd (span p s)).
Proof.
  induction s as [|x s (IH1 & IH2 & IH3)]; [done|]. simpl.
  destruct (p x) eqn:Hx; simpl; [|done].
  rewrite Hx, IH2. by rewrite <- IH1.
Qed.

Lemma span_complete p w r :
  forallb p w = true -> stops p r -> span p (w ++ r) = (w, r).
Proof.
  intros Hw Hr. induction w as [|x w IH]; simpl.
  - destruct r as [|c r]; [done|]. simpl in *. by rewrite Hr.
  - simpl in Hw. apply andb_true_iff in Hw as [-> Hw]. by rewrite IH.
Qed.

Lemma plus_matches_head p s :
  head (plus_matches p s)
  = match fst (span p s) with
    | [] => None
    | _ :: _ => Some (span p s)
    end.
Proof.
  induction s as [|x s IH]; [done|]. simpl.
  destruct (p x) eqn:Hx; [|done]. simpl.
  destruct (plus_matches p s) as [|[m r] l]; simpl in *.
  - destruct (span p s) as [[|y w] r] eqn:E; [|done]. simpl.
    pose proof (span_sound p s) as [H _]. rewrite E in H. simpl in H.
    by rewrite <- H.
  - destruct (span p s) as [[|y w] r']; [done|]. simpl in *. congruence.
Qed.

Lemma ascii_word_match s :
  match_at ascii_word s
  = match fst (span ascii_alnum s) with
    | [] => None
    | _ :: _ => Some (1%nat, fst (span ascii_alnum s), snd (span ascii_alnum s))
    end.
Proof.
  unfold match_at, ascii_word. rewrite match_alts_head. cbn [matches].
  rewrite plus_matches_head.
  destruct (span ascii_alnum s) as [[|y w] r]; done.
Qed.

Lemma tokenize_plain_other c s :
  ascii_alnum c = false ->
  _tokenize_plain (c :: s) = ([c], 1) :: _tokenize_plain s.
Proof.
  intros Hc.
  assert (match_at ascii_word (c :: s) = None) as Hm
    by (rewrite ascii_word_match; simpl; by rewrite Hc).
  destruct (search ascii_word s) as [[[[x g] m] r]|] eqn:E.
  - rewrite (tokenize_plain_some s _ _ _ _ E).
    by rewrite (tokenize_plain_some (c :: s) (c :: x) g m r)
      by (simpl; by rewrite Hm, E).
  - rewrite !tokenize_plain_none; [done|done|]. simpl. by rewrite Hm, E.
Qed.

Lemma tokenize_plain_word w r :
  forallb ascii_alnum w = true -> w <> [] -> stops ascii_alnum r ->
  _tokenize_plain (w ++ r) = (w, Z.of_nat (length w)) :: _tokenize_plain r.
Proof.
  intros Hw Hne Hr.
  assert (match_at ascii_word (w ++ r) = Some (1%nat, w, r)) as Hm.
  { rewrite ascii_word_match, span_complete by done. by destruct w. }
  by rewrite (tokenize_plain_some (w ++ r) [] 1%nat w r)
    by (by apply search_head).
Qed.

(** A string is empty, starts with a character that is not alphanumeric,
    or starts with a maximal alphanumeric run. *)
Lemma plain_cases s :
  s = []
  \/ (exists c s', s = c :: s' /\ ascii_alnum c = false)
  \/ (exists w r, s = w ++ r /\ w <> [] /\ forallb ascii_alnum w = true
                  /\ stops ascii_alnum r).
Proof.
  destruct s as [|c s']; [by left|]. right.
  destruct (ascii_alnum c) eqn:Hc; [right|left; eauto].
  pose proof (span_sound ascii_alnum (c :: s')) as (H1 & H2 & H3).
  exists (fst (span ascii_alnum (c :: s'))), (snd (span ascii_alnum (c :: s'))).
  repeat split; try done. simpl. by rewrite Hc.
Qed.

Lemma stops_prefix p a b : stops p (a ++ b) -> stops p a.
Proof. by destruct a. Qed.

(** A run of tokens cut out of a plain tokenization is the plain
    tokenization of its own text. *)
Lemma tokenize_plain_split s : forall P1 P2,
  _tokenize_plain s = P1 ++ P2 ->
  _tokenize_plain (text_of_tokens P1) = P1
  /\ _tokenize_plain (text_of_tokens P2) = P2.
Proof.
  induction s as [s IH] using (well_founded_induction
    (well_founded_ltof _ (@length N))).
  intros P1 P2 H.
  assert (_tokenize_plain (text_of_tokens P2) = P2 -> P1 = [] ->
          _tokenize_plain (text_of_tokens P1) = P1
          /\ _tokenize_plain (text_of_tokens P2) = P2) as Hnil
    by (intros ? ->; done).
  assert (P1 = [] -> _tokenize_plain (text_of_tokens P2) = P2) as Hall.
  { intros ->. simpl in H. by rewrite <- H, tokenize_plain_text. }
  destruct (plain_cases s) as [->|[(c & s' & -> & Hc)|(w & r & -> & Hne & Hw & Hr)]].
  - destruct P1, P2; try done.
  - rewrite tokenize_plain_other in H by done.
    destruct P1 as [|t P1]; [auto|]. injection H as <- H.
    destruct (IH s' ltac:(unfold ltof; simpl; lia) _ _ H) as [H1 H2].
    split; [|done]. rewrite text_of_tokens_cons. simpl.
    by rewrite tokenize_plain_other, H1.
  - rewrite tokenize_plain_word in H by done.
    destruct P1 as [|t P1]; [auto|]. injection H as <- H.
    assert (ltof _ (@length N) r (w ++ r)) as Hlt
      by (unfold ltof; rewrite length_app; destruct w; [done|simpl; lia]).
    destruct (IH r Hlt _ _ H) as [H1 H2].
    split; [|done]. rewrite text_of_tokens_cons. simpl.
    rewrite tokenize_plain_word, H1; try done.
    apply (stops_prefix _ _ (text_of_tokens P2)).
    by rewrite <- text_of_tokens_app, <- H, tokenize_plain_text.
Qed.

End PlainFacts.

Section Retokenize.

Variable ua : char -> bool.

Local Abbreviation combined := (AutoWrap.combined ua).
Local Abbreviation tokenize := (AutoWrap.tokenize ua).

(** A run of tokens cut out of a tokenization is the tokenization of its
    own text. *)
Lemma tokenize_split s : forall T1 T2,
  tokenize s = T1 ++ T2 ->
  tokenize (text_of_tokens T1) = T1 /\ tokenize (text_of_tokens T2) = T2.
Proof.
  induction s as [s H|s x g m r H IH]
    using (search_ind _ (combined_nonempty ua)); intros T1 T2 HT.
  - rewrite tokenize_none in HT by done.
    destruct (tokenize_plain_split _ _ _ HT) as [H1 H2].
    assert (s = text_of_tokens T1 ++ text_of_tokens T2) as Hs
      by (by rewrite <- text_of_tokens_app, <- HT, tokenize_plain_text).
    rewrite Hs in H. split.
    + rewrite tokenize_none; [done|].
      eapply (search_none_app_l _ (combined_nonempty ua) (combined_ext ua)).
      exact H.
    + rewrite tokenize_none; [done|]. eapply search_none_app_r. exact H.
  - rewrite (tokenize_some _ _ _ _ _ _ H) in HT.
    destruct (combined_match_token _ _ _ _ _ _ H) as (w & Hw & _).
    rewrite Hw in HT. cbn [app] in HT.
    destruct (search_sound _ _ _ _ _ _ H) as [Hs Hm].
    assert (forall K, _tokenize_plain x = T1 ++ K ->
                      T2 = K ++ (m, w) :: tokenize r ->
            tokenize (text_of_tokens T1) = T1
            /\ tokenize (text_of_tokens T2) = T2) as HcaseA.
    { intros K HK ->. destruct (tokenize_plain_split _ _ _ HK) as [H1 H2].
      assert (x = text_of_tokens T1 ++ text_of_tokens K) as Hx
        by (by rewrite <- text_of_tokens_app, <- HK, tokenize_plain_text).
      rewrite Hs, Hx, <- app_assoc in H.
      destruct (search_split _ (combined_nonempty ua) (combined_ext ua)
                  _ _ _ _ _ H) as [Hn Hsome].
      split; [by rewrite tokenize_none|].
      rewrite text_of_tokens_app, text_of_tokens_cons, tokenize_text.
      cbn [fst]. rewrite (tokenize_some _ _ _ _ _ _ Hsome), H2, Hw. done. }
    apply app_eq_inv in HT as [(K & HK & ->)|(K & -> & HK)]; [eauto|].
    destruct K as [|t K].
    { apply (HcaseA []); [by rewrite !app_nil_r|]. simpl in HK. by subst T2. }
    injection HK as <- HK. destruct (IH _ _ HK) as [H1 H2]. split; [|done].
    rewrite text_of_tokens_app, text_of_tokens_cons, tokenize_plain_text.
    cbn [fst].
    assert (r = text_of_tokens K ++ text_of_tokens T2) as Hr
      by (by rewrite <- text_of_tokens_app, <- HK, tokenize_text).
    rewrite Hs, Hr in H.
    apply (search_truncate _ (combined_ext ua)) in H.
    by rewrite (tokenize_some _ _ _ _ _ _ H), Hw, H1.
Qed.

Lemma tokenize_groups (gs : list (list token)) : forall s,
  tokenize s = concat gs ->
  Forall (fun g => tokenize (text_of_tokens g) = g) gs.
Proof.
  induction gs as [|g gs IH]; intros s H; [constructor|].
  simpl in H. destruct (tokenize_split _ _ _ H) as [H1 H2].
  constructor; [done|]. by apply (IH (text_of_tokens (concat gs))).
Qed.

End Retokenize.

(** ** Wrapping twice *)

Section Idempotence.

Variable ua : char -> bool.

Local Abbreviation tokenize := (AutoWrap.tokenize ua).
Local Abbreviation wrap_segment := (AutoWrap.wrap_segment ua).
Local Abbreviation wrap_ja_text := (AutoWrap.wrap_ja_text ua).
Local Abbreviation line_groups := (AutoWrap.line_groups ua).

(** Tokens that passed the rule once are never broken apart again. *)
Lemma pack_groups_single max_len g : forall cur cd,
  Forall token_ok cur -> Forall token_ok g -> cur <> [] ->
  fits_from max_len cd g = true ->
  pack_groups max_len cur cd g = [cur ++ g].
Proof.
  induction g as [|t g IH]; intros cur cd Hok Hg Hne Hfit; simpl.
  - by rewrite nonempty_text_tokens, app_nil_r.
  - simpl in Hfit. apply andb_true_iff in Hfit as [Ht Hfit].
    inversion Hg as [|? ? Hokt Hg']; subst.
    assert ((0 <? snd t) && (max_len <? cd + snd t) = false) as ->.
    { destruct (Z.ltb_spec 0 (snd t)), (Z.ltb_spec max_len (cd + snd t)),
        (Z.eqb_spec (snd t) 0), (Z.leb_spec (cd + snd t) max_len);
        (done || lia). }
    cbn [andb]. rewrite IH; try done.
    + by rewrite <- app_assoc.
    + apply Forall_app. split; [done|]. by constructor.
    + by destruct cur.
Qed.

Lemma wrap_segment_line max_len g :
  Forall token_ok g -> line_ok max_len g = true ->
  tokenize (text_of_tokens g) = g ->
  wrap_segment (text_of_tokens g) max_len = text_of_tokens g.
Proof.
  intros Hok Hline Htok. rewrite wrap_segment_groups.
  unfold AutoWrap.line_groups. rewrite Htok.
  destruct (total_width g <=? max_len); [done|].
  destruct g as [|t g]; [done|]. cbn [pack_groups].
  change (nonempty (text_of_tokens [])) with false. rewrite andb_false_r.
  inversion Hok; subst.
  rewrite pack_groups_single; try done. by constructor.
Qed.

Lemma wrap_segment_lines_fixed seg max_len :
  newline_free seg -> 0 <= max_len ->
  Forall (fun l => wrap_segment l max_len = l)
    (split_lines (wrap_segment seg max_len)).
Proof.
  intros Hfree Hmax. rewrite wrap_segment_lines by done.
  destruct (line_groups_spec ua seg max_len) as (Hc & Hl & _).
  pose proof (tokenize_ok ua seg) as Hok. rewrite <- Hc in Hok.
  pose proof (tokenize_groups ua _ _ (eq_sym Hc)) as Ht.
  clear Hc. revert Hok Hl Ht.
  induction (line_groups seg max_len) as [|g gs IH]; intros Hok Hl Ht;
    [constructor|].
  simpl in Hok. apply Forall_app in Hok as [Hokg Hok].
  inversion Ht; inversion Hl; subst. constructor; [|by apply IH].
  by apply wrap_segment_line.
Qed.

Lemma wrap_ja_text_idem text max_len :
  0 <= max_len ->
  fst (wrap_ja_text (fst (wrap_ja_text text max_len)) max_len)
  = fst (wrap_ja_text text max_len).
Proof.
  intros Hmax. rewrite (wrap_ja_text_fst ua (fst _)).
  rewrite <- (join_split (fst (wrap_ja_text text max_len))) at 2.
  f_equal. rewrite wrap_ja_text_fst, split_join
    by (intros E; apply map_eq_nil in E; by apply split_lines_nonnil in E).
  pose proof (split_lines_parts_free text) as Hfree.
  induction Hfree as [|seg segs Hseg _ IH]; [done|].
  simpl. rewrite map_app, IH. f_equal.
  pose proof (wrap_segment_lines_fixed seg max_len Hseg Hmax) as Hfix.
  induction Hfix as [|l ls Hl _ IHl]; [done|]. simpl. by rewrite Hl, IHl.
Qed.

End Idempotence.


(** ** Appending to a scanned text *)

Section SearchAppend.

Variable alts : list regex.

Hypothesis match_ext :
  forall s g m r r',
    match_at alts s = Some (g, m, r) ->
    match_at alts (m ++ r') = Some (g, m, r').

Variable z : str.

Local Abbreviation no_new_match := (Re.no_new_match alts z).

Lemma no_new_match_tail c y : no_new_match (c :: y) -> no_new_match y.
Proof. intros H y1 y2 ->. by apply (H (c :: y1)). Qed.

Lemma no_new_match_suffix a y : no_new_match (a ++ y) -> no_new_match y.
Proof. induction a; [done|]. intros H. by eapply IHa, no_new_match_tail. Qed.

Lemma search_app_none y :
  no_new_match y -> search alts y = None ->
  search alts (y ++ z)
  = match search alts z with
    | Some (x, g, m, r) => Some (y ++ x, g, m, r)
    | None => None
    end.
Proof.
  induction y as [|c y IH]; intros Hz H.
  - simpl app. by destruct (search alts z) as [[[[? ?] ?] ?]|].
  - pose proof (search_none_at _ _ H) as Hm. apply search_none_tail in H.
    simpl app. rewrite search_cons_none by (by apply (Hz [] (c :: y))).
    rewrite IH by (done || by eapply no_new_match_tail).
    by destruct (search alts z) as [[[[? ?] ?] ?]|].
Qed.

Lemma search_app_some y x g m r :
  no_new_match y -> search alts y = Some (x, g, m, r) ->
  search alts (y ++ z) = Some (x, g, m, r ++ z).
Proof.
  revert x. induction y as [|c y IH]; intros x Hz H.
  - simpl in H. destruct (match_at alts []) as [[[g0 m0] r0]|] eqn:E; [|done].
    injection H as <- <- <- <-. apply search_head.
    by apply (match_at_app _ match_ext).
  - apply search_cons_inv in H as [[-> Hm]|(x' & -> & Hm & Hs)].
    + apply search_head. by apply (match_at_app _ match_ext).
    + simpl app. rewrite search_cons_none by (by apply (Hz [] (c :: y))).
      by rewrite (IH x') by (done || by eapply no_new_match_tail).
Qed.

End SearchAppend.

(** ** Unterminated markup *)

Section Unterminated.

Variable ua : char -> bool.

Local Abbreviation is_word := (AutoWrap.is_word ua).
Local Abbreviation combined := (AutoWrap.combined ua).
Local Abbreviation lex_at := (AutoWrap.lex_at ua).
Local Abbreviation img_body := (AutoWrap.img_body ua).
Local Abbreviation tokenize := (AutoWrap.tokenize ua).

(** A run that ends with [e] stays before a [c] it cannot pass or has
    no [e] to reach after. *)
Lemma until_within p e a c post w r :
  until p e (a ++ c :: post) = Some (w, r) ->
  e <> c -> (p c = false \/ ~ In e post) ->
  exists r', a = w ++ e :: r' /\ r = r' ++ c :: post.
Proof.
  intros H Hec Hc. revert w H. induction a as [|x a IH]; intros w H.
  - exfalso. simpl in H. destruct (p c) eqn:Hpc.
    + destruct Hc as [?|Hc]; [done|].
      destruct (until p e post) as [[w0 r0]|] eqn:E; [|done].
      apply until_sound in E as [-> _]. apply Hc, in_app_iff. right. by left.
    + by destruct (N.eqb_spec c e) as [->|_].
  - simpl in H. destruct (p x).
    + destruct (until p e (a ++ c :: post)) as [[w0 r0]|] eqn:E; [|done].
      injection H as <- <-. destruct (IH _ eq_refl) as (r' & -> & ->).
      by exists r'.
    + destruct (N.eqb_spec x e) as [->|_]; [|done].
      injection H as <- <-. by exists a.
Qed.

Lemma run1_within p e a c post w r :
  run1 p e (a ++ c :: post) = Some (w, r) ->
  e <> c -> (p c = false \/ ~ In e post) ->
  exists r', a = w ++ e :: r' /\ r = r' ++ c :: post.
Proof.
  intros H Hec Hc. destruct a as [|x a].
  - exfalso. simpl in H. destruct (p c) eqn:Hpc; [|done].
    destruct Hc as [?|Hc]; [done|].
    destruct (until p e post) as [[w0 r0]|] eqn:E; [|done].
    apply until_sound in E as [-> _]. apply Hc, in_app_iff. right. by left.
  - simpl in H. destruct (p x); [|done].
    destruct (until p e (a ++ c :: post)) as [[w0 r0]|] eqn:E; [|done].
    injection H as <- <-.
    destruct (until_within _ _ _ _ _ _ _ E Hec Hc) as (r' & -> & ->).
    by exists r'.
Qed.

Lemma unterminated_suffix a y c post :
  unterminated (a ++ y) c post -> unterminated y c post.
Proof.
  unfold unterminated. rewrite !in_app_iff. tauto.
Qed.

Lemma img_body_within a c post m r :
  (c = LBRACKET \/ c = LBRACE) ->
  img_body (a ++ c :: post) = Some (m, r) ->
  exists r', a = m ++ r' /\ r = r' ++ c :: post.
Proof.
  intros Hc. unfold AutoWrap.img_body.
  destruct a as [|y1 [|y2 [|y3 [|y4 a]]]]; cbn [app].
  1-4: destruct post as [|p1 [|p2 [|p3 post]]]; cbn [app]; try done;
    destruct Hc as [-> | ->];
    repeat match goal with
           | |- context [(?v =? ?k)%N] => is_var v; destruct (v =? k)%N
           end; done.
  destruct ((y1 =? CH_i)%N && (y2 =? CH_m)%N && (y3 =? CH_g)%N
            && (y4 =? COLON)%N); [|done].
  destruct (run1 is_word RBRACKET (a ++ c :: post)) as [[w r0]|] eqn:E;
    [|done].
  intros [= <- <-].
  destruct (run1_within _ _ _ _ _ _ _ E) as (r' & -> & ->).
  - by destruct Hc as [-> | ->].
  - left. by destruct Hc as [-> | ->].
  - exists r'. split; [|done]. cbn [app]. by rewrite <- app_assoc.
Qed.

Lemma lex_at_opener c post :
  unterminated [] c post -> lex_at (c :: post) = None.
Proof.
  unfold AutoWrap.lex_at.
  intros [(-> & Hp & _)|(-> & Hp & _)]; cbn [N.eqb Pos.eqb].
  - destruct (img_body post) as [[m r]|] eqn:E.
    + exfalso. apply img_body_sound in E as (w & -> & -> & _).
      apply Hp. cbn [app]. do 4 right. rewrite <- app_assoc.
      apply in_app_iff. right. by left.
    + destruct (run1 not_bracket RBRACKET post) as [[b r]|] eqn:E'; [|done].
      exfalso. apply run1_sound in E' as (-> & _). apply Hp, in_app_iff.
      right. by left.
  - destruct (run1 not_brace RBRACE post) as [[b r]|] eqn:E'; [|done].
    exfalso. apply run1_sound in E' as (-> & _). apply Hp, in_app_iff.
    right. by left.
Qed.

(** A match that begins before the opener ends before it. *)
Lemma lex_at_within a c post g m r :
  unterminated a c post ->
  lex_at (a ++ c :: post) = Some (g, m, r) ->
  exists r', a = m ++ r' /\ r = r' ++ c :: post.
Proof.
  intros Hu. assert (c = LBRACKET \/ c = LBRACE) as Hc
    by (destruct Hu as [[? _]|[? _]]; auto).
  destruct a as [|x a].
  - cbn [app]. rewrite lex_at_opener; [done|].
    unfold unterminated in *. simpl. tauto.
  - unfold AutoWrap.lex_at. cbn [app].
    destruct (N.eqb_spec x LBRACKET) as [->|Hx1].
    + destruct (img_body (a ++ c :: post)) as [[m0 r0]|] eqn:Ei.
      * intros [= <- <- <-].
        destruct (img_body_within _ _ _ _ _ Hc Ei) as (r' & -> & ->).
        by exists r'.
      * destruct (run1 not_bracket RBRACKET (a ++ c :: post))
          as [[b r0]|] eqn:Er; [|done].
        intros [= <- <- <-].
        destruct (run1_within _ _ _ _ _ _ _ Er) as (r' & -> & ->).
        -- by destruct Hc as [-> | ->].
        -- destruct Hu as [(-> & _)|(-> & _ & [Hp|Hp])]; [by left|by right|].
           exfalso. apply Hp. by left.
        -- exists r'. split; [|done]. cbn [app]. by rewrite <- app_assoc.
    + destruct (N.eqb_spec x LBRACE) as [->|Hx2].
      * destruct (run1 not_brace RBRACE (a ++ c :: post))
          as [[b r0]|] eqn:Er; [|done].
        intros [= <- <- <-].
        destruct (run1_within _ _ _ _ _ _ _ Er) as (r' & -> & ->).
        -- by destruct Hc as [-> | ->].
        -- destruct Hu as [(-> & _ & [Hp|Hp])|(-> & _)]; [by right| |by left].
           exfalso. apply Hp. by left.
        -- exists r'. split; [|done]. cbn [app]. by rewrite <- app_assoc.
      * destruct (N.eqb_spec x AMP) as [->|Hx3]; [|done].
        destruct (run1 is_word SEMI (a ++ c :: post))
          as [[b r0]|] eqn:Er; [|done].
        intros [= <- <- <-].
        destruct (run1_within _ _ _ _ _ _ _ Er) as (r' & -> & ->).
        -- by destruct Hc as [-> | ->].
        -- left. by destruct Hc as [-> | ->].
        -- exists r'. split; [|done]. cbn [app]. by rewrite <- app_assoc.
Qed.

Lemma unterminated_no_new_match pre c post :
  unterminated pre c post -> no_new_match combined (c :: post) pre.
Proof.
  intros Hu y1 y2 -> Hne Hnone.
  destruct (match_at combined (y2 ++ c :: post)) as [[[g m] r]|] eqn:E;
    [|done].
  exfalso. pose proof E as E'. rewrite match_at_combined in E'.
  apply lex_at_within in E' as (r' & -> & ->);
    [|by eapply unterminated_suffix].
  rewrite <- app_assoc in E.
  apply (combined_ext ua _ _ _ _ r') in E. congruence.
Qed.

Lemma tokenize_plain_app_other x c y :
  ascii_alnum c = false ->
  _tokenize_plain (x ++ c :: y)
  = _tokenize_plain x ++ ([c], 1) :: _tokenize_plain y.
Proof.
  intros Hc. induction x as [x IH] using (well_founded_induction
    (well_founded_ltof _ (@length N))).
  destruct (plain_cases x)
    as [->|[(c0 & x' & -> & Hc0)|(w & r & -> & Hne & Hw & Hr)]].
  - cbn [app]. by rewrite tokenize_plain_other, tokenize_plain_nil.
  - cbn [app]. rewrite !tokenize_plain_other by done.
    rewrite IH by (unfold ltof; simpl; lia). done.
  - rewrite <- app_assoc, (tokenize_plain_word w (r ++ c :: y)),
      (tokenize_plain_word w r); try done.
    + rewrite IH; [done|]. unfold ltof. rewrite length_app.
      destruct w; [done|simpl; lia].
    + destruct r; simpl; done.
Qed.

(** The opener is a token of its own; the text on either side of it is
    tokenized as if it stood alone. *)
Lemma tokenize_unterminated pre c post :
  unterminated pre c post ->
  tokenize (pre ++ c :: post) = tokenize pre ++ ([c], 1) :: tokenize post.
Proof.
  assert (forall c, c = LBRACKET \/ c = LBRACE -> ascii_alnum c = false)
    as Halnum by (by intros ? [-> | ->]).
  induction pre as [pre H|pre x g m r H IH]
    using (search_ind _ (combined_nonempty ua)); intros Hu.
  - assert (ascii_alnum c = false) as Hc
      by (apply Halnum; destruct Hu as [[? _]|[? _]]; auto).
    pose proof (search_app_none _ _ _ (unterminated_no_new_match _ _ _ Hu) H)
      as Hs.
    assert (match_at combined (c :: post) = None) as Hm.
    { rewrite match_at_combined. apply lex_at_opener.
      unfold unterminated in *. simpl. tauto. }
    rewrite search_cons_none in Hs by done.
    rewrite (tokenize_none _ pre) by done.
    destruct (search combined post) as [[[[x g] m] r]|] eqn:E.
    + rewrite (tokenize_some _ _ _ _ _ _ Hs), (tokenize_some _ _ _ _ _ _ E).
      rewrite tokenize_plain_app_other by done. by rewrite <- app_assoc.
    + rewrite (tokenize_none _ _ Hs), (tokenize_none _ _ E).
      by apply tokenize_plain_app_other.
  - pose proof (search_app_some _ (combined_ext ua) _ _ _ _ _ _
                  (unterminated_no_new_match _ _ _ Hu) H) as Hs.
    rewrite (tokenize_some _ _ _ _ _ _ Hs), (tokenize_some _ _ _ _ _ _ H).
    rewrite IH; [by rewrite <- !app_assoc|].
    destruct (search_sound _ _ _ _ _ _ H) as [-> _].
    rewrite app_assoc in Hu. by eapply unterminated_suffix.
Qed.

End Unterminated.

(** ** A character that lies in no match *)

Section Uncovered.

Variable ua : char -> bool.

Local Abbreviation combined := (AutoWrap.combined ua).
Local Abbreviation lex_at := (AutoWrap.lex_at ua).
Local Abbreviation img_body := (AutoWrap.img_body ua).
Local Abbreviation tokenize := (AutoWrap.tokenize ua).
Local Abbreviation uncovered := (AutoWrap.uncovered ua).

(** Position [k] lies outside the match [m]. *)
Local Abbreviation outside k :=
  (fun m : Match => (m_end m <=? k)%nat || (k <? m_start m)%nat).

Lemma lex_at_long s g m r : lex_at s = Some (g, m, r) -> (2 <= length m)%nat.
Proof.
  unfold AutoWrap.lex_at. destruct s as [|x s']; [done|].
  destruct (x =? LBRACKET)%N.
  - destruct (img_body s') as [[m' r']|] eqn:E.
    + intros [= <- <- <-]. apply img_body_sound in E as (w & -> & _).
      cbn [length]. lia.
    + destruct (run1 not_bracket RBRACKET s') as [[b r']|]; [|done].
      intros [= <- <- <-]. cbn [length]. rewrite length_app. cbn. lia.
  - destruct (x =? LBRACE)%N.
    + destruct (run1 not_brace RBRACE s') as [[b r']|]; [|done].
      intros [= <- <- <-]. cbn [length]. rewrite length_app. cbn. lia.
    + destruct (x =? AMP)%N; [|done].
      destruct (run1 (AutoWrap.is_word ua) SEMI s') as [[b r']|]; [|done].
      intros [= <- <- <-]. cbn [length]. rewrite length_app. cbn. lia.
Qed.

Lemma finditer_some s x g m r :
  search combined s = Some (x, g, m, r) ->
  finditer combined s
  = mkMatch (length x) (length x + length m) g
      :: map (shift (length x + length m)) (finditer combined r).
Proof.
  intros H. unfold finditer. rewrite (finditer_search_some _ (combined_nonempty ua) _ _ _ _ _ _ H).
  cbn [Nat.add]. f_equal.
  rewrite <- (Nat.add_0_r (length x + length m)) at 1 2.
  by rewrite finditer_from_shift.
Qed.

Lemma outside_shift k j (ms : list Match) :
  forallb (outside (k + j)) (map (shift k) ms) = forallb (outside j) ms.
Proof.
  induction ms as [|m ms IH]; [done|]. cbn [map forallb]. rewrite IH.
  f_equal. unfold shift. cbn [m_start m_end].
  destruct (Nat.leb_spec (k + m_end m) (k + j)), (Nat.leb_spec (m_end m) j);
    try lia; cbn [orb]; try done.
  destruct (Nat.ltb_spec (k + j) (k + m_start m)),
           (Nat.ltb_spec j (m_start m)); (lia || done).
Qed.

(** A character that is no ASCII letter or digit and lies in no match is
    a token of its own, and the tokens before it make up the text before
    it. *)
Lemma uncovered_boundary s : forall pre c post,
  s = pre ++ c :: post -> ascii_alnum c = false ->
  forallb (outside (length pre)) (finditer combined s) = true ->
  exists T1 T2, tokenize s = T1 ++ ([c], 1) :: T2 /\ text_of_tokens T1 = pre.
Proof.
  induction s as [s H|s x g m r H IH]
    using (search_ind _ (combined_nonempty ua)); intros pre c post Hs Hc Hout.
  - rewrite tokenize_none by done. subst s.
    rewrite tokenize_plain_app_other by done.
    eexists _, _. split; [done|]. apply tokenize_plain_text.
  - rewrite (tokenize_some _ _ _ _ _ _ H).
    rewrite (finditer_some _ _ _ _ _ H) in Hout. cbn [forallb] in Hout.
    apply andb_true_iff in Hout as [H0 Hout]. cbn [m_start m_end] in H0.
    destruct (search_sound _ _ _ _ _ _ H) as [Hsplit _].
    destruct (combined_match_token ua _ _ _ _ _ H) as (w & Hw & _).
    apply orb_true_iff in H0 as [H0|H0].
    + apply Nat.leb_le in H0.
      assert ((x ++ m) ++ r = pre ++ c :: post) as E
        by (by rewrite <- app_assoc, <- Hsplit).
      apply app_eq_inv in E as [(k & E1 & E2)|(k & E1 & E2)].
      * assert (k = []) as ->.
        { apply (f_equal length) in E1. rewrite !length_app in E1.
          destruct k; [done|]. cbn in E1. lia. }
        rewrite app_nil_r in E1. cbn [app] in E2.
        destruct (IH [] c post (eq_sym E2) Hc) as (T1 & T2 & Ht & Hp).
        { rewrite <- (outside_shift (length x + length m) (length [])).
          rewrite <- E1, length_app in Hout. cbn [length].
          by rewrite Nat.add_0_r. }
        exists (_tokenize_plain x ++ match_token g m ++ T1), T2.
        rewrite Ht, <- !app_assoc. split; [done|].
        rewrite !text_of_tokens_app, tokenize_plain_text, Hw, Hp, <- E1.
        unfold text_of_tokens. cbn. by rewrite !app_nil_r.
      * destruct (IH k c post E2 Hc) as (T1 & T2 & Ht & Hp).
        { rewrite <- (outside_shift (length x + length m) (length k)).
          by rewrite E1, !length_app in Hout. }
        exists (_tokenize_plain x ++ match_token g m ++ T1), T2.
        rewrite Ht, <- !app_assoc. split; [done|].
        rewrite !text_of_tokens_app, tokenize_plain_text, Hw, Hp, E1.
        unfold text_of_tokens. cbn. by rewrite app_nil_r, <- app_assoc.
    + apply Nat.ltb_lt in H0. rewrite Hsplit in Hs.
      apply app_eq_inv in Hs as [(k & E1 & E2)|(k & E1 & E2)].
      * destruct k as [|c' k].
        { rewrite app_nil_r in E1. subst. lia. }
        cbn [app] in E2. injection E2 as <- E2. subst x.
        rewrite tokenize_plain_app_other by done.
        exists (_tokenize_plain pre),
          (_tokenize_plain k ++ match_token g m ++ tokenize r).
        rewrite <- app_assoc. split; [done|]. apply tokenize_plain_text.
      * apply (f_equal length) in E1. rewrite length_app in E1. lia.
Qed.

Lemma text_of_tokens_cons_length (t : token) (T : list token) :
  length (text_of_tokens (t :: T))
  = (length (fst t) + length (text_of_tokens T))%nat.
Proof. by rewrite text_of_tokens_cons, length_app. Qed.

(** In a list of tokens with non-empty texts, a position of the text lies
    in one token only. *)
Lemma token_at_unique (A : list token) : forall (t : token) B P t' Q,
  A ++ t :: B = P ++ t' :: Q ->
  Forall token_ok (A ++ t :: B) ->
  (length (text_of_tokens A) <= length (text_of_tokens P))%nat ->
  (length (text_of_tokens P) < length (text_of_tokens A) + length (fst t))%nat ->
  t = t'.
Proof.
  induction A as [|a A IH]; intros t B P t' Q E Hok H1 H2.
  - destruct P as [|p P]; [by injection E|].
    cbn [app] in E. injection E as <- E.
    rewrite text_of_tokens_cons_length in H2. cbn in H2. lia.
  - destruct P as [|p P].
    + cbn [app] in E. injection E as <- E.
      rewrite text_of_tokens_cons_length in H1. cbn in H1.
      inversion Hok as [|? ? [Ha _] _]; subst.
      destruct (fst a); [done|]. cbn in H1. lia.
    + cbn [app] in E. injection E as <- E.
      rewrite !text_of_tokens_cons_length in H1, H2.
      inversion Hok as [|? ? _ Hok']; subst.
      apply (IH t B P t' Q E Hok'); lia.
Qed.

(** Every match of the scan is a token. *)
Lemma match_is_token s : forall m,
  In m (finditer combined s) ->
  exists A t B,
    tokenize s = A ++ t :: B
    /\ length (text_of_tokens A) = m_start m
    /\ (m_start m + length (fst t))%nat = m_end m
    /\ (2 <= length (fst t))%nat.
Proof.
  induction s as [s H|s x g m0 r H IH]
    using (search_ind _ (combined_nonempty ua)); intros m Hin.
  - unfold finditer in Hin. by rewrite (finditer_search_none _ _ _ H) in Hin.
  - rewrite (finditer_some _ _ _ _ _ H) in Hin.
    rewrite (tokenize_some _ _ _ _ _ _ H).
    destruct (combined_match_token ua _ _ _ _ _ H) as (w & Hw & _).
    destruct (search_sound _ _ _ _ _ _ H) as [_ Hm].
    rewrite match_at_combined in Hm. apply lex_at_long in Hm.
    destruct Hin as [<-|Hin].
    + exists (_tokenize_plain x), (m0, w), (tokenize r).
      rewrite Hw. cbn [m_start m_end fst app]. split; [done|].
      by rewrite tokenize_plain_text.
    + apply in_map_iff in Hin as (m' & <- & Hin).
      destruct (IH m' Hin) as (A & t & B & Ht & Ha & Hl & H2).
      exists (_tokenize_plain x ++ match_token g m0 ++ A), t, B.
      rewrite Ht, <- !app_assoc. split; [done|].
      rewrite !text_of_tokens_app, !length_app, tokenize_plain_text, Hw.
      unfold shift. cbn [m_start m_end].
      change (text_of_tokens [(m0, w)]) with (m0 ++ []).
      rewrite app_nil_r. split; [lia|]. split; [lia|done].
Qed.

(** A character that is no ASCII letter or digit is a token of its own,
    with the text before it and the text after it tokenized as if each
    stood alone, exactly when it lies in no match. *)
Lemma uncovered_iff pre c post :
  ascii_alnum c = false ->
  uncovered pre c post = true
  <-> tokenize (pre ++ c :: post)
      = tokenize pre ++ ([c], 1) :: tokenize post.
Proof.
  intros Hc. unfold AutoWrap.uncovered. split.
  - intros Hout.
    destruct (uncovered_boundary _ pre c post eq_refl Hc Hout)
      as (T1 & T2 & Ht & Hp).
    destruct (tokenize_split ua _ _ _ Ht) as [H1 H2]. rewrite Hp in H1.
    pose proof (tokenize_text ua (pre ++ c :: post)) as Htext.
    rewrite Ht, text_of_tokens_app, Hp in Htext.
    apply app_inv_head in Htext.
    rewrite text_of_tokens_cons in Htext. cbn [fst app] in Htext.
    injection Htext as Htext.
    destruct (tokenize_split ua _ [([c], 1)] T2 H2) as [_ H3].
    rewrite Htext in H3. by rewrite Ht, H1, H3.
  - intros Ht. apply forallb_forall. intros m Hin.
    destruct (match_is_token _ m Hin) as (A & t & B & HA & Ha & Hl & H2).
    destruct (Nat.leb_spec (m_end m) (length pre)) as [|Hend]; [done|].
    destruct (Nat.ltb_spec (length pre) (m_start m)) as [|Hstart]; [done|].
    exfalso. rewrite Ht in HA.
    assert (([c], 1) = t) as <-; [|cbn in H2; lia].
    symmetry. apply (token_at_unique A t B (tokenize pre) ([c], 1)
                       (tokenize post)); [done| | |].
    + rewrite <- HA, <- Ht. apply tokenize_ok.
    + rewrite tokenize_text. lia.
    + rewrite tokenize_text. lia.
Qed.

(** An opener that [unterminated] describes lies in no match. *)
Lemma unterminated_uncovered pre c post :
  unterminated pre c post -> uncovered pre c post = true.
Proof.
  intros Hu. apply uncovered_iff.
  - by destruct Hu as [(-> & _)|(-> & _)].
  - by apply tokenize_unterminated.
Qed.

End Uncovered.

(** ** The merge loop *)

Section MergeFacts.

Variable target_col : str.

Lemma nonempty_true (s : str) : nonempty s = true <-> s <> [].
Proof. by destruct s. Qed.

Lemma in_index_true (idx : gmap str str) k :
  in_index idx k = true <-> is_Some (idx !! k).
Proof. unfold in_index. apply bool_decide_eq_true. Qed.

(** Every entry of the index comes from a translated row with that key
    and a value that is not blank; it holds the value of the last such
    row. *)
Lemma build_index_sound trows : forall idx0 k v,
  fold_left (index_step target_col) trows idx0 !! k = Some v ->
  idx0 !! k = Some v
  \/ (k <> [] /\ normalize_text (Some v) <> []
      /\ exists tr, In tr trows /\ normalize_text (get tr KEY) = k
                    /\ get tr target_col = Some v).
Proof.
  induction trows as [|tr trows IH]; intros idx0 k v H; [by left|].
  simpl in H. apply IH in H as [H|(Hk & Hv & tr' & Hin & E1 & E2)].
  - unfold index_step in H.
    destruct (nonempty (normalize_text (get tr KEY))
              && nonempty (normalize_text (Some (value_or_empty
                                                   (get tr target_col)))))
      eqn:Hb; [|by left].
    apply andb_true_iff in Hb as [Hb1 Hb2].
    destruct (decide (normalize_text (get tr KEY) = k)) as [Ek|Hne].
    + rewrite Ek, lookup_insert_eq in H. injection H as <-. right.
      rewrite Ek in Hb1. apply nonempty_true in Hb1, Hb2.
      split; [done|]. split; [done|]. exists tr. split; [by left|].
      split; [done|].
      destruct (get tr target_col) as [[|c w]|]; try done.
    + rewrite lookup_insert_ne in H by done. by left.
  - right. split; [done|]. split; [done|]. exists tr'. split; [by right|done].
Qed.

Lemma build_index_complete trows : forall idx0 k,
  (is_Some (idx0 !! k)
   \/ (k <> [] /\ exists tr, In tr trows /\ normalize_text (get tr KEY) = k
         /\ normalize_text (Some (value_or_empty (get tr target_col))) <> [])) ->
  is_Some (fold_left (index_step target_col) trows idx0 !! k).
Proof.
  induction trows as [|tr trows IH]; intros idx0 k H.
  - destruct H as [H|(_ & tr & [] & _)]; done.
  - simpl. apply IH. destruct H as [H|(Hk & tr' & [<-|Hin] & E1 & E2)].
    + left. unfold index_step. destruct (_ && _); [|done].
      destruct (decide (normalize_text (get tr KEY) = k)) as [<-|Hne].
      * rewrite lookup_insert_eq. eauto.
      * by rewrite lookup_insert_ne.
    + left. unfold index_step. rewrite E1.
      apply nonempty_true in Hk, E2. rewrite Hk, E2. cbn [andb].
      rewrite lookup_insert_eq. eauto.
    + right. eauto.
Qed.

(** *** Rows and the writer *)

Lemma row_insert_eq (r : row) (name : str) (v : option str) :
  <[name := v]> r !! name = Some v.
Proof. apply (lookup_insert_eq (cells r)). Qed.

Lemma row_insert_ne (r : row) (name name' : str) (v : option str) :
  name <> name' -> <[name := v]> r !! name' = r !! name'.
Proof. apply (lookup_insert_ne (cells r)). Qed.

Lemma row_insert_rest (r : row) (name : str) (v : option str) :
  rest (<[name := v]> r) = rest r.
Proof. done. Qed.

Lemma writable_spec (f : list str) (r : row) :
  writable f r = true
  <-> rest r = None /\ forall name, is_Some (r !! name) -> name ∈ f.
Proof.
  unfold writable. destruct (rest r) as [l|]; [split; [done|by intros [? _]]|].
  rewrite bool_decide_eq_true. split.
  - intros H. split; [done|]. intros name [v Hv]. by apply (H name v).
  - intros [_ H] name v Hv. apply H. by exists v.
Qed.

Lemma writable_insert (f : list str) (r : row) (name : str) (v : option str) :
  name ∈ f -> writable f (<[name := v]> r) = writable f r.
Proof.
  intros Hn. apply eq_true_iff_eq. rewrite !writable_spec, row_insert_rest.
  split; intros [Hr H]; (split; [done|]); intros k Hk.
  - destruct (decide (name = k)) as [<-|Hne]; [done|].
    apply H. by rewrite row_insert_ne.
  - destruct (decide (name = k)) as [<-|Hne]; [done|].
    apply H. by rewrite row_insert_ne in Hk.
Qed.

Lemma forallb_map_eq {A : Type} (p : A -> bool) (l1 l2 : list A) :
  map p l1 = map p l2 -> forallb p l1 = forallb p l2.
Proof.
  revert l2. induction l1 as [|a l1 IH]; intros [|b l2]; try done.
  cbn [map forallb]. intros [= -> H]. by rewrite (IH l2).
Qed.

Lemma accepted_length (f : list str) (rs : list row) :
  (length (accepted f rs) <= length rs)%nat.
Proof.
  induction rs as [|r rs IH]; [done|]. simpl.
  destruct (writable f r); simpl; lia.
Qed.

Lemma accepted_lookup (f : list str) (rs : list row) i r :
  accepted f rs !! i = Some r -> rs !! i = Some r /\ writable f r = true.
Proof.
  revert i. induction rs as [|r0 rs IH]; intros i; [done|]. simpl.
  destruct (writable f r0) eqn:E; [|done].
  destruct i as [|i]; simpl; [by intros [= <-]|apply IH].
Qed.

Lemma accepted_prefix (f : list str) (rs : list row) :
  accepted f rs = take (length (accepted f rs)) rs.
Proof.
  induction rs as [|r rs IH]; [done|]. simpl.
  destruct (writable f r); simpl; [by rewrite <- IH|done].
Qed.

Lemma accepted_all (f : list str) (rs : list row) :
  forallb (writable f) rs = true -> accepted f rs = rs.
Proof.
  induction rs as [|r rs IH]; [done|]. simpl.
  intros H. apply andb_true_iff in H as [-> H]. by rewrite IH.
Qed.

(** Where the writer stops, it stops at a row it refuses. *)
Lemma accepted_stop (f : list str) (rs : list row) :
  forallb (writable f) rs = false ->
  exists r, rs !! length (accepted f rs) = Some r /\ writable f r = false.
Proof.
  induction rs as [|r rs IH]; [done|]. simpl.
  destruct (writable f r) eqn:E; simpl; [apply IH|]. intros _. by exists r.
Qed.

Lemma accepted_full (f : list str) (rs : list row) :
  length (accepted f rs) = length rs <-> forallb (writable f) rs = true.
Proof.
  split; [|by intros ->%accepted_all].
  intros Hl. destruct (forallb (writable f) rs) eqn:E; [done|].
  destruct (accepted_stop f rs E) as (r & Hr & _).
  apply lookup_lt_Some in Hr. lia.
Qed.

Lemma accepted_accepted (f : list str) (rs : list row) :
  forallb (writable f) (accepted f rs) = true.
Proof.
  induction rs as [|r rs IH]; [done|]. simpl.
  destruct (writable f r) eqn:E; [|done]. simpl. by rewrite E.
Qed.

(** The loop [write_rows] in closed form. *)
Lemma write_rows_spec (f : list str) (update : row -> row) (rs : list row) :
  write_rows f update rs
  = (if forallb (writable f) (map update rs) then Returned tt else ValueError,
     accepted f (map update rs)).
Proof.
  induction rs as [|r rs IH]; [done|]. simpl.
  destruct (writable f (update r)); [|done]. by rewrite IH.
Qed.

(** *** The loop of [merge_file] *)

Lemma merge_row_spec idx (st : merge_state) (r : row) :
  merge_row target_col idx st r
  = (merged_row target_col idx r,
     (merged st + (if counts_merged target_col idx r then 1 else 0))%nat,
     (skipped st + (if counts_skipped target_col idx r then 1 else 0))%nat).
Proof.
  unfold merge_row, merged_row, counts_merged, counts_skipped.
  destruct (in_index idx (normalize_text (get r KEY)));
    destruct (nonempty (normalize_text (get r target_col)));
    cbn [andb negb]; repeat f_equal; lia.
Qed.

Lemma merged_row_writable (f : list str) idx (r : row) :
  target_col ∈ f ->
  writable f (merged_row target_col idx r) = writable f r.
Proof.
  intros Hf. unfold merged_row. destruct (_ && _); [|done].
  by apply writable_insert.
Qed.

(** The loop in closed form: the rows written are the rows the writer
    accepts, each as its iteration leaves it; the loop ends when it
    accepts them all, and then the counters have counted every row. *)
Lemma merge_loop_spec (f : list str) idx (brows : list row) : forall st,
  merge_loop target_col f idx brows st
  = (if forallb (writable f) (map (merged_row target_col idx) brows)
     then Returned
            ((merged st
              + length (List.filter (counts_merged target_col idx) brows))%nat,
             (skipped st
              + length (List.filter (counts_skipped target_col idx) brows))%nat)
     else ValueError,
     written st ++ accepted f (map (merged_row target_col idx) brows)).
Proof.
  induction brows as [|r brows IH]; intros [m s w].
  - cbn. by rewrite !Nat.add_0_r, app_nil_r.
  - cbn [merge_loop]. rewrite merge_row_spec. cbn [map forallb accepted].
    destruct (writable f (merged_row target_col idx r));
      [|cbn; by rewrite app_nil_r].
    rewrite IH. cbn [merged skipped written andb List.filter].
    rewrite <- app_assoc. cbn [app].
    destruct (forallb _ _); [|done].
    destruct (counts_merged target_col idx r);
      destruct (counts_skipped target_col idx r); cbn [length];
      (apply (f_equal2 pair); [|done]); f_equal;
      apply (f_equal2 pair); lia.
Qed.

End MergeFacts.

(** ** Further facts the claims use *)

Section ClaimHelpers.

Variable ua : char -> bool.

Local Abbreviation combined := (AutoWrap.combined ua).
Local Abbreviation tokenize := (AutoWrap.tokenize ua).
Local Abbreviation wrap_segment := (AutoWrap.wrap_segment ua).
Local Abbreviation wrap_ja_text := (AutoWrap.wrap_ja_text ua).

Lemma wrap_ja_text_outs text max_len :
  Forall2 (fun seg out => strip_newlines out = seg) (split_lines text)
    (map (fun part => wrap_segment part max_len) (split_lines text)).
Proof.
  apply Forall2_fmap_r, Forall_Forall2_diag.
  eapply Forall_impl; [apply split_lines_parts_free|]. intros seg Hseg.
  by apply wrap_segment_strip.
Qed.

Lemma wrap_ja_text_strip text max_len :
  strip_newlines (fst (wrap_ja_text text max_len)) = strip_newlines text.
Proof.
  rewrite wrap_ja_text_fst, strip_newlines_join.
  rewrite <- (join_split text) at 2. rewrite strip_newlines_join.
  f_equal. pose proof (split_lines_parts_free text) as Hfree.
  induction Hfree as [|seg segs Hseg _ IH]; [done|].
  simpl. rewrite IH. f_equal.
  by rewrite wrap_segment_strip, strip_newlines_free.
Qed.

Lemma tokenize_nil : tokenize [] = [].
Proof. rewrite tokenize_none; [done|]. cbn [search]. by rewrite combined_nil. Qed.

(** Text without [[], [{] and [&] has no match. *)
Lemma search_no_marker s :
  Forall (fun ch => ch <> LBRACKET /\ ch <> LBRACE /\ ch <> AMP) s ->
  search combined s = None.
Proof.
  induction 1 as [|x s (H1 & H2 & H3) _ IH].
  - cbn [search]. by rewrite combined_nil.
  - rewrite search_cons_none, IH; [done|].
    rewrite match_at_combined. unfold AutoWrap.lex_at.
    apply N.eqb_neq in H1, H2, H3. by rewrite H1, H2, H3.
Qed.

(** A template variable alone: one token, as wide as its text. *)
Lemma tokenize_template_var inner :
  inner <> [] -> forallb not_brace inner = true ->
  tokenize (LBRACE :: inner ++ [RBRACE])
  = [(LBRACE :: inner ++ [RBRACE], Z.of_nat (length inner) + 2)].
Proof.
  intros Hne Hin.
  assert (search combined (LBRACE :: inner ++ [RBRACE])
          = Some ([], 3%nat, LBRACE :: inner ++ [RBRACE], [])) as Hs.
  { apply search_head. rewrite match_at_combined. unfold AutoWrap.lex_at.
    cbn [N.eqb Pos.eqb]. by rewrite run1_complete. }
  rewrite (tokenize_some _ _ _ _ _ _ Hs), tokenize_nil, tokenize_plain_nil.
  cbn [app match_token]. do 2 f_equal.
  cbn [length]. rewrite length_app. cbn [length]. lia.
Qed.

Lemma strip_newlines_concat (ls : list str) :
  strip_newlines (concat ls) = concat (map strip_newlines ls).
Proof.
  induction ls as [|l ls IH]; [done|].
  simpl. by rewrite strip_newlines_app, IH.
Qed.

(** Also on a text that has newlines of its own. *)
Lemma wrap_segment_strip_any text max_len :
  strip_newlines (wrap_segment text max_len) = strip_newlines text.
Proof.
  rewrite wrap_segment_groups, strip_newlines_join, <- strip_newlines_concat.
  rewrite <- text_of_tokens_concat.
  destruct (line_groups_spec ua text max_len) as [-> _].
  by rewrite tokenize_text.
Qed.

End ClaimHelpers.

Lemma not_in_forallb (e : char) (s : str) :
  forallb (fun c => negb (c =? e)%N) s = true -> ~ In e s.
Proof.
  induction s as [|c s IH]; simpl; [tauto|].
  intros H. apply andb_true_iff in H as [Hc Hs].
  apply negb_true_iff, N.eqb_neq in Hc. intros [E|Hin]; [congruence|].
  by apply IH.
Qed.


Lemma wrap_segment_lines_nonempty ua seg max_len :
  newline_free seg -> 0 <= max_len -> seg <> [] ->
  Forall (fun l : str => l <> []) (split_lines (wrap_segment ua seg max_len)).
Proof.
  intros Hfree Hmax Hseg. rewrite wrap_segment_lines by done.
  destruct (line_groups_spec ua seg max_len) as (Hc & _ & _ & _ & Hne).
  apply group_texts_nonempty; [|by apply Hne].
  rewrite Hc. apply tokenize_ok.
Qed.


(** * The claims *)

(** The examples of the specification, on the code points of the
    Japanese text. *)
Example spec_example_1 :
  wrap_ja_text kana_kanji
    [0x3053; 0x308c; 0x306f; 0x30c6; 0x30b9; 0x30c8; 0x3067; 0x3059]%N 15
  = ([0x3053; 0x308c; 0x306f; 0x30c6; 0x30b9; 0x30c8; 0x3067; 0x3059]%N, false).
Proof. vm_compute. reflexivity. Qed.

Example spec_example_2 :
  wrap_ja_text kana_kanji
    [0x3053; 0x308c; 0x306f; 0x975e; 0x5e38; 0x306b; 0x9577; 0x3044; 0x65e5;
     0x672c; 0x8a9e; 0x306e; 0x30c6; 0x30b9; 0x30c8; 0x6587; 0x7ae0; 0x3067;
     0x3059]%N 15
  = ([0x3053; 0x308c; 0x306f; 0x975e; 0x5e38; 0x306b; 0x9577; 0x3044; 0x65e5;
      0x672c; 0x8a9e; 0x306e; 0x30c6; 0x30b9; 0x30c8; 10; 0x6587; 0x7ae0;
      0x3067; 0x3059]%N, true).
Proof. vm_compute. reflexivity. Qed.

Example spec_example_3 :
  wrap_ja_text kana_kanji
    (u "[b]" ++ [0x5f37; 0x3044; 0x732b; 0x3060]%N ++ u "[/b]") 4
  = (u "[b]" ++ [0x5f37; 0x3044; 0x732b; 0x3060]%N ++ u "[/b]", false).
Proof. vm_compute. reflexivity. Qed.

Example spec_example_4 :
  wrap_ja_text kana_kanji (u "attack{dmg}" ++ [0x4e0a; 0x6607]%N) 8
  = (u "attack" ++ [NEWLINE] ++ u "{dmg}" ++ [0x4e0a; 0x6607]%N, true).
Proof. vm_compute. reflexivity. Qed.

Example spec_example_5 :
  wrap_ja_text kana_kanji
    ([0x9577; 0x3044; 0x6587; 0x7ae0]%N ++ [NEWLINE] ++ [0x77ed; 0x3044]%N) 3
  = ([0x9577; 0x3044; 0x6587; NEWLINE; 0x7ae0; NEWLINE; 0x77ed; 0x3044]%N,
     true).
Proof. vm_compute. reflexivity. Qed.

(** C1.  For a newline-free segment and a positive maximum width, the
    lines [wrap_segment] returns are the texts of consecutive groups [gs]
    of the segment's tokens, and: every line has total width at most the
    maximum, or opens with one token wider than the maximum and has only
    zero-width tokens besides; a line break stands before a token exactly
    when the token has positive width, the line before it is non-empty and
    adding the token would exceed the maximum ([breaks_ok]: every token
    that opens a later line is such a token; [line_ok]: every other token
    after the first of its line has width zero or still fitted). *)
Theorem wrap_segment_width_bound (ua : char -> bool) (segment : str)
    (max_len : Z) :
  newline_free segment -> 0 < max_len ->
  let gs := line_groups ua segment max_len in
  concat gs = tokenize ua segment
  /\ split_lines (wrap_segment ua segment max_len) = map text_of_tokens gs
  /\ Forall (fun g =>
       total_width g <= max_len
       \/ exists t g', g = t :: g' /\ max_len < snd t
                       /\ Forall (fun t' => snd t' = 0) g') gs
  /\ breaks_ok max_len gs = true
  /\ Forall (fun g => line_ok max_len g = true) gs.
Proof.
  intros Hfree Hmax gs.
  destruct (line_groups_spec ua segment max_len) as (Hc & Hl & Hb & _).
  fold gs in Hc, Hl, Hb.
  split; [done|]. split; [apply wrap_segment_lines; [done|lia]|].
  split; [|done].
  assert (Forall token_ok (concat gs)) as Hok
    by (rewrite Hc; apply tokenize_ok).
  clear Hc Hb. induction Hl as [|g gs' Hg _ IH]; [constructor|].
  simpl in Hok. apply Forall_app in Hok as [Hokg Hok'].
  constructor; [|by apply IH].
  apply line_ok_bound; [lia|done|done].
Qed.

(** At a segment with a tag, an over-long word and a short tail, width 5. *)
Lemma wrap_segment_width_bound_witness :
  newline_free (u "[b]abcdefghij xyz") /\ 0 < 5
  /\ let gs := line_groups kana_kanji (u "[b]abcdefghij xyz") 5 in
     concat gs = tokenize kana_kanji (u "[b]abcdefghij xyz")
     /\ split_lines (wrap_segment kana_kanji (u "[b]abcdefghij xyz") 5)
        = map text_of_tokens gs
     /\ Forall (fun g =>
          total_width g <= 5
          \/ exists t g', g = t :: g' /\ 5 < snd t
                          /\ Forall (fun t' => snd t' = 0) g') gs
     /\ breaks_ok 5 gs = true
     /\ Forall (fun g => line_ok 5 g = true) gs.
Proof.
  split; [by apply newline_free_forallb|]. split; [lia|].
  apply (wrap_segment_width_bound kana_kanji (u "[b]abcdefghij xyz") 5);
    [by apply newline_free_forallb | lia].
Defined.



(** C3.  For every input string, the texts of the tokens [tokenize]
    returns, concatenated in order, are the input string. *)
Theorem tokenize_lossless (ua : char -> bool) (text : str) :
  concat (map fst (tokenize ua text)) = text.
Proof. apply (tokenize_text ua). Qed.

(** C4.  Wrapping is idempotent: for a positive width [w], wrapping the
    text [wrap_ja_text] returned changes nothing and reports no change;
    and a segment whose total display width is at most [w] is returned
    as it is. *)
Theorem wrap_ja_text_idempotent (ua : char -> bool) (t : str) (w : Z) :
  0 < w ->
  wrap_ja_text ua (fst (wrap_ja_text ua t w)) w
  = (fst (wrap_ja_text ua t w), false)
  /\ (forall segment,
        total_width (tokenize ua segment) <= w ->
        wrap_segment ua segment w = segment).
Proof.
  intros Hw. split.
  - pose proof (wrap_ja_text_idem ua t w ltac:(lia)) as Hfst.
    pose proof (wrap_ja_text_snd ua (fst (wrap_ja_text ua t w)) w) as Hsnd.
    destruct (wrap_ja_text ua (fst (wrap_ja_text ua t w)) w) as [t'' b].
    simpl in *. subst t''. f_equal.
    destruct b; [|done]. by destruct (proj1 Hsnd eq_refl).
  - intros segment Hle. unfold wrap_segment.
    by destruct (Z.leb_spec (total_width (tokenize ua segment)) w); [|lia].
Qed.

(** At a text that wraps into three lines, width 15. *)
Lemma wrap_ja_text_idempotent_witness :
  0 < 15 /\
  wrap_ja_text kana_kanji
    (fst (wrap_ja_text kana_kanji (u "abc def ghi jkl mno pqr stu vwx yz") 15)) 15
  = (fst (wrap_ja_text kana_kanji (u "abc def ghi jkl mno pqr stu vwx yz") 15),
     false)
  /\ (forall segment,
        total_width (tokenize kana_kanji segment) <= 15 ->
        wrap_segment kana_kanji segment 15 = segment).
Proof.
  split; [lia|].
  apply (wrap_ja_text_idempotent kana_kanji
           (u "abc def ghi jkl mno pqr stu vwx yz") 15). lia.
Defined.

(** C5.  For every text and every maximum width, the output of
    [wrap_ja_text] is the segments' outputs joined by newlines, one per
    segment of the input and in the same order, each of them its segment
    with newlines inserted and nothing else changed; so the output
    without its newlines is the input without its newlines. *)
Theorem wrap_ja_text_preserves_breaks (ua : char -> bool) (text : str)
    (max_len : Z) :
  (exists outs : list str,
     Forall2 (fun seg out => strip_newlines out = seg) (split_lines text) outs
     /\ fst (wrap_ja_text ua text max_len) = join_lines outs)
  /\ strip_newlines (fst (wrap_ja_text ua text max_len)) = strip_newlines text.
Proof.
  split; [|apply wrap_ja_text_strip].
  eexists. split; [apply wrap_ja_text_outs|apply wrap_ja_text_fst].
Qed.

(** C6.  The display width of a template variable token.  The docstring
    of [tokenize] gives it as the number of characters inside the braces;
    the code appends [len(var)] where [var] is the whole match, so the
    width is the inner length plus two: for every non-empty brace-free
    [inner], the text [{inner}] is one token of width
    [length inner + 2]. *)
Theorem template_variable_width (ua : char -> bool) (inner : str) :
  inner <> [] -> forallb not_brace inner = true ->
  tokenize ua (LBRACE :: inner ++ [RBRACE])
  = [(LBRACE :: inner ++ [RBRACE], Z.of_nat (length inner) + 2)].
Proof. apply tokenize_template_var. Qed.

(** At the variable dmg in braces: width 5, not 3. *)
Lemma template_variable_width_witness :
  u "dmg" <> [] /\ forallb not_brace (u "dmg") = true
  /\ tokenize kana_kanji (u "{dmg}") = [(u "{dmg}", 5)].
Proof.
  split; [done|]. split; [reflexivity|].
  apply (template_variable_width kana_kanji (u "dmg")); [done|reflexivity].
Defined.

(** C7, as stated, fails: after an opening bracket with no closing
    bracket the tokens are not one per character: the ASCII run [abc] is
    one token of width 3.  And an opening bracket without a closing one
    may lie inside a template variable, which is then one token. *)
Lemma unterminated_not_per_character :
  tokenize kana_kanji (u "[abc") = [(u "[", 1); (u "abc", 3)]
  /\ tokenize kana_kanji (u "[abc") <> chars_as_tokens (u "[abc")
  /\ tokenize kana_kanji (u "{a[b}") = [(u "{a[b}", 5)].
Proof.
  split; [vm_compute; reflexivity|].
  split; [vm_compute; discriminate|vm_compute; reflexivity].
Qed.

(** C7, amended.  An opening bracket or brace that lies in no match of
    the scan (no tag, image tag, template variable or entity that
    [COMBINED.finditer] finds contains it) is a single-character token of
    width 1, and the text before and after it is tokenized as if it
    stood alone; and an opening bracket or brace is tokenized so only
    when it lies in no match.  An opener that no closing bracket or brace
    of its kind follows, and that no construct of the other kind can
    enclose, lies in no match.  Text without [[], [{] and [&] is
    tokenized as plain text; in plain text a character that is not an
    ASCII letter or digit is a single-character token of width 1, and a
    maximal run of ASCII letters and digits is one token whose width is
    its length. *)
Theorem unterminated_opener_is_plain (ua : char -> bool) (pre : str)
    (c : char) (post : str) :
  c = LBRACKET \/ c = LBRACE ->
  (uncovered ua pre c post = true
   <-> tokenize ua (pre ++ c :: post)
       = tokenize ua pre ++ ([c], 1) :: tokenize ua post)
  /\ (unterminated pre c post -> uncovered ua pre c post = true)
  /\ (forall s,
        Forall (fun ch => ch <> LBRACKET /\ ch <> LBRACE /\ ch <> AMP) s ->
        tokenize ua s = _tokenize_plain s)
  /\ (forall ch s,
        ascii_alnum ch = false ->
        _tokenize_plain (ch :: s) = ([ch], 1) :: _tokenize_plain s)
  /\ (forall w r,
        forallb ascii_alnum w = true -> w <> [] -> stops ascii_alnum r ->
        _tokenize_plain (w ++ r)
        = (w, Z.of_nat (length w)) :: _tokenize_plain r).
Proof.
  intros Hc. split.
  { apply uncovered_iff. by destruct Hc as [-> | ->]. }
  split; [apply unterminated_uncovered|].
  split; [|split].
  - intros s Hs. apply tokenize_none. by apply search_no_marker.
  - apply tokenize_plain_other.
  - apply tokenize_plain_word.
Qed.

(** At three texts in which a closing bracket or brace follows the
    opener without matching it: the first bracket of the text a[b] after
    an opening bracket, the first bracket of the text b text [/b] after
    an opening bracket, and the bracket between the template variables
    {a} and {c} with b before the second. *)
Lemma unterminated_opener_is_plain_witness :
  (LBRACKET = LBRACKET \/ LBRACKET = LBRACE)
  /\ uncovered kana_kanji [] LBRACKET (u "a[b]") = true
  /\ tokenize kana_kanji ([] ++ LBRACKET :: u "a[b]")
     = tokenize kana_kanji [] ++ ([LBRACKET], 1)
         :: tokenize kana_kanji (u "a[b]")
  /\ uncovered kana_kanji [] LBRACKET (u "b text [/b]") = true
  /\ tokenize kana_kanji ([] ++ LBRACKET :: u "b text [/b]")
     = tokenize kana_kanji [] ++ ([LBRACKET], 1)
         :: tokenize kana_kanji (u "b text [/b]")
  /\ uncovered kana_kanji (u "{a}") LBRACKET (u "b{c}") = true
  /\ tokenize kana_kanji (u "{a}" ++ LBRACKET :: u "b{c}")
     = tokenize kana_kanji (u "{a}") ++ ([LBRACKET], 1)
         :: tokenize kana_kanji (u "b{c}").
Proof.
  split; [by left|].
  split; [reflexivity|].
  split.
  { exact (proj1 (proj1 (unterminated_opener_is_plain kana_kanji []
                           LBRACKET (u "a[b]") (or_introl eq_refl)))
             eq_refl). }
  split; [reflexivity|].
  split.
  { exact (proj1 (proj1 (unterminated_opener_is_plain kana_kanji []
                           LBRACKET (u "b text [/b]") (or_introl eq_refl)))
             eq_refl). }
  split; [reflexivity|].
  exact (proj1 (proj1 (unterminated_opener_is_plain kana_kanji (u "{a}")
                         LBRACKET (u "b{c}") (or_introl eq_refl)))
           eq_refl).
Defined.

(** C8.  The core is total: [tokenize], [wrap_segment] and
    [wrap_ja_text] are total functions (no input makes them fail or
    loop), and their results are well formed: every token has a
    non-empty text and a width that is not negative, the tokens cover the
    input, wrapping changes newlines only, and the [changed] flag is true
    exactly when the returned text differs from the input. *)
Theorem core_total (ua : char -> bool) (text : str) (max_len : Z) :
  Forall token_ok (tokenize ua text)
  /\ text_of_tokens (tokenize ua text) = text
  /\ strip_newlines (wrap_segment ua text max_len) = strip_newlines text
  /\ strip_newlines (fst (wrap_ja_text ua text max_len)) = strip_newlines text
  /\ (snd (wrap_ja_text ua text max_len) = true
      <-> fst (wrap_ja_text ua text max_len) <> text).
Proof.
  split; [apply tokenize_ok|]. split; [apply tokenize_text|].
  split; [apply wrap_segment_strip_any|].
  split; [apply wrap_ja_text_strip|apply wrap_ja_text_snd].
Qed.

(** C9, as stated, fails for a base file with a record longer than the
    header.  [csv.DictReader] keeps the surplus cells of such a record
    under the key [None], and [DictWriter.writerow] raises [ValueError]
    for it: the row, whose target cell is not blank, is processed and not
    written, and no row after it is written. *)
Lemma merge_file_long_record_not_written :
  rows example_long_base !! 1%nat = Some long_record
  /\ normalize_text (get long_record JA) <> []
  /\ merge_file example_long_base example_translated JA
     = (ValueError, Some ([KEY; JA], [example_row "a" "A"])).
Proof.
  split; [reflexivity|]. split; [vm_compute; discriminate|].
  vm_compute. reflexivity.
Qed.

(** C9, amended.  Merging never clobbers a cell in a row it writes, and
    it writes the base rows in order up to the first one the writer
    refuses.  When [merge_file] opens its output, it writes the header of
    the base file and then the rows [out], one per base row and in order,
    for the base rows before the first one with a key that is not a field
    name (a record longer than the header has one).  A row whose target
    cell is not blank after stripping is written unchanged; a written row
    differs from its base row only when the target cell was blank and
    some translated row with the same stripped key has a value that is
    not blank, and then only in the target cell, which holds that value;
    no other column changes.  If the writer refuses no row, every base
    row is written and [merge_file] returns the counters: [skipped]
    counts the base rows with a non-blank target cell whose key has a
    value in the translated file, [merged] those with a blank one.
    Otherwise [merge_file] raises [ValueError] at the first row the
    writer refuses. *)
Theorem merge_file_never_clobbers (base translated : csv_table)
    (target_col : str) (res : outcome (nat * nat)) (header : list str)
    (out : list row) :
  merge_file base translated target_col = (res, Some (header, out)) ->
  let idx := build_index target_col (rows translated) in
  header = fieldnames base
  /\ (length out <= length (rows base))%nat
  /\ (forall i r, rows base !! i = Some r -> (i < length out)%nat ->
      writable header r = true
      /\ exists r', out !! i = Some r'
           /\ (forall col, col <> target_col -> r' !! col = r !! col)
           /\ (normalize_text (get r target_col) <> [] -> r' = r)
           /\ (r' <> r ->
               normalize_text (get r target_col) = []
               /\ exists v tr,
                    In tr (rows translated)
                    /\ normalize_text (get tr KEY)
                       = normalize_text (get r KEY)
                    /\ get tr target_col = Some v
                    /\ normalize_text (Some v) <> []
                    /\ r' = <[target_col := Some v]> r))
  /\ match res with
     | Returned (m, s) =>
         length out = length (rows base)
         /\ s = length (List.filter (counts_skipped target_col idx)
                          (rows base))
         /\ m = length (List.filter (counts_merged target_col idx)
                          (rows base))
     | ValueError =>
         exists r, rows base !! length out = Some r
                   /\ writable header r = false
     end
  /\ (forall k, in_index idx k = true <->
        k <> [] /\ exists tr,
          In tr (rows translated) /\ normalize_text (get tr KEY) = k
          /\ normalize_text (Some (value_or_empty (get tr target_col))) <> []).
Proof.
  intros H idx. unfold merge_file in H. fold idx in H.
  destruct (negb _ || negb _); [done|].
  destruct (bool_decide (idx = ∅)); [done|].
  destruct (decide (target_col ∈ fieldnames base)) as [Hc|Hc];
    [rewrite (bool_decide_eq_true_2 _ Hc) in H
    |by rewrite (bool_decide_eq_false_2 _ Hc) in H].
  cbn [negb] in H. rewrite merge_loop_spec in H. cbn in H.
  injection H as <- <- <-.
  pose proof (accepted_length (fieldnames base)
                (map (merged_row target_col idx) (rows base))) as Hlen.
  rewrite length_map in Hlen.
  set (done_rows := map (merged_row target_col idx) (rows base)) in *.
  split; [done|]. split; [done|].
  split; [|split].
  - intros i r Hr Hi.
    destruct (lookup_lt_is_Some_2 _ _ Hi) as [r' Hr'].
    destruct (accepted_lookup _ _ _ _ Hr') as [Hd Hw].
    unfold done_rows in Hd. rewrite list_lookup_fmap, Hr in Hd.
    injection Hd as <-. rewrite merged_row_writable in Hw by done.
    split; [done|]. exists (merged_row target_col idx r). split; [done|].
    unfold merged_row.
    destruct (in_index idx (normalize_text (get r KEY))) eqn:Hin;
      [|by repeat split].
    destruct (normalize_text (get r target_col)) as [|c cv] eqn:Hcv;
      [|by repeat split].
    cbn [nonempty negb andb]. apply in_index_true in Hin as [v Hv].
    rewrite Hv. cbn [default from_option id]. unfold id.
    split; [|split; [done|]].
    + intros col Hcol. by rewrite row_insert_ne.
    + intros _. split; [done|].
      apply build_index_sound in Hv as [Hv|(_ & Hvn & tr & ? & ? & ?)];
        [by rewrite lookup_empty in Hv|].
      exists v, tr. by repeat split.
  - destruct (forallb (writable (fieldnames base)) done_rows) eqn:Hf.
    + split; [|done]. rewrite accepted_all by done. apply length_map.
    + destruct (accepted_stop _ _ Hf) as (r' & Hr' & Hw).
      unfold done_rows in Hr' at 2. rewrite list_lookup_fmap in Hr'.
      destruct (rows base !! length (accepted (fieldnames base) done_rows))
        as [r|] eqn:Hr; [|done].
      injection Hr' as <-. rewrite merged_row_writable in Hw by done.
      exists r. by split.
  - intros k. rewrite in_index_true. split.
    + intros [v Hv].
      apply build_index_sound in Hv as [Hv|(Hk & Hvn & tr & ? & ? & Hg)];
        [by rewrite lookup_empty in Hv|].
      split; [done|]. exists tr. split; [done|]. split; [done|].
      rewrite Hg. destruct v; done.
    + intros (Hk & tr & Hin & E1 & E2). apply build_index_complete.
      right. eauto.
Qed.

(** At the example tables: one cell merged, one row skipped, the blank
    translation ignored. *)
Lemma merge_file_never_clobbers_witness :
  merge_file example_base example_translated JA
  = (Returned (1, 1)%nat,
     Some ([KEY; JA],
           [example_row "a" "A"; example_row "b" "old"; example_row "c" "  "]))
  /\ (forall i r, rows example_base !! i = Some r -> (i < 3)%nat ->
      exists r',
        [example_row "a" "A"; example_row "b" "old"; example_row "c" "  "] !! i
        = Some r'
        /\ (forall col, col <> JA -> r' !! col = r !! col)
        /\ (normalize_text (get r JA) <> [] -> r' = r)).
Proof.
  assert (merge_file example_base example_translated JA
          = (Returned (1, 1)%nat,
             Some ([KEY; JA],
                   [example_row "a" "A"; example_row "b" "old";
                    example_row "c" "  "]))) as H
    by (vm_compute; reflexivity).
  split; [exact H|].
  destruct (merge_file_never_clobbers _ _ _ _ _ _ H) as (_ & _ & Hrows & _).
  intros i r Hr Hi. destruct (Hrows i r Hr Hi) as (_ & r' & ? & ? & ? & _).
  exists r'. by repeat split.
Defined.

(** C10.  The wrapper creates no empty line.  For a newline-free segment
    and a positive maximum width, what [wrap_segment] returns neither
    begins nor ends with a newline and has no two newlines in a row, and
    every line of it is non-empty unless the segment is empty; the lines
    of the output of [wrap_ja_text] are, segment by segment, one empty
    line for an empty segment of the input and non-empty lines for any
    other. *)
Theorem wrap_no_new_empty_lines (ua : char -> bool) (segment text : str)
    (max_len : Z) :
  newline_free segment -> 0 < max_len ->
  let out := wrap_segment ua segment max_len in
  (head out <> Some NEWLINE /\ last out <> Some NEWLINE
   /\ (forall a b, out <> a ++ [NEWLINE; NEWLINE] ++ b))
  /\ (segment <> [] -> Forall (fun l : str => l <> []) (split_lines out))
  /\ exists lss : list (list str),
       Forall2 (fun seg ls =>
                  match seg with
                  | [] => ls = [[]]
                  | _ :: _ => Forall (fun l : str => l <> []) ls
                  end) (split_lines text) lss
       /\ split_lines (fst (wrap_ja_text ua text max_len)) = concat lss.
Proof.
  intros Hfree Hmax out. split; [|split].
  - destruct segment as [|c seg'] eqn:E.
    + subst out. rewrite wrap_segment_nil. repeat split; try done.
      intros a b H. by destruct a.
    + apply lines_nonempty_shape, wrap_segment_lines_nonempty; (done || lia).
  - intros Hseg. apply wrap_segment_lines_nonempty; (done || lia).
  - exists (map (fun seg => split_lines (wrap_segment ua seg max_len))
             (split_lines text)).
    split.
    + apply Forall2_fmap_r, Forall_Forall2_diag.
      eapply Forall_impl; [apply split_lines_parts_free|].
      intros [|c seg] Hseg; unfold compose; [by rewrite wrap_segment_nil|].
      apply wrap_segment_lines_nonempty; (done || lia).
    + rewrite wrap_ja_text_fst, split_join
        by (intros E; apply map_eq_nil in E; by apply split_lines_nonnil in E).
      by rewrite map_map.
Qed.

(** At the same segment, and at a text with two explicit breaks in a row. *)
Lemma wrap_no_new_empty_lines_witness :
  newline_free (u "[b]abcdefghij xyz") /\ 0 < 5 /\
  let out := wrap_segment kana_kanji (u "[b]abcdefghij xyz") 5 in
  (head out <> Some NEWLINE /\ last out <> Some NEWLINE
   /\ (forall a b, out <> a ++ [NEWLINE; NEWLINE] ++ b))
  /\ (u "[b]abcdefghij xyz" <> [] ->
      Forall (fun l : str => l <> []) (split_lines out))
  /\ exists lss : list (list str),
       Forall2 (fun seg ls =>
                  match seg with
                  | [] => ls = [[]]
                  | _ :: _ => Forall (fun l : str => l <> []) ls
                  end) (split_lines [97; 10; 10; 98]%N) lss
       /\ split_lines (fst (wrap_ja_text kana_kanji [97; 10; 10; 98]%N 5))
          = concat lss.
Proof.
  split; [by apply newline_free_forallb|]. split; [lia|].
  apply (wrap_no_new_empty_lines kana_kanji (u "[b]abcdefghij xyz")
           [97; 10; 10; 98]%N 5);
    [by apply newline_free_forallb | lia].
Defined.

(** * Further lemmas

    Facts about the tokens' widths, the newline count, the file drivers,
    [normalize_text], the index of [merge_file] and [add_column_after],
    for the properties that follow. *)

Import AutoWrapFile.

(** ** Token widths and the shape of single tokens *)

Section TokenWidths.

Variable ua : char -> bool.

Local Abbreviation combined := (AutoWrap.combined ua).
Local Abbreviation tokenize := (AutoWrap.tokenize ua).
Local Abbreviation is_word := (AutoWrap.is_word ua).

Lemma total_width_chars x : total_width (chars_as_tokens x) = Z.of_nat (length x).
Proof.
  induction x as [|c x IH]; [done|].
  unfold total_width in *. cbn [chars_as_tokens map fold_right snd length].
  unfold chars_as_tokens in IH. rewrite IH. lia.
Qed.

Lemma total_width_cons t g : total_width (t :: g) = snd t + total_width g.
Proof. done. Qed.

Lemma tokenize_plain_width s :
  total_width (_tokenize_plain s) = Z.of_nat (length s).
Proof.
  induction s as [s H|s x g m r H IH] using (search_ind _ ascii_word_nonempty).
  - by rewrite tokenize_plain_none, total_width_chars.
  - rewrite (tokenize_plain_some _ _ _ _ _ H), total_width_app,
      total_width_chars, total_width_cons, IH. cbn [snd].
    destruct (search_sound _ _ _ _ _ _ H) as [-> _].
    rewrite !length_app. lia.
Qed.

Lemma match_token_width g m :
  total_width (match_token g m) <= Z.of_nat (length m).
Proof.
  destruct m as [|c m]; [done|].
  destruct g as [|[|[|[|[|k]]]]]; cbn [match_token]; unfold total_width;
    cbn [map fold_right snd length]; lia.
Qed.

Lemma tokenize_width s : total_width (tokenize s) <= Z.of_nat (length s).
Proof.
  induction s as [s H|s x g m r H IH] using (search_ind _ (combined_nonempty ua)).
  - rewrite tokenize_none by done. rewrite tokenize_plain_width. lia.
  - rewrite (tokenize_some _ _ _ _ _ _ H), !total_width_app,
      tokenize_plain_width.
    pose proof (match_token_width g m).
    destruct (search_sound _ _ _ _ _ _ H) as [-> _].
    rewrite !length_app. lia.
Qed.

End TokenWidths.

Section TokenShapes.

Variable ua : char -> bool.

Local Abbreviation combined := (AutoWrap.combined ua).
Local Abbreviation tokenize := (AutoWrap.tokenize ua).
Local Abbreviation is_word := (AutoWrap.is_word ua).
Local Abbreviation wrap_segment := (AutoWrap.wrap_segment ua).
Local Abbreviation wrap_ja_text := (AutoWrap.wrap_ja_text ua).
Local Abbreviation lex_at := (AutoWrap.lex_at ua).
Local Abbreviation img_body := (AutoWrap.img_body ua).

(** A text that is one match of [combined] is one token. *)
Lemma tokenize_single_match g m :
  lex_at m = Some (g, m, []) -> tokenize m = match_token g m.
Proof.
  intros H. assert (search combined m = Some ([], g, m, [])) as Hs
    by (apply search_head; by rewrite match_at_combined).
  rewrite (tokenize_some _ _ _ _ _ _ Hs), tokenize_nil, tokenize_plain_nil.
  cbn [app]. by rewrite app_nil_r.
Qed.

Lemma tokenize_img_tag w :
  w <> [] -> forallb is_word w = true ->
  tokenize (LBRACKET :: CH_i :: CH_m :: CH_g :: COLON :: w ++ [RBRACKET])
  = [(LBRACKET :: CH_i :: CH_m :: CH_g :: COLON :: w ++ [RBRACKET], 1)].
Proof.
  intros Hne Hw. rewrite (tokenize_single_match 1%nat); [done|].
  unfold AutoWrap.lex_at. cbn [N.eqb Pos.eqb].
  by rewrite img_body_complete.
Qed.

Lemma tokenize_other_tag body :
  body <> [] -> forallb not_bracket body = true ->
  img_body (body ++ [RBRACKET]) = None ->
  tokenize (LBRACKET :: body ++ [RBRACKET])
  = [(LBRACKET :: body ++ [RBRACKET], 0)].
Proof.
  intros Hne Hb Hi. rewrite (tokenize_single_match 2%nat); [done|].
  unfold AutoWrap.lex_at. cbn [N.eqb Pos.eqb].
  by rewrite Hi, run1_complete.
Qed.

Lemma tokenize_entity w :
  w <> [] -> forallb is_word w = true ->
  tokenize (AMP :: w ++ [SEMI]) = [(AMP :: w ++ [SEMI], 1)].
Proof.
  intros Hne Hw. rewrite (tokenize_single_match 4%nat); [done|].
  unfold AutoWrap.lex_at. cbn [N.eqb Pos.eqb].
  by rewrite run1_complete.
Qed.

(** An image tag whose identifier has a character outside [\w] is not an
    image tag. *)
Lemma img_body_not_word w :
  forallb is_word w = false -> forallb not_bracket w = true ->
  img_body (CH_i :: CH_m :: CH_g :: COLON :: w ++ [RBRACKET]) = None.
Proof.
  intros Hw Hb.
  destruct (img_body _) as [[m r]|] eqn:E; [|done]. exfalso.
  apply img_body_sound in E as (w' & -> & E & Hw' & Hne).
  injection E as E. rewrite <- !app_assoc in E. cbn [app] in E.
  assert (until not_bracket RBRACKET (w ++ [RBRACKET]) = Some (w, [])) as H1
    by (by apply until_complete).
  assert (until not_bracket RBRACKET (w ++ [RBRACKET]) = Some (w', r)) as H2.
  { rewrite E. apply until_complete; [done|].
    by apply (forallb_word_not_bracket ua). }
  rewrite H1 in H2. injection H2 as <- _. congruence.
Qed.

(** A segment that is a single token passes the packer whole. *)
Lemma wrap_segment_single_token seg t max_len :
  tokenize seg = [t] -> wrap_segment seg max_len = seg.
Proof.
  intros Ht. pose proof (tokenize_ok ua seg) as Hok. rewrite Ht in Hok.
  pose proof (tokenize_text ua seg) as Htext. rewrite Ht in Htext.
  rewrite wrap_segment_groups. unfold AutoWrap.line_groups. rewrite Ht.
  destruct (total_width [t] <=? max_len); [simpl; exact Htext|].
  cbn [pack_groups]. change (nonempty (text_of_tokens [])) with false.
  rewrite andb_false_r. cbn [app].
  rewrite nonempty_text_tokens by done. simpl. exact Htext.
Qed.

Lemma wrap_segment_short seg max_len :
  Z.of_nat (length seg) <= max_len -> wrap_segment seg max_len = seg.
Proof.
  intros H. unfold AutoWrap.wrap_segment.
  pose proof (tokenize_width ua seg).
  by destruct (Z.leb_spec (total_width (tokenize seg)) max_len); [|lia].
Qed.

Lemma join_map_id (f : str -> str) (ls : list str) :
  Forall (fun l => f l = l) ls -> join_lines (map f ls) = join_lines ls.
Proof.
  intros H. f_equal. induction H as [|l ls Hl _ IH]; [done|].
  simpl. by rewrite Hl, IH.
Qed.

Lemma wrap_ja_text_short text max_len :
  Forall (fun seg => Z.of_nat (length seg) <= max_len) (split_lines text) ->
  wrap_ja_text text max_len = (text, false).
Proof.
  intros H.
  assert (fst (wrap_ja_text text max_len) = text) as Hfst.
  { rewrite wrap_ja_text_fst, join_map_id; [apply join_split|].
    eapply Forall_impl; [exact H|]. intros seg Hs. by apply wrap_segment_short. }
  pose proof (wrap_ja_text_snd ua text max_len) as Hsnd.
  destruct (wrap_ja_text text max_len) as [t b]. simpl in *. subst t.
  f_equal. destruct b; [|done]. by destruct (proj1 Hsnd eq_refl).
Qed.

End TokenShapes.

(** ** Counting newlines *)

Section NewlineCount.

Variable ua : char -> bool.

Local Abbreviation wrap_segment := (AutoWrap.wrap_segment ua).
Local Abbreviation wrap_ja_text := (AutoWrap.wrap_ja_text ua).

Lemma count_app c a b : count c (a ++ b) = (count c a + count c b)%nat.
Proof. unfold count. by rewrite List.filter_app, length_app. Qed.

Lemma count_newline_free s : count NEWLINE s = 0%nat <-> newline_free s.
Proof.
  unfold count, newline_free. induction s as [|x s IH]; simpl; [tauto|].
  destruct (N.eqb_spec x NEWLINE) as [->|Hx]; simpl.
  - split; [done|]. intros H. exfalso. apply H. by left.
  - rewrite IH. split; [intros H [?|?]; done|]. intros H Hin. apply H. by right.
Qed.

Lemma count_strip_length s :
  length s = (count NEWLINE s + length (strip_newlines s))%nat.
Proof.
  unfold count, strip_newlines. induction s as [|x s IH]; [done|]. simpl.
  destruct (x =? NEWLINE)%N; simpl; lia.
Qed.

Lemma count_join (ls : list str) :
  ls <> [] ->
  count NEWLINE (join_lines ls)
  = (length ls - 1 + list_sum (map (count NEWLINE) ls))%nat.
Proof.
  induction ls as [|l ls IH]; [done|]. intros _.
  destruct ls as [|l' ls]; [unfold list_sum; cbn [join_lines length map fold_right]; lia|].
  rewrite join_lines_cons, count_app.
  change (NEWLINE :: join_lines (l' :: ls))
    with ([NEWLINE] ++ join_lines (l' :: ls)).
  rewrite count_app, IH by done. unfold list_sum. cbn [length map fold_right].
  change (count NEWLINE [NEWLINE]) with 1%nat. lia.
Qed.

Lemma list_sum_zero_free (ls : list str) :
  Forall newline_free ls -> list_sum (map (count NEWLINE) ls) = 0%nat.
Proof.
  induction 1 as [|l ls Hl _ IH]; [done|]. simpl.
  apply count_newline_free in Hl. lia.
Qed.

Lemma count_split s :
  count NEWLINE s = (length (split_lines s) - 1)%nat.
Proof.
  rewrite <- (join_split s) at 1.
  rewrite count_join by apply split_lines_nonnil.
  rewrite list_sum_zero_free by apply split_lines_parts_free. lia.
Qed.

(** The newlines of the output: those of the input and those the packer
    put into the segments. *)
Lemma wrap_ja_text_count text max_len :
  count NEWLINE (fst (wrap_ja_text text max_len))
  = (count NEWLINE text
     + list_sum (map (fun seg => count NEWLINE (wrap_segment seg max_len))
                   (split_lines text)))%nat.
Proof.
  rewrite wrap_ja_text_fst, count_join
    by (intros E; apply map_eq_nil in E; by apply split_lines_nonnil in E).
  rewrite length_map, map_map, count_split. done.
Qed.

Lemma wrap_ja_text_no_new text max_len :
  list_sum (map (fun seg => count NEWLINE (wrap_segment seg max_len))
              (split_lines text)) = 0%nat ->
  fst (wrap_ja_text text max_len) = text.
Proof.
  intros H. rewrite wrap_ja_text_fst, join_map_id; [apply join_split|].
  pose proof (split_lines_parts_free text) as Hfree.
  induction Hfree as [|seg segs Hseg _ IH]; [constructor|].
  simpl in H. constructor; [|apply IH; lia].
  assert (count NEWLINE (wrap_segment seg max_len) = 0%nat) as H0 by lia.
  apply count_newline_free in H0.
  rewrite <- (strip_newlines_free _ H0). by apply wrap_segment_strip.
Qed.

Lemma wrap_ja_text_count_changed text max_len :
  (count NEWLINE text <= count NEWLINE (fst (wrap_ja_text text max_len)))%nat
  /\ (snd (wrap_ja_text text max_len) = true
      <-> (count NEWLINE text
           < count NEWLINE (fst (wrap_ja_text text max_len)))%nat).
Proof.
  rewrite wrap_ja_text_count. split; [lia|].
  rewrite wrap_ja_text_snd. split.
  - intros Hne.
    destruct (list_sum (map (fun seg => count NEWLINE (wrap_segment seg max_len))
                (split_lines text))) eqn:E; [|lia].
    by apply wrap_ja_text_no_new in E.
  - intros Hlt E. pose proof (wrap_ja_text_count text max_len) as Hc.
    rewrite E in Hc. lia.
Qed.

End NewlineCount.

(** ** The loop of [process_file] in [auto_wrap_ja.py] *)

Section WrapFileFacts.

Variable ua : char -> bool.

Local Abbreviation wrap_ja_text := (AutoWrap.wrap_ja_text ua).
Local Abbreviation process_row := (AutoWrapFile.process_row ua).
Local Abbreviation process_file := (AutoWrapFile.process_file ua).
Local Abbreviation row_after := (AutoWrapFile.row_after ua).
Local Abbreviation row_changed := (AutoWrapFile.row_changed ua).
Local Abbreviation row_wraps := (AutoWrapFile.row_wraps ua).

Lemma wrap_ja_text_twice t max_len :
  0 <= max_len ->
  wrap_ja_text (fst (wrap_ja_text t max_len)) max_len
  = (fst (wrap_ja_text t max_len), false).
Proof.
  intros Hmax. pose proof (wrap_ja_text_idem ua t max_len Hmax) as Hfst.
  pose proof (wrap_ja_text_snd ua (fst (wrap_ja_text t max_len)) max_len) as Hsnd.
  destruct (wrap_ja_text (fst (wrap_ja_text t max_len)) max_len) as [t'' b].
  simpl in *. subst t''. f_equal.
  destruct b; [|done]. by destruct (proj1 Hsnd eq_refl).
Qed.

(** What one iteration does, case by case. *)
Lemma process_row_cases max_len r :
  (row_after max_len r = [r] /\ row_changed max_len r = 0%nat
   /\ row_wraps max_len r = 0
   /\ (row_skipped r = true
       \/ value_or_empty (get r JA) = []
       \/ wrap_ja_text (value_or_empty (get r JA)) max_len
          = (value_or_empty (get r JA), false)))
  \/ (exists orig,
        get r JA = Some orig /\ orig <> [] /\ row_skipped r = false
        /\ snd (wrap_ja_text orig max_len) = true
        /\ row_after max_len r
           = [<[JA := Some (fst (wrap_ja_text orig max_len))]> r]
        /\ row_changed max_len r = 1%nat
        /\ row_wraps max_len r
           = Z.of_nat (count NEWLINE (fst (wrap_ja_text orig max_len)))
             - Z.of_nat (count NEWLINE orig)).
Proof.
  unfold AutoWrapFile.row_after, AutoWrapFile.row_changed,
    AutoWrapFile.row_wraps, AutoWrapFile.process_row, row_skipped.
  destruct (negb _ || startswith _ _) eqn:Hk; [left; by repeat split; auto|].
  destruct (get r JA) as [[|c o]|] eqn:Hja;
    try (left; by repeat split; auto).
  destruct (wrap_ja_text (c :: o) max_len) as [wrapped changed] eqn:Hw.
  destruct changed.
  - right. exists (c :: o). rewrite Hw. cbn [fst snd rows_out rows_changed
      wraps_added app]. by repeat split.
  - left. cbn [rows_out rows_changed wraps_added app]. repeat split; try done.
    right; right. cbn [value_or_empty].
    pose proof (wrap_ja_text_snd ua (c :: o) max_len) as Hs.
    rewrite Hw in *. cbn [fst snd] in Hs. f_equal.
    destruct (decide (wrapped = c :: o)) as [->|Hne]; [done|].
    by apply Hs in Hne.
Qed.

Lemma process_row_acc max_len st r :
  process_row max_len st r
  = mkFile (rows_changed st + row_changed max_len r)
      (wraps_added st + row_wraps max_len r)
      (rows_out st ++ row_after max_len r).
Proof.
  unfold AutoWrapFile.row_after, AutoWrapFile.row_changed,
    AutoWrapFile.row_wraps, AutoWrapFile.process_row.
  destruct (negb _ || startswith _ _);
    [cbn; f_equal; lia|].
  destruct (get r JA) as [[|c o]|]; try (cbn; f_equal; lia).
  destruct (wrap_ja_text (c :: o) max_len) as [wrapped changed].
  destruct changed; cbn; f_equal; lia.
Qed.

Lemma process_rows_fold max_len rs : forall st,
  fold_left (process_row max_len) rs st
  = mkFile (rows_changed st + list_sum (map (row_changed max_len) rs))
      (wraps_added st + fold_right Z.add 0 (map (row_wraps max_len) rs))
      (rows_out st ++ concat (map (row_after max_len) rs)).
Proof.
  induction rs as [|r rs IH]; intros st.
  - cbn. destruct st. cbn. f_equal; [lia|lia|by rewrite app_nil_r].
  - cbn [fold_left]. rewrite IH, process_row_acc.
    cbn [rows_changed wraps_added rows_out map concat fold_right].
    unfold list_sum. cbn [fold_right]. f_equal; [lia|lia|by rewrite <- app_assoc].
Qed.

Lemma row_after_length max_len r : length (row_after max_len r) = 1%nat.
Proof.
  destruct (process_row_cases max_len r)
    as [(-> & _)|(o & _ & _ & _ & _ & -> & _)]; done.
Qed.


Lemma row_changed_wraps max_len r :
  Z.of_nat (row_changed max_len r) <= row_wraps max_len r.
Proof.
  destruct (process_row_cases max_len r)
    as [(_ & -> & -> & _)|(o & _ & _ & _ & Hs & _ & -> & ->)]; [done|].
  apply wrap_ja_text_count_changed in Hs. lia.
Qed.

Lemma rows_changed_wraps max_len rs :
  Z.of_nat (list_sum (map (row_changed max_len) rs))
  <= fold_right Z.add 0 (map (row_wraps max_len) rs)
  /\ (list_sum (map (row_changed max_len) rs) <= length rs)%nat.
Proof.
  induction rs as [|r rs [IH1 IH2]]; [done|].
  unfold list_sum in *. cbn [map fold_right length].
  pose proof (row_changed_wraps max_len r).
  assert (row_changed max_len r <= 1)%nat
    by (destruct (process_row_cases max_len r)
          as [(_ & -> & _)|(o & _ & _ & _ & _ & _ & -> & _)]; lia).
  lia.
Qed.

Lemma get_insert_ne (r : row) col col' v :
  col <> col' -> get (<[col := v]> r) col' = get r col'.
Proof. intros H. unfold get. by rewrite row_insert_ne. Qed.

Lemma get_insert_eq (r : row) col v : get (<[col := v]> r) col = v.
Proof. unfold get. by rewrite row_insert_eq. Qed.

(** A row the loop has been through is left alone by a second pass. *)
Lemma row_changed_again max_len r r' :
  0 <= max_len -> row_after max_len r = [r'] ->
  row_changed max_len r' = 0%nat /\ row_after max_len r' = [r'].
Proof.
  intros Hmax Hr.
  assert (forall r0, (row_skipped r0 = true
            \/ value_or_empty (get r0 JA) = []
            \/ wrap_ja_text (value_or_empty (get r0 JA)) max_len
               = (value_or_empty (get r0 JA), false)) ->
          row_changed max_len r0 = 0%nat /\ row_after max_len r0 = [r0])
    as Hkeep.
  { intros r0 H.
    destruct (process_row_cases max_len r0)
      as [(? & ? & _)|(o & Hja & Hne & Hsk & Hs & _)]; [done|].
    exfalso. rewrite Hja in H. destruct o as [|c o]; [done|].
    cbn [value_or_empty] in H. destruct H as [H|[H|H]]; try congruence.
    rewrite H in Hs. done. }
  destruct (process_row_cases max_len r)
    as [(E & _ & _ & H)|(o & Hja & Hne & Hsk & Hs & E & _)];
    rewrite E in Hr; injection Hr as <-.
  - by apply Hkeep.
  - apply Hkeep. right.
    rewrite get_insert_eq.
    destruct (fst (wrap_ja_text o max_len)) as [|c w] eqn:Ew; [by left|].
    right. cbn [value_or_empty]. rewrite <- Ew.
    by apply wrap_ja_text_twice.
Qed.

Lemma rows_changed_again max_len rs :
  0 <= max_len ->
  list_sum (map (row_changed max_len) (concat (map (row_after max_len) rs)))
  = 0%nat.
Proof.
  intros Hmax. induction rs as [|r rs IH]; [done|].
  pose proof (row_after_length max_len r) as Hl. cbn [map concat].
  destruct (row_after max_len r) as [|r1 [|? ?]] eqn:E; try done.
  destruct (row_changed_again max_len r r1 Hmax E) as [H0 _].
  cbn [app map]. unfold list_sum in *. cbn [fold_right]. lia.
Qed.

End WrapFileFacts.

(** ** [strip] *)

Section StripFacts.

Lemma lstrip_spec s :
  exists ws, s = ws ++ lstrip s /\ forallb is_space ws = true
             /\ starts_solid (lstrip s).
Proof.
  induction s as [|c s (ws & E & Hws & Hs)]; [by exists []|]. simpl.
  destruct (is_space c) eqn:Hc.
  - exists (c :: ws). simpl. rewrite Hc, Hws. by rewrite <- E.
  - by exists [].
Qed.

Lemma lstrip_solid s : starts_solid s -> lstrip s = s.
Proof. destruct s as [|c s]; [done|]. simpl. by intros ->. Qed.

Lemma lstrip_spaces ws s :
  forallb is_space ws = true -> lstrip (ws ++ s) = lstrip s.
Proof.
  induction ws as [|c ws IH]; [done|]. simpl. intros H.
  apply andb_true_iff in H as [-> H]. by apply IH.
Qed.

Lemma lstrip_snoc_solid x c :
  is_space c = false -> exists y, lstrip (x ++ [c]) = y ++ [c].
Proof.
  intros Hc. induction x as [|a x [y IH]]; simpl.
  - rewrite Hc. by exists [].
  - destruct (is_space a); [by exists y|]. by exists (a :: x).
Qed.

Lemma strip_nil_lstrip s : lstrip s = [] -> strip s = [].
Proof. unfold strip. by intros ->. Qed.

(** What [strip] returns starts and ends with a character that is not
    whitespace, if it has any. *)
Lemma strip_solid s :
  starts_solid (strip s) /\ starts_solid (rev (strip s)).
Proof.
  unfold strip. rewrite rev_involutive.
  destruct (lstrip_spec (rev (lstrip s))) as (_ & _ & _ & H2).
  split; [|done].
  destruct (lstrip_spec s) as (_ & _ & _ & H1).
  destruct (lstrip s) as [|c a]; [done|]. simpl in H1.
  cbn [rev]. destruct (lstrip_snoc_solid (rev a) c H1) as [y ->].
  rewrite rev_app_distr. done.
Qed.

Lemma strip_fixed s :
  starts_solid s -> starts_solid (rev s) -> strip s = s.
Proof.
  intros H1 H2. unfold strip.
  by rewrite (lstrip_solid s), (lstrip_solid (rev s)), rev_involutive.
Qed.

Lemma strip_idem s : strip (strip s) = strip s.
Proof. apply strip_fixed; apply strip_solid. Qed.

Lemma lstrip_nil_iff s : lstrip s = [] <-> forallb is_space s = true.
Proof.
  induction s as [|c s IH]; [done|]. simpl.
  destruct (is_space c); [exact IH|]. split; done.
Qed.

Lemma forallb_rev (p : char -> bool) (s : str) :
  forallb p (rev s) = forallb p s.
Proof.
  induction s as [|c s IH]; [done|]. simpl.
  rewrite forallb_app, IH. simpl. rewrite andb_true_r. apply andb_comm.
Qed.

Lemma strip_nil_iff s : strip s = [] <-> forallb is_space s = true.
Proof.
  rewrite <- lstrip_nil_iff. split; [|apply strip_nil_lstrip].
  unfold strip. intros H.
  assert (lstrip (rev (lstrip s)) = []) as H'
    by (by rewrite <- (rev_involutive (lstrip _)), H).
  apply lstrip_nil_iff in H'. rewrite forallb_rev in H'.
  destruct (lstrip_spec s) as (_ & _ & _ & Hs).
  destruct (lstrip s) as [|c a]; [done|]. simpl in *.
  apply andb_true_iff in H' as [Hc _]. congruence.
Qed.

(** [strip] keeps the text between the outer whitespace. *)
Lemma strip_around ws1 core ws2 :
  forallb is_space ws1 = true -> forallb is_space ws2 = true ->
  starts_solid core -> starts_solid (rev core) ->
  strip (ws1 ++ core ++ ws2) = core.
Proof.
  intros H1 H2 Hc Hr. unfold strip.
  rewrite lstrip_spaces by done.
  destruct core as [|c core].
  - simpl. assert (lstrip ws2 = []) as -> by (by apply lstrip_nil_iff). done.
  - simpl in Hc. cbn [app lstrip]. rewrite Hc.
    change (c :: core ++ ws2) with ((c :: core) ++ ws2).
    rewrite rev_app_distr, lstrip_spaces by (by rewrite forallb_rev).
    by rewrite lstrip_solid, rev_involutive.
Qed.

End StripFacts.

(** ** The index and the counters of [merge_file] *)

Section MergeMore.

Variable target_col : str.

Local Abbreviation usable := (MergeTranslated.usable target_col).

Lemma index_step_unusable (idx : gmap str str) (tr : row) :
  usable tr = false -> index_step target_col idx tr = idx.
Proof. unfold index_step, MergeTranslated.usable. by intros ->. Qed.

Lemma index_step_other (idx : gmap str str) (tr : row) k :
  normalize_text (get tr KEY) <> k ->
  index_step target_col idx tr !! k = idx !! k.
Proof.
  intros H. unfold index_step. destruct (_ && _); [|done].
  by rewrite lookup_insert_ne.
Qed.

Lemma index_step_usable (idx : gmap str str) (tr : row) :
  usable tr = true ->
  index_step target_col idx tr !! normalize_text (get tr KEY)
  = Some (value_or_empty (get tr target_col)).
Proof.
  unfold index_step, MergeTranslated.usable. intros ->. by rewrite lookup_insert_eq.
Qed.

(** Later rows that are unusable or have another key do not touch the
    entry of [k]. *)
Lemma index_fold_keep later : forall idx k,
  Forall (fun tr => usable tr = false \/ normalize_text (get tr KEY) <> k)
    later ->
  fold_left (index_step target_col) later idx !! k = idx !! k.
Proof.
  induction later as [|tr later IH]; intros idx k H; [done|].
  inversion H as [|? ? Htr Hl]; subst. cbn [fold_left]. rewrite IH by done.
  destruct Htr as [Hu|Hk]; [by rewrite index_step_unusable|].
  by apply index_step_other.
Qed.

Lemma build_index_last earlier tr later :
  usable tr = true ->
  Forall (fun tr' => usable tr' = false
                     \/ normalize_text (get tr' KEY)
                        <> normalize_text (get tr KEY)) later ->
  build_index target_col (earlier ++ tr :: later)
    !! normalize_text (get tr KEY)
  = Some (value_or_empty (get tr target_col)).
Proof.
  intros Hu Hl. unfold build_index. rewrite fold_left_app. cbn [fold_left].
  rewrite index_fold_keep by done. by apply index_step_usable.
Qed.

Lemma build_index_empty trows :
  Forall (fun tr => usable tr = false) trows ->
  build_index target_col trows = ∅.
Proof.
  intros H. unfold build_index. generalize (∅ : gmap str str).
  induction H as [|tr trows Htr _ IH]; intros idx; [done|].
  cbn [fold_left]. by rewrite index_step_unusable, IH.
Qed.

Lemma counts_disjoint (idx : gmap str str) (rs : list row) :
  (length (List.filter (counts_merged target_col idx) rs)
   + length (List.filter (counts_skipped target_col idx) rs)
   <= length rs)%nat.
Proof.
  induction rs as [|r rs IH]; [done|]. cbn [List.filter length].
  unfold counts_merged, counts_skipped in *.
  destruct (in_index idx _); destruct (nonempty _); cbn; lia.
Qed.

(** A row the loop fills differs from the base row. *)
Lemma merged_row_changed (trows : list row) (r : row) :
  let idx := build_index target_col trows in
  counts_merged target_col idx r = true ->
  merged_row target_col idx r <> r.
Proof.
  intros idx H. unfold merged_row. unfold counts_merged in H. rewrite H.
  apply andb_true_iff in H as [Hin Hb].
  apply in_index_true in Hin as [v Hv]. rewrite Hv. cbn [default from_option id]. unfold id.
  apply build_index_sound in Hv as [Hv|(_ & Hvn & _)];
    [by rewrite lookup_empty in Hv|].
  intros E. assert (get (<[target_col := Some v]> r) target_col
                    = get r target_col) as Eg by (by rewrite E).
  rewrite get_insert_eq in Eg. rewrite <- Eg in Hb.
  apply negb_true_iff in Hb. by destruct (normalize_text (Some v)).
Qed.

Lemma merged_row_same (idx : gmap str str) (r : row) :
  counts_merged target_col idx r = false -> merged_row target_col idx r = r.
Proof. unfold merged_row, counts_merged. by intros ->. Qed.

Lemma merged_rows_same (idx : gmap str str) (rs : list row) :
  length (List.filter (counts_merged target_col idx) rs) = 0%nat ->
  map (merged_row target_col idx) rs = rs.
Proof.
  induction rs as [|r rs IH]; [done|]. cbn [List.filter map].
  destruct (counts_merged target_col idx r) eqn:E; [done|].
  intros H. by rewrite merged_row_same, IH.
Qed.

Lemma merged_rows_differ (trows rs : list row) :
  let idx := build_index target_col trows in
  map (merged_row target_col idx) rs = rs ->
  length (List.filter (counts_merged target_col idx) rs) = 0%nat.
Proof.
  intros idx. induction rs as [|r rs IH]; [done|]. cbn [List.filter map].
  intros [= E1 E2]. destruct (counts_merged target_col idx r) eqn:E.
  - by apply merged_row_changed in E.
  - by apply IH.
Qed.

(** The key of a row the loop has been through, and how a second pass
    counts it. *)
Lemma merged_row_again (trows : list row) (r : row) :
  let idx := build_index target_col trows in
  let r' := merged_row target_col idx r in
  counts_merged target_col idx r' = false
  /\ counts_skipped target_col idx r'
     = counts_merged target_col idx r || counts_skipped target_col idx r.
Proof.
  intros idx r'. subst r'.
  destruct (counts_merged target_col idx r) eqn:E.
  - unfold merged_row. pose proof E as E'. unfold counts_merged in E'.
    rewrite E'. apply andb_true_iff in E' as [Hin Hb].
    pose proof Hin as Hin'. apply in_index_true in Hin' as [v Hv].
    rewrite Hv. cbn [default from_option id]. unfold id.
    apply build_index_sound in Hv as [Hv|(Hk & Hvn & _)];
      [by rewrite lookup_empty in Hv|].
    assert (target_col <> KEY) as Hne.
    { intros ->. apply negb_true_iff in Hb.
      by destruct (normalize_text (get r KEY)). }
    unfold counts_merged, counts_skipped.
    rewrite get_insert_ne, get_insert_eq, Hin by done.
    destruct (normalize_text (Some v)); [done|]. done.
  - rewrite merged_row_same by done. by rewrite E.
Qed.

Lemma merged_rows_again (trows rs : list row) :
  let idx := build_index target_col trows in
  let rs' := map (merged_row target_col idx) rs in
  length (List.filter (counts_merged target_col idx) rs') = 0%nat
  /\ length (List.filter (counts_skipped target_col idx) rs')
     = (length (List.filter (counts_merged target_col idx) rs)
        + length (List.filter (counts_skipped target_col idx) rs))%nat.
Proof.
  intros idx. induction rs as [|r rs [IH1 IH2]]; [done|].
  cbn [map List.filter].
  destruct (merged_row_again trows r) as [H1 H2]. fold idx in H1, H2.
  rewrite H1, H2. unfold counts_merged, counts_skipped in *.
  destruct (in_index idx (normalize_text (get r KEY)));
    destruct (nonempty (normalize_text (get r target_col)));
    cbn [andb orb negb length]; split; (done || lia).
Qed.

End MergeMore.

(** ** [add_column_after] and [fill_row] *)

Section AddColumnFacts.

Import AddJaColumn.

Lemma index_first (l1 l2 : list str) (x : str) :
  x ∉ l1 -> index (l1 ++ x :: l2) x = Some (length l1).
Proof.
  induction l1 as [|f l1 IH]; intros H; cbn [app index length].
  - by rewrite bool_decide_eq_true_2.
  - apply not_elem_of_cons in H as [Hne Hl1].
    rewrite bool_decide_eq_false_2 by done. by rewrite IH.
Qed.

Lemma elem_of_first_split (l : list str) (x : str) :
  x ∈ l -> exists l1 l2, l = l1 ++ x :: l2 /\ x ∉ l1.
Proof.
  induction l as [|f l IH]; intros H; [by apply elem_of_nil in H|].
  destruct (decide (f = x)) as [->|Hne].
  - exists [], l. split; [done|]. apply not_elem_of_nil.
  - apply elem_of_cons in H as [->|H]; [done|].
    destruct (IH H) as (l1 & l2 & -> & Hl1). exists (f :: l1), l2.
    split; [done|]. apply not_elem_of_cons. split; [congruence|done].
Qed.

(** The column goes right after the first [after_col]. *)
Lemma add_column_after_first (l1 l2 : list str) (after_col new_col : str) :
  after_col ∉ l1 -> new_col ∉ l1 ++ after_col :: l2 ->
  add_column_after (l1 ++ after_col :: l2) after_col new_col
  = l1 ++ after_col :: new_col :: l2.
Proof.
  intros Ha Hn. unfold add_column_after.
  rewrite bool_decide_eq_false_2 by done.
  rewrite bool_decide_eq_true_2
    by (apply elem_of_app; right; apply elem_of_cons; by left).
  rewrite index_first by done.
  replace (length l1 + 1)%nat with (length (l1 ++ [after_col]))
    by (rewrite length_app; simpl; lia).
  replace (l1 ++ after_col :: l2) with ((l1 ++ [after_col]) ++ l2)
    by (by rewrite <- app_assoc).
  rewrite take_app_length, drop_app_length. by rewrite <- app_assoc.
Qed.

Lemma add_column_after_absent (f : list str) (after_col new_col : str) :
  after_col ∉ f -> new_col ∉ f ->
  add_column_after f after_col new_col = f ++ [new_col].
Proof.
  intros Ha Hn. unfold add_column_after.
  by rewrite !bool_decide_eq_false_2.
Qed.

Lemma add_column_after_present (f : list str) (after_col new_col : str) :
  new_col ∈ f -> add_column_after f after_col new_col = f.
Proof. intros H. unfold add_column_after. by rewrite bool_decide_eq_true_2. Qed.

(** In every case the old header is split in two and the new column put
    in between. *)
Lemma add_column_after_split (f : list str) (after_col new_col : str) :
  new_col ∉ f ->
  exists l1 l2, f = l1 ++ l2
                /\ add_column_after f after_col new_col = l1 ++ new_col :: l2.
Proof.
  intros Hn. destruct (decide (after_col ∈ f)) as [Ha|Ha].
  - destruct (elem_of_first_split f after_col Ha) as (l1 & l2 & -> & Hl1).
    exists (l1 ++ [after_col]), l2. rewrite add_column_after_first by done.
    by rewrite <- !app_assoc.
  - exists f, []. rewrite add_column_after_absent by done.
    by rewrite app_nil_r.
Qed.

Lemma add_column_after_elem (f : list str) (after_col new_col x : str) :
  x ∈ add_column_after f after_col new_col <-> x = new_col \/ x ∈ f.
Proof.
  destruct (decide (new_col ∈ f)) as [Hn|Hn].
  - rewrite add_column_after_present by done. split; [by right|].
    by intros [->|?].
  - destruct (add_column_after_split f after_col new_col Hn)
      as (l1 & l2 & -> & ->).
    rewrite !elem_of_app, elem_of_cons. tauto.
Qed.

Lemma add_column_after_idem (f : list str) (after_col new_col : str) :
  add_column_after (add_column_after f after_col new_col) after_col new_col
  = add_column_after f after_col new_col.
Proof.
  apply add_column_after_present, add_column_after_elem. by left.
Qed.

Lemma filter_ne_notin (new_col : str) (l : list str) :
  new_col ∉ l -> List.filter (fun x => negb (bool_decide (x = new_col))) l = l.
Proof.
  induction l as [|x l IH]; intros H; [done|].
  apply not_elem_of_cons in H as [Hne Hl]. cbn [List.filter].
  rewrite bool_decide_eq_false_2 by congruence. cbn [negb]. by rewrite IH.
Qed.

(** Taking the new column out again gives the old header. *)
Lemma add_column_after_remove (f : list str) (after_col new_col : str) :
  new_col ∉ f ->
  List.filter (fun x => negb (bool_decide (x = new_col)))
    (add_column_after f after_col new_col) = f.
Proof.
  intros Hn. destruct (add_column_after_split f after_col new_col Hn)
    as (l1 & l2 & E & ->).
  rewrite List.filter_app. cbn [List.filter].
  rewrite bool_decide_eq_true_2 by done. cbn [negb].
  rewrite <- List.filter_app, <- E. by apply filter_ne_notin.
Qed.

Lemma add_column_after_length (f : list str) (after_col new_col : str) :
  new_col ∉ f ->
  length (add_column_after f after_col new_col) = S (length f).
Proof.
  intros Hn. destruct (add_column_after_split f after_col new_col Hn)
    as (l1 & l2 & -> & ->).
  rewrite !length_app. simpl. lia.
Qed.

Lemma add_column_after_NoDup (f : list str) (after_col new_col : str) :
  NoDup f -> NoDup (add_column_after f after_col new_col).
Proof.
  intros Hf. destruct (decide (new_col ∈ f)) as [Hn|Hn].
  - by rewrite add_column_after_present.
  - destruct (add_column_after_split f after_col new_col Hn)
      as (l1 & l2 & -> & ->).
    apply NoDup_app in Hf as (H1 & H12 & H2).
    apply not_elem_of_app in Hn as [Hn1 Hn2].
    apply NoDup_app. split; [done|]. split.
    + intros x Hx. apply not_elem_of_cons. split; [by intros ->|by apply H12].
    + by apply NoDup_cons.
Qed.

Lemma fill_row_has (new_col : str) (r : row) :
  is_Some (fill_row new_col r !! new_col).
Proof.
  unfold fill_row. destruct (decide (is_Some (r !! new_col))) as [H|H].
  - by rewrite bool_decide_eq_true_2.
  - rewrite bool_decide_eq_false_2 by done. by rewrite row_insert_eq.
Qed.

Lemma fill_row_other (new_col col : str) (r : row) :
  col <> new_col -> fill_row new_col r !! col = r !! col.
Proof.
  intros H. unfold fill_row. destruct (bool_decide _); [done|].
  by rewrite row_insert_ne.
Qed.

Lemma fill_row_same (new_col : str) (r : row) :
  is_Some (r !! new_col) -> fill_row new_col r = r.
Proof. intros H. unfold fill_row. by rewrite bool_decide_eq_true_2. Qed.

Lemma fill_row_new (new_col : str) (r : row) :
  r !! new_col = None -> get (fill_row new_col r) new_col = Some [].
Proof.
  intros H. unfold fill_row, get.
  rewrite bool_decide_eq_false_2 by (rewrite H; by intros [? ?]).
  by rewrite row_insert_eq.
Qed.

Lemma fill_row_keys (new_col k : str) (r : row) :
  is_Some (fill_row new_col r !! k) <-> k = new_col \/ is_Some (r !! k).
Proof.
  destruct (decide (k = new_col)) as [->|Hne].
  - split; [by left|]. intros _. apply fill_row_has.
  - rewrite fill_row_other by done. split; [by right|]. by intros [?|?].
Qed.

Lemma fill_row_writable (f : list str) (new_col : str) (r : row) :
  new_col ∈ f -> writable f (fill_row new_col r) = writable f r.
Proof.
  intros H. unfold fill_row. destruct (bool_decide _); [done|].
  by apply writable_insert.
Qed.

End AddColumnFacts.

(** ** The file drivers as maps over the rows *)

Section MoreShapes.

Variable ua : char -> bool.

Local Abbreviation img_body := (AutoWrap.img_body ua).
Local Abbreviation process_file := (AutoWrapFile.process_file ua).
Local Abbreviation row_after := (AutoWrapFile.row_after ua).
Local Abbreviation row_changed := (AutoWrapFile.row_changed ua).
Local Abbreviation row_wraps := (AutoWrapFile.row_wraps ua).

(** A tag body that does not open with [img:] is no image tag. *)
Lemma img_body_not_img body :
  startswith body [CH_i; CH_m; CH_g; COLON] = false ->
  img_body (body ++ [RBRACKET]) = None.
Proof.
  destruct body as [|c1 [|c2 [|c3 [|c4 rest]]]]; try done.
  - intros _. unfold AutoWrap.img_body. cbn [app].
    by rewrite andb_false_r.
  - unfold AutoWrap.img_body. cbn [app startswith].
    destruct (c1 =? CH_i)%N; [|done]. destruct (c2 =? CH_m)%N; [|done].
    destruct (c3 =? CH_g)%N; [|done]. destruct (c4 =? COLON)%N; [|done].
    by destruct rest.
Qed.

Lemma img_body_empty_id :
  img_body [CH_i; CH_m; CH_g; COLON; RBRACKET] = None.
Proof. reflexivity. Qed.

(** [process_file] in terms of what the loop does to each row. *)
Lemma process_file_rows table max_len dry :
  process_file table max_len dry
  = if negb (bool_decide (JA ∈ fieldnames table))
    then (Returned (0%nat, 0), None)
    else
      let n := list_sum (map (row_changed max_len) (rows table)) in
      let w := fold_right Z.add 0 (map (row_wraps max_len) (rows table)) in
      let done_rows := concat (map (row_after max_len) (rows table)) in
      if negb dry && (0 <? n)%nat then
        (if forallb (writable (fieldnames table)) done_rows
         then Returned (n, w) else ValueError,
         Some (fieldnames table, accepted (fieldnames table) done_rows))
      else (Returned (n, w), None).
Proof.
  unfold AutoWrapFile.process_file. destruct (negb (bool_decide _)); [done|].
  cbv zeta. rewrite (process_rows_fold ua), write_rows_spec.
  cbn [rows_changed wraps_added rows_out app fst snd].
  rewrite map_id, !Nat.add_0_l, !Z.add_0_l.
  destruct (negb dry && _); [|done]. by destruct (forallb _ _).
Qed.

(** The loop changes the [ja] cell only: with [ja] in the header, the
    writer accepts the row it leaves exactly when it accepts the row
    read. *)
Lemma row_after_writable (f : list str) max_len r r' :
  JA ∈ f -> row_after max_len r = [r'] -> writable f r' = writable f r.
Proof.
  intros Hf Hr.
  destruct (process_row_cases ua max_len r)
    as [(E & _)|(o & _ & _ & _ & _ & E & _)];
    rewrite E in Hr; injection Hr as <-; [done|].
  by apply writable_insert.
Qed.

Lemma rows_after_writable (f : list str) max_len rs :
  JA ∈ f ->
  map (writable f) (concat (map (row_after max_len) rs))
  = map (writable f) rs.
Proof.
  intros Hf. induction rs as [|r rs IH]; [done|].
  pose proof (row_after_length ua max_len r) as Hl. cbn [map concat].
  destruct (row_after max_len r) as [|r1 [|? ?]] eqn:E; try done.
  cbn [app map]. by rewrite IH, (row_after_writable f max_len r r1).
Qed.

Lemma row_unchanged_wraps max_len r :
  row_changed max_len r = 0%nat -> row_wraps max_len r = 0.
Proof.
  destruct (process_row_cases ua max_len r)
    as [(_ & _ & -> & _)|(o & _ & _ & _ & _ & _ & -> & _)]; done.
Qed.

Lemma rows_done_fixed max_len rs :
  0 <= max_len ->
  Forall (fun r' => row_changed max_len r' = 0%nat)
    (concat (map (row_after max_len) rs)).
Proof.
  intros Hmax. induction rs as [|r rs IH]; [constructor|].
  pose proof (row_after_length ua max_len r) as Hl. cbn [map concat].
  destruct (row_after max_len r) as [|r1 [|? ?]] eqn:E; try done.
  destruct (row_changed_again ua max_len r r1 Hmax E) as [H0 _].
  by constructor.
Qed.

Lemma rows_unchanged_sums max_len (rs : list row) :
  Forall (fun r' => row_changed max_len r' = 0%nat) rs ->
  list_sum (map (row_changed max_len) rs) = 0%nat
  /\ fold_right Z.add 0 (map (row_wraps max_len) rs) = 0.
Proof.
  induction 1 as [|r rs Hr _ [IH1 IH2]]; [done|].
  unfold list_sum in *. cbn [map fold_right].
  rewrite (row_unchanged_wraps max_len r Hr). lia.
Qed.

Lemma rows_wraps_again max_len rs :
  0 <= max_len ->
  fold_right Z.add 0
    (map (row_wraps max_len) (concat (map (row_after max_len) rs))) = 0.
Proof.
  intros Hmax. induction rs as [|r rs IH]; [done|].
  pose proof (row_after_length ua max_len r) as Hl. cbn [map concat].
  destruct (row_after max_len r) as [|r1 [|? ?]] eqn:E; try done.
  destruct (row_changed_again ua max_len r r1 Hmax E) as [H0 _].
  apply row_unchanged_wraps in H0. cbn [app map fold_right]. lia.
Qed.

Lemma rows_after_again max_len rs :
  0 <= max_len ->
  concat (map (row_after max_len) (concat (map (row_after max_len) rs)))
  = concat (map (row_after max_len) rs).
Proof.
  intros Hmax. induction rs as [|r rs IH]; [done|].
  pose proof (row_after_length ua max_len r) as Hl. cbn [map concat].
  destruct (row_after max_len r) as [|r1 [|? ?]] eqn:E; try done.
  destruct (row_changed_again ua max_len r r1 Hmax E) as [_ H1].
  cbn [app map concat]. by rewrite H1, IH.
Qed.


End MoreShapes.

Section MergeEarly.

Variable target_col : str.

Lemma build_index_empty_iff (trows : list row) :
  build_index target_col trows = ∅
  <-> Forall (fun tr => usable target_col tr = false) trows.
Proof.
  split; [|apply build_index_empty].
  intros He. apply Forall_forall. intros tr Hin.
  destruct (usable target_col tr) eqn:Hu; [|done]. exfalso.
  apply andb_true_iff in Hu as [Hk Hv].
  apply nonempty_true in Hk. apply nonempty_true in Hv.
  assert (is_Some (build_index target_col trows
                     !! normalize_text (get tr KEY))) as [v Hs].
  { apply build_index_complete. right. split; [done|].
    exists tr. split; [by apply list_elem_of_In|]. done. }
  rewrite He in Hs. by rewrite lookup_empty in Hs.
Qed.

(** [merge_file] past its three early returns. *)
Lemma merge_file_rows base translated :
  merge_file base translated target_col
  = if negb (bool_decide (KEY ∈ fieldnames translated))
       || negb (bool_decide (target_col ∈ fieldnames translated))
    then (Returned (0, 0)%nat, None)
    else
      let idx := build_index target_col (rows translated) in
      if bool_decide (idx = ∅) then (Returned (0, 0)%nat, None)
      else if negb (bool_decide (target_col ∈ fieldnames base))
      then (Returned (0, 0)%nat, None)
      else
        let done_rows := map (merged_row target_col idx) (rows base) in
        (if forallb (writable (fieldnames base)) done_rows
         then Returned
                (length (List.filter (counts_merged target_col idx)
                           (rows base)),
                 length (List.filter (counts_skipped target_col idx)
                           (rows base)))
         else ValueError,
         Some (fieldnames base, accepted (fieldnames base) done_rows)).
Proof.
  unfold merge_file. destruct (_ || _); [done|]. cbv zeta.
  destruct (bool_decide (_ = ∅)); [done|]. destruct (negb _); [done|].
  rewrite merge_loop_spec. by cbn.
Qed.

End MergeEarly.

(** * Further properties *)

(** ** Widths and shapes of tokens *)

(** X1.  [_tokenize_plain] gives every character of its text one column,
    whether it stands alone or in an ASCII word: the total display width
    of the tokens is the length of the text. *)
Theorem tokenize_plain_total_width (text : str) :
  total_width (_tokenize_plain text) = Z.of_nat (length text).
Proof. apply tokenize_plain_width. Qed.

(** X2.  The total display width of the tokens of a text is never
    negative and never more than the number of its characters. *)
Theorem tokenize_total_width_le (ua : char -> bool) (text : str) :
  0 <= total_width (tokenize ua text) <= Z.of_nat (length text).
Proof.
  split; [|apply tokenize_width].
  pose proof (tokenize_ok ua text) as Hok.
  induction Hok as [|t T [_ Ht] _ IH]; [done|].
  rewrite total_width_cons. lia.
Qed.

(** X3.  A text none of whose lines has more than [max_len] characters is
    returned as it is, with no change reported, whatever markup it
    holds. *)
Theorem wrap_ja_text_short_unchanged (ua : char -> bool) (text : str)
    (max_len : Z) :
  Forall (fun seg => Z.of_nat (length seg) <= max_len) (split_lines text) ->
  wrap_ja_text ua text max_len = (text, false).
Proof. apply wrap_ja_text_short. Qed.

(** At two lines of three and two characters, width 3. *)
Lemma wrap_ja_text_short_unchanged_witness :
  Forall (fun seg => Z.of_nat (length seg) <= 3)
    (split_lines (u "a{b" ++ [NEWLINE] ++ u "[c"))
  /\ wrap_ja_text kana_kanji (u "a{b" ++ [NEWLINE] ++ u "[c") 3
     = (u "a{b" ++ [NEWLINE] ++ u "[c", false).
Proof.
  assert (Forall (fun seg => Z.of_nat (length seg) <= 3)
            (split_lines (u "a{b" ++ [NEWLINE] ++ u "[c"))) as H
    by (change (split_lines (u "a{b" ++ [NEWLINE] ++ u "[c"))
          with [u "a{b"; u "[c"]; repeat constructor; cbn; lia).
  split; [exact H|].
  exact (wrap_ja_text_short_unchanged kana_kanji _ 3 H).
Defined.

(** X4.  An image tag [[img:w]] whose identifier [w] is a non-empty run
    of word characters is one token of width 1. *)
Theorem image_tag_width (ua : char -> bool) (w : str) :
  w <> [] -> forallb (is_word ua) w = true ->
  tokenize ua (LBRACKET :: CH_i :: CH_m :: CH_g :: COLON :: w ++ [RBRACKET])
  = [(LBRACKET :: CH_i :: CH_m :: CH_g :: COLON :: w ++ [RBRACKET], 1)].
Proof. apply tokenize_img_tag. Qed.

Lemma image_tag_width_witness :
  u "cat_1" <> [] /\ forallb (is_word kana_kanji) (u "cat_1") = true
  /\ tokenize kana_kanji (u "[img:cat_1]") = [(u "[img:cat_1]", 1)].
Proof.
  split; [done|]. split; [reflexivity|].
  apply (image_tag_width kana_kanji (u "cat_1")); [done|reflexivity].
Defined.

(** X5.  A bracketed tag whose body is non-empty, has no bracket in it
    and does not open with [img:] is one token of width 0: the tag takes
    no column of the line. *)
Theorem plain_tag_width_zero (ua : char -> bool) (body : str) :
  body <> [] -> forallb not_bracket body = true ->
  startswith body [CH_i; CH_m; CH_g; COLON] = false ->
  tokenize ua (LBRACKET :: body ++ [RBRACKET])
  = [(LBRACKET :: body ++ [RBRACKET], 0)].
Proof.
  intros Hne Hb Hi. apply tokenize_other_tag; [done|done|].
  by apply img_body_not_img.
Qed.

Lemma plain_tag_width_zero_witness :
  u "m:happy" <> [] /\ forallb not_bracket (u "m:happy") = true
  /\ startswith (u "m:happy") [CH_i; CH_m; CH_g; COLON] = false
  /\ tokenize kana_kanji (u "[m:happy]") = [(u "[m:happy]", 0)].
Proof.
  split; [done|]. split; [reflexivity|]. split; [reflexivity|].
  apply (plain_tag_width_zero kana_kanji (u "m:happy")); done.
Defined.

(** X6.  An image tag whose identifier is empty or has a character
    outside the word characters (and no bracket) is not taken as an image
    tag: the second alternative of the pattern matches it, and it is one
    token of width 0, not 1. *)
Theorem image_tag_bad_id_width_zero (ua : char -> bool) (w : str) :
  forallb not_bracket w = true ->
  w = [] \/ forallb (is_word ua) w = false ->
  tokenize ua (LBRACKET :: CH_i :: CH_m :: CH_g :: COLON :: w ++ [RBRACKET])
  = [(LBRACKET :: CH_i :: CH_m :: CH_g :: COLON :: w ++ [RBRACKET], 0)].
Proof.
  intros Hb Hw.
  apply (tokenize_other_tag ua (CH_i :: CH_m :: CH_g :: COLON :: w));
    [done|by cbn; rewrite Hb|].
  destruct Hw as [->|Hw]; [apply img_body_empty_id|].
  by apply img_body_not_word.
Qed.

Lemma image_tag_bad_id_width_zero_witness :
  forallb not_bracket (u "a-b") = true
  /\ (u "a-b" = [] \/ forallb (is_word kana_kanji) (u "a-b") = false)
  /\ tokenize kana_kanji (u "[img:a-b]") = [(u "[img:a-b]", 0)].
Proof.
  split; [reflexivity|]. split; [by right|].
  apply (image_tag_bad_id_width_zero kana_kanji (u "a-b"));
    [reflexivity|by right].
Defined.

(** X7.  An entity [&w;] whose name [w] is a non-empty run of word
    characters is one token of width 1. *)
Theorem entity_width (ua : char -> bool) (w : str) :
  w <> [] -> forallb (is_word ua) w = true ->
  tokenize ua (AMP :: w ++ [SEMI]) = [(AMP :: w ++ [SEMI], 1)].
Proof. apply tokenize_entity. Qed.

Lemma entity_width_witness :
  u "nbsp" <> [] /\ forallb (is_word kana_kanji) (u "nbsp") = true
  /\ tokenize kana_kanji (u "&nbsp;") = [(u "&nbsp;", 1)].
Proof.
  split; [done|]. split; [reflexivity|].
  apply (entity_width kana_kanji (u "nbsp")); [done|reflexivity].
Defined.

(** X8.  A segment that is a single token is returned as it is for every
    maximum width, also one smaller than the width of the token: the
    packer never breaks before the first token of a line. *)
Theorem single_token_never_split (ua : char -> bool) (segment : str)
    (t : token) (max_len : Z) :
  tokenize ua segment = [t] -> wrap_segment ua segment max_len = segment.
Proof. apply wrap_segment_single_token. Qed.

(** At a word of ten letters, width 3. *)
Lemma single_token_never_split_witness :
  tokenize kana_kanji (u "abcdefghij") = [(u "abcdefghij", 10)]
  /\ wrap_segment kana_kanji (u "abcdefghij") 3 = u "abcdefghij".
Proof.
  split; [reflexivity|].
  by apply (single_token_never_split kana_kanji (u "abcdefghij")
              (u "abcdefghij", 10) 3).
Defined.

(** X9.  [wrap_ja_text] only adds newlines: the output has at least as
    many newlines as the input, it is longer than the input by the
    number of newlines added, and the change flag is set exactly when
    that number is not zero. *)
Theorem wrap_ja_text_newline_count (ua : char -> bool) (text : str)
    (max_len : Z) :
  let out := fst (wrap_ja_text ua text max_len) in
  (count NEWLINE text <= count NEWLINE out)%nat
  /\ (length out + count NEWLINE text
      = length text + count NEWLINE out)%nat
  /\ (snd (wrap_ja_text ua text max_len) = true
      <-> (count NEWLINE text < count NEWLINE out)%nat).
Proof.
  intros out. destruct (wrap_ja_text_count_changed ua text max_len) as [H1 H2].
  split; [done|]. split; [|done].
  rewrite (count_strip_length out), (count_strip_length text).
  unfold out. rewrite wrap_ja_text_strip. lia.
Qed.

(** ** [process_file] of [auto_wrap_ja.py] *)



(** X11.  The counters of [process_file].  A dry run always returns:
    no more rows changed than the file has rows, and at least one newline
    added for each row changed.  The run that writes returns the same
    counters, unless a row changed and the writer refuses a row of the
    file: then it raises [ValueError]. *)
Theorem wrap_file_counters (ua : char -> bool) (table : csv_table)
    (max_len : Z) :
  exists (n : nat) (w : Z),
    AutoWrapFile.process_file ua table max_len true = (Returned (n, w), None)
    /\ (n <= length (rows table))%nat
    /\ Z.of_nat n <= w
    /\ fst (AutoWrapFile.process_file ua table max_len false)
       = if (0 <? n)%nat
            && negb (forallb (writable (fieldnames table)) (rows table))
         then ValueError
         else Returned (n, w).
Proof.
  rewrite !process_file_rows.
  destruct (decide (JA ∈ fieldnames table)) as [Hja|Hja];
    [rewrite (bool_decide_eq_true_2 _ Hja)
    |rewrite (bool_decide_eq_false_2 _ Hja)]; cbn [negb andb].
  - cbv zeta.
    destruct (rows_changed_wraps ua max_len (rows table)) as [H1 H2].
    eexists _, _. split; [reflexivity|]. split; [done|]. split; [done|].
    assert (forallb (writable (fieldnames table))
              (concat (map (row_after ua max_len) (rows table)))
            = forallb (writable (fieldnames table)) (rows table)) as ->
      by (by apply forallb_map_eq, rows_after_writable).
    destruct (0 <? _)%nat; cbn [fst andb]; [|done].
    by destruct (forallb _ _).
  - exists 0%nat, 0. cbn. repeat split; (lia || done).
Qed.

(** X12.  Running [process_file] again on the header and rows it left in
    the file, with a maximum width that is not negative, changes no row,
    adds no newline and writes nothing; also when the first run raised
    and left only a part of the rows. *)
Theorem wrap_file_second_run (ua : char -> bool) (table : csv_table)
    (max_len : Z) (dry_run : bool) (res : outcome (nat * Z))
    (header : list str) (out : list row) :
  0 <= max_len ->
  AutoWrapFile.process_file ua table max_len false
  = (res, Some (header, out)) ->
  AutoWrapFile.process_file ua (mkTable header out) max_len dry_run
  = (Returned (0%nat, 0), None).
Proof.
  intros Hmax. rewrite !process_file_rows. cbn [fieldnames rows].
  destruct (negb (bool_decide (JA ∈ fieldnames table))) eqn:Hja; [done|].
  cbv zeta. cbn [negb andb]. destruct (0 <? _)%nat; [|done].
  intros [= <- <- <-]. rewrite Hja.
  assert (Forall (fun r' => row_changed ua max_len r' = 0%nat)
            (accepted (fieldnames table)
               (concat (map (row_after ua max_len) (rows table))))) as Hfix.
  { rewrite accepted_prefix. apply Forall_take.
    by apply rows_done_fixed. }
  destruct (rows_unchanged_sums ua max_len _ Hfix) as [-> ->].
  by rewrite andb_false_r.
Qed.

Lemma wrap_file_second_run_witness :
  0 <= 3
  /\ AutoWrapFile.process_file kana_kanji
       (mkTable [KEY; JA]
          [example_row "k1" "a b c d"; example_row "k2" "ab"]) 3 false
     = (Returned (1%nat, 2),
        Some ([KEY; JA],
              [<[JA := Some (u "a b" ++ [NEWLINE] ++ u " c " ++ [NEWLINE] ++ u "d")]>
                 (example_row "k1" "a b c d"); example_row "k2" "ab"]))
  /\ AutoWrapFile.process_file kana_kanji
       (mkTable [KEY; JA]
          [<[JA := Some (u "a b" ++ [NEWLINE] ++ u " c " ++ [NEWLINE] ++ u "d")]>
                 (example_row "k1" "a b c d"); example_row "k2" "ab"]) 3 false
     = (Returned (0%nat, 0), None).
Proof.
  assert (AutoWrapFile.process_file kana_kanji
            (mkTable [KEY; JA]
               [example_row "k1" "a b c d"; example_row "k2" "ab"]) 3 false
          = (Returned (1%nat, 2),
             Some ([KEY; JA],
                   [<[JA := Some (u "a b" ++ [NEWLINE] ++ u " c " ++ [NEWLINE] ++ u "d")]>
                 (example_row "k1" "a b c d"); example_row "k2" "ab"]))) as H
    by (vm_compute; reflexivity).
  split; [lia|]. split; [exact H|].
  apply (wrap_file_second_run kana_kanji _ 3 false _ _ _ ltac:(lia) H).
Defined.

(** ** [normalize_text] *)

(** X13.  [normalize_text] is idempotent, and what it returns neither
    begins nor ends with a whitespace character. *)
Theorem normalize_text_idempotent (value : option str) :
  normalize_text (Some (normalize_text value)) = normalize_text value
  /\ starts_solid (normalize_text value)
  /\ starts_solid (rev (normalize_text value)).
Proof.
  destruct value as [v|]; cbn [normalize_text].
  - split; [apply strip_idem|apply strip_solid].
  - by vm_compute.
Qed.

(** X14.  [normalize_text] returns the empty string exactly for [None]
    and for a string of whitespace characters only. *)
Theorem normalize_text_blank (value : option str) :
  normalize_text value = []
  <-> value = None \/ exists s, value = Some s /\ forallb is_space s = true.
Proof.
  destruct value as [v|]; cbn [normalize_text].
  - rewrite strip_nil_iff. split.
    + intros H. right. by exists v.
    + by intros [?|(s & [= ->] & H)].
  - split; [by left|done].
Qed.

(** X15.  [normalize_text] removes the whitespace around a text and
    nothing else: for a text [core] that neither begins nor ends with
    whitespace, between two runs of whitespace, it returns [core], inner
    whitespace included. *)
Theorem normalize_text_core (ws1 core ws2 : str) :
  forallb is_space ws1 = true -> forallb is_space ws2 = true ->
  starts_solid core -> starts_solid (rev core) ->
  normalize_text (Some (ws1 ++ core ++ ws2)) = core.
Proof. apply strip_around. Qed.

(** At a key with an inner blank, between a tab and an ideographic
    space. *)
Lemma normalize_text_core_witness :
  forallb is_space [9; 32]%N = true /\ forallb is_space [0x3000; 10]%N = true
  /\ starts_solid (u "A KEY") /\ starts_solid (rev (u "A KEY"))
  /\ normalize_text (Some ([9; 32]%N ++ u "A KEY" ++ [0x3000; 10]%N))
     = u "A KEY".
Proof.
  split; [reflexivity|]. split; [reflexivity|].
  split; [reflexivity|]. split; [reflexivity|].
  apply (normalize_text_core [9; 32]%N (u "A KEY") [0x3000; 10]%N);
    reflexivity.
Defined.

(** ** [merge_file] *)

(** X16.  Of the translated rows with the same stripped key, the last one
    with a value that is not blank gives the index entry: later rows
    whose value is blank do not erase it, and earlier rows are
    overwritten. *)
Theorem build_index_last_wins (target_col : str) (earlier : list row)
    (tr : row) (later : list row) :
  usable target_col tr = true ->
  Forall (fun tr' => usable target_col tr' = false
                     \/ normalize_text (get tr' KEY)
                        <> normalize_text (get tr KEY)) later ->
  build_index target_col (earlier ++ tr :: later)
    !! normalize_text (get tr KEY)
  = Some (value_or_empty (get tr target_col)).
Proof. apply build_index_last. Qed.

Lemma build_index_last_wins_witness :
  usable JA (example_row " a " "B") = true
  /\ Forall (fun tr' => usable JA tr' = false
                        \/ normalize_text (get tr' KEY)
                           <> normalize_text (get (example_row " a " "B") KEY))
       [example_row "a" "  "; example_row "b" "C"]
  /\ build_index JA
       ([example_row "a" "A"] ++ example_row " a " "B"
        :: [example_row "a" "  "; example_row "b" "C"])
       !! normalize_text (get (example_row " a " "B") KEY)
     = Some (value_or_empty (get (example_row " a " "B") JA)).
Proof.
  assert (Forall (fun tr' => usable JA tr' = false
                     \/ normalize_text (get tr' KEY)
                        <> normalize_text (get (example_row " a " "B") KEY))
            [example_row "a" "  "; example_row "b" "C"]) as H.
  { constructor; [left; vm_compute; reflexivity|].
    constructor; [right; vm_compute; discriminate|constructor]. }
  split; [vm_compute; reflexivity|]. split; [exact H|].
  apply (build_index_last_wins JA [example_row "a" "A"]
           (example_row " a " "B") _ ltac:(vm_compute; reflexivity) H).
Defined.

(** X17.  The counters of [merge_file] count different rows: when it
    returns them, together they are at most the number of base rows; and
    no cell was merged exactly when the rows written are the rows read. *)
Theorem merge_file_counts (base translated : csv_table) (target_col : str)
    (m s : nat) (header : list str) (out : list row) :
  merge_file base translated target_col
  = (Returned (m, s), Some (header, out)) ->
  (m + s <= length (rows base))%nat /\ (m = 0%nat <-> out = rows base).
Proof.
  rewrite merge_file_rows. destruct (_ || _); [done|]. cbv zeta.
  destruct (bool_decide (_ = ∅)); [done|]. destruct (negb _); [done|].
  destruct (forallb _ _) eqn:Hf; [|done]. rewrite accepted_all by done.
  intros [= <- <- <- <-]. split; [apply counts_disjoint|]. split.
  - apply merged_rows_same.
  - apply merged_rows_differ.
Qed.

Lemma merge_file_counts_witness :
  merge_file example_base example_translated JA
  = (Returned (1, 1)%nat,
     Some ([KEY; JA],
           [example_row "a" "A"; example_row "b" "old"; example_row "c" "  "]))
  /\ (1 + 1 <= length (rows example_base))%nat.
Proof.
  assert (merge_file example_base example_translated JA
          = (Returned (1, 1)%nat,
             Some ([KEY; JA],
                   [example_row "a" "A"; example_row "b" "old";
                    example_row "c" "  "]))) as H
    by (vm_compute; reflexivity).
  split; [exact H|].
  exact (proj1 (merge_file_counts _ _ _ _ _ _ _ H)).
Defined.

(** X18.  Merging the same translated file again into the rows
    [merge_file] wrote, after a run that returned, merges nothing: every
    cell merged the first time is now counted as skipped, and the rows
    are written as they are. *)
Theorem merge_file_second_run (base translated : csv_table)
    (target_col : str) (m s : nat) (header : list str) (out : list row) :
  merge_file base translated target_col
  = (Returned (m, s), Some (header, out)) ->
  merge_file (mkTable header out) translated target_col
  = (Returned (0, m + s)%nat, Some (header, out)).
Proof.
  rewrite !merge_file_rows. cbn [fieldnames rows].
  destruct (_ || _); [done|]. cbv zeta.
  destruct (bool_decide (_ = ∅)); [done|].
  destruct (negb (bool_decide (target_col ∈ fieldnames base))) eqn:Hc;
    [done|].
  destruct (forallb _ _) eqn:Hf; [|done]. rewrite accepted_all by done.
  intros [= <- <- <- <-]. rewrite Hc.
  destruct (merged_rows_again target_col (rows translated) (rows base))
    as [H1 H2].
  cbv zeta in H1, H2. rewrite H1, H2.
  rewrite (merged_rows_same target_col _ _ H1), Hf.
  by rewrite accepted_all.
Qed.

Lemma merge_file_second_run_witness :
  merge_file example_base example_translated JA
  = (Returned (1, 1)%nat,
     Some ([KEY; JA],
           [example_row "a" "A"; example_row "b" "old"; example_row "c" "  "]))
  /\ merge_file
       (mkTable [KEY; JA]
          [example_row "a" "A"; example_row "b" "old"; example_row "c" "  "])
       example_translated JA
     = (Returned (0, 1 + 1)%nat,
        Some ([KEY; JA],
              [example_row "a" "A"; example_row "b" "old";
               example_row "c" "  "])).
Proof.
  assert (merge_file example_base example_translated JA
          = (Returned (1, 1)%nat,
             Some ([KEY; JA],
                   [example_row "a" "A"; example_row "b" "old";
                    example_row "c" "  "]))) as H
    by (vm_compute; reflexivity).
  split; [exact H|].
  exact (merge_file_second_run _ _ _ _ _ _ _ H).
Defined.

(** X19.  [merge_file] returns without writing exactly when the
    translated file lacks the [KEY] column or the target column, or has
    no row with a key and a value that are not blank, or the base file
    lacks the target column; it then reports no merged and no skipped
    row. *)
Theorem merge_file_writes_iff (base translated : csv_table)
    (target_col : str) :
  (snd (merge_file base translated target_col) = None
   <-> KEY ∉ fieldnames translated
       \/ target_col ∉ fieldnames translated
       \/ Forall (fun tr => usable target_col tr = false) (rows translated)
       \/ target_col ∉ fieldnames base)
  /\ (snd (merge_file base translated target_col) = None ->
      fst (merge_file base translated target_col) = Returned (0, 0)%nat).
Proof.
  rewrite merge_file_rows. cbv zeta.
  rewrite <- (build_index_empty_iff target_col (rows translated)).
  destruct (decide (KEY ∈ fieldnames translated)) as [H1|H1];
    [rewrite (bool_decide_eq_true_2 _ H1)
    |rewrite (bool_decide_eq_false_2 _ H1); cbn;
     split; [split; [tauto|done]|done]].
  destruct (decide (target_col ∈ fieldnames translated)) as [H2|H2];
    [rewrite (bool_decide_eq_true_2 _ H2)
    |rewrite (bool_decide_eq_false_2 _ H2); cbn;
     split; [split; [tauto|done]|done]].
  cbn [negb orb].
  destruct (decide (build_index target_col (rows translated) = ∅))
    as [H3|H3];
    [rewrite (bool_decide_eq_true_2 _ H3); cbn;
     split; [split; [tauto|done]|done]
    |rewrite (bool_decide_eq_false_2 _ H3)].
  destruct (decide (target_col ∈ fieldnames base)) as [H4|H4];
    [rewrite (bool_decide_eq_true_2 _ H4)
    |rewrite (bool_decide_eq_false_2 _ H4); cbn;
     split; [split; [tauto|done]|done]].
  cbn. split; [|done]. split; [done|tauto].
Qed.

(** ** [add_ja_column.py] *)

(** X20.  [add_column_after] puts a new column right after the first
    occurrence of [after_col]. *)
Theorem add_column_after_placement (l1 l2 : list str)
    (after_col new_col : str) :
  after_col ∉ l1 -> new_col ∉ l1 ++ after_col :: l2 ->
  AddJaColumn.add_column_after (l1 ++ after_col :: l2) after_col new_col
  = l1 ++ after_col :: new_col :: l2.
Proof. apply add_column_after_first. Qed.

(** At the header KEY, en, zh, notes, zh: ja goes after the first zh. *)
Lemma add_column_after_placement_witness :
  (u "zh" ∉ [KEY; u "en"])
  /\ (JA ∉ [KEY; u "en"] ++ u "zh" :: [u "notes"; u "zh"])
  /\ AddJaColumn.add_column_after
       ([KEY; u "en"] ++ u "zh" :: [u "notes"; u "zh"]) (u "zh") JA
     = [KEY; u "en"] ++ u "zh" :: JA :: [u "notes"; u "zh"].
Proof.
  assert (u "zh" ∉ [KEY; u "en"]) as H1
    by (apply (bool_decide_eq_false_1 _); vm_compute; reflexivity).
  assert (JA ∉ [KEY; u "en"] ++ u "zh" :: [u "notes"; u "zh"]) as H2
    by (apply (bool_decide_eq_false_1 _); vm_compute; reflexivity).
  split; [exact H1|]. split; [exact H2|].
  exact (add_column_after_placement _ _ _ _ H1 H2).
Defined.

(** X21.  Adding a column that the header does not have makes the header
    one longer, and taking the new column out again gives the old header:
    the old columns keep their order.  Where [after_col] is not in the
    header, the new column goes to the end. *)
Theorem add_column_after_round_trip (fieldnames : list str)
    (after_col new_col : str) :
  new_col ∉ fieldnames ->
  let header := AddJaColumn.add_column_after fieldnames after_col new_col in
  length header = S (length fieldnames)
  /\ List.filter (fun x => negb (bool_decide (x = new_col))) header
     = fieldnames
  /\ (after_col ∉ fieldnames -> header = fieldnames ++ [new_col]).
Proof.
  intros Hn header. split; [by apply add_column_after_length|].
  split; [by apply add_column_after_remove|].
  intros Ha. by apply add_column_after_absent.
Qed.

Lemma add_column_after_round_trip_witness :
  (JA ∉ [KEY; u "en"])
  /\ length (AddJaColumn.add_column_after [KEY; u "en"] (u "zh") JA) = 3%nat
  /\ AddJaColumn.add_column_after [KEY; u "en"] (u "zh") JA
     = [KEY; u "en"; JA].
Proof.
  assert (JA ∉ [KEY; u "en"]) as H
    by (apply (bool_decide_eq_false_1 _); vm_compute; reflexivity).
  split; [exact H|].
  destruct (add_column_after_round_trip [KEY; u "en"] (u "zh") JA H)
    as (Hl & _ & Ha).
  split; [exact Hl|]. apply Ha.
  apply (bool_decide_eq_false_1 _); vm_compute; reflexivity.
Defined.

(** X22.  The header [add_column_after] returns has the new column and
    the old ones, and nothing else; adding the same column again changes
    nothing. *)
Theorem add_column_after_columns (fieldnames : list str)
    (after_col new_col : str) :
  let header := AddJaColumn.add_column_after fieldnames after_col new_col in
  (forall x, x ∈ header <-> x = new_col \/ x ∈ fieldnames)
  /\ AddJaColumn.add_column_after header after_col new_col = header.
Proof.
  intros header. split.
  - intros x. apply add_column_after_elem.
  - apply add_column_after_idem.
Qed.

(** X23.  A header without a repeated column stays one. *)
Theorem add_column_after_no_dup (fieldnames : list str)
    (after_col new_col : str) :
  NoDup fieldnames ->
  NoDup (AddJaColumn.add_column_after fieldnames after_col new_col).
Proof. apply add_column_after_NoDup. Qed.

Lemma add_column_after_no_dup_witness :
  NoDup [KEY; u "en"; u "zh"]
  /\ NoDup (AddJaColumn.add_column_after [KEY; u "en"; u "zh"] (u "zh") JA).
Proof.
  assert (NoDup [KEY; u "en"; u "zh"]) as H
    by (apply (bool_decide_eq_true_1 _); vm_compute; reflexivity).
  split; [exact H|]. exact (add_column_after_no_dup _ (u "zh") JA H).
Defined.

(** X24.  What [process_file] of [add_ja_column.py] leaves in the file
    it writes: a header with the old columns and the new one, and then
    the rows [out], one per row read and in order, for the rows before
    the first one with a key that is neither a field name nor the new
    column (a record longer than the header has one).  Each written row
    has the new column, empty where the row did not have it, and every
    other cell as it was.  If the writer refuses no row, every row is
    written and [process_file] returns [True]; otherwise it raises
    [ValueError] at the first row the writer refuses. *)
Theorem add_column_file_frame (table : csv_table) (new_col after_col : str)
    (res : outcome bool) (header : list str) (out : list row) :
  AddJaColumn.process_file table new_col after_col
  = (res, Some (header, out)) ->
  (new_col ∉ fieldnames table)
  /\ (forall x, x ∈ header <-> x = new_col \/ x ∈ fieldnames table)
  /\ (length out <= length (rows table))%nat
  /\ (forall i r, rows table !! i = Some r -> (i < length out)%nat ->
      writable header r = true
      /\ exists r', out !! i = Some r'
           /\ is_Some (r' !! new_col)
           /\ (forall col, col <> new_col -> r' !! col = r !! col)
           /\ (r !! new_col = None -> get r' new_col = Some []))
  /\ match res with
     | Returned added =>
         added = true /\ length out = length (rows table)
     | ValueError =>
         exists r, rows table !! length out = Some r
                   /\ writable header r = false
     end.
Proof.
  unfold AddJaColumn.process_file.
  destruct (decide (new_col ∈ fieldnames table)) as [Hn|Hn];
    [by rewrite (bool_decide_eq_true_2 _ Hn)
    |rewrite (bool_decide_eq_false_2 _ Hn)].
  cbv zeta. rewrite write_rows_spec. cbn [fst snd].
  intros [= <- <- <-].
  set (header := AddJaColumn.add_column_after (fieldnames table) after_col
                   new_col).
  assert (new_col ∈ header) as Hh
    by (apply add_column_after_elem; by left).
  pose proof (accepted_length header
                (map (AddJaColumn.fill_row new_col) (rows table))) as Hle.
  rewrite length_map in Hle.
  set (done_rows := map (AddJaColumn.fill_row new_col) (rows table)) in *.
  split; [done|].
  split; [intros x; apply add_column_after_elem|].
  split; [done|]. split.
  - intros i r Hr Hi.
    destruct (lookup_lt_is_Some_2 _ _ Hi) as [r' Hr'].
    destruct (accepted_lookup _ _ _ _ Hr') as [Hd Hw].
    unfold done_rows in Hd. rewrite list_lookup_fmap, Hr in Hd.
    injection Hd as <-. rewrite fill_row_writable in Hw by done.
    split; [done|]. exists (AddJaColumn.fill_row new_col r).
    split; [done|]. split; [apply fill_row_has|].
    split; [intros col Hc; by apply fill_row_other|].
    apply fill_row_new.
  - destruct (forallb (writable header) done_rows) eqn:Hf.
    + split; [done|]. rewrite accepted_all by done. apply length_map.
    + destruct (accepted_stop _ _ Hf) as (r' & Hr' & Hw).
      unfold done_rows in Hr' at 2. rewrite list_lookup_fmap in Hr'.
      destruct (rows table !! length (accepted header done_rows))
        as [r|] eqn:Hr; [|done].
      injection Hr' as <-. rewrite fill_row_writable in Hw by done.
      exists r. by split.
Qed.

Lemma add_column_file_frame_witness :
  AddJaColumn.process_file
    (mkTable [KEY; u "zh"]
       [<[KEY := Some (u "a")]> (<[u "zh" := Some (u "x")]> ∅)])
    JA (u "zh")
  = (Returned true,
     Some ([KEY; u "zh"; JA],
           [<[JA := Some []]>
              (<[KEY := Some (u "a")]> (<[u "zh" := Some (u "x")]> ∅))]))
  /\ (JA ∉ [KEY; u "zh"]).
Proof.
  assert (AddJaColumn.process_file
            (mkTable [KEY; u "zh"]
               [<[KEY := Some (u "a")]> (<[u "zh" := Some (u "x")]> ∅)])
            JA (u "zh")
          = (Returned true,
             Some ([KEY; u "zh"; JA],
                   [<[JA := Some []]>
                      (<[KEY := Some (u "a")]>
                         (<[u "zh" := Some (u "x")]> ∅))]))) as H
    by (vm_compute; reflexivity).
  split; [exact H|].
  exact (proj1 (add_column_file_frame _ _ _ _ _ _ H)).
Defined.

(** X25.  [process_file] of [add_ja_column.py] run on the header and rows
    it left in the file finds the column and returns [False] without
    writing, whatever [after_col] it is given; also when the first run
    raised and left only a part of the rows. *)
Theorem add_column_file_second_run (table : csv_table)
    (new_col after_col after_col' : str) (res : outcome bool)
    (header : list str) (out : list row) :
  AddJaColumn.process_file table new_col after_col
  = (res, Some (header, out)) ->
  AddJaColumn.process_file (mkTable header out) new_col after_col'
  = (Returned false, None).
Proof.
  unfold AddJaColumn.process_file. destruct (bool_decide _); [done|].
  cbv zeta. intros [= <- <- <-]. cbn [fieldnames].
  rewrite bool_decide_eq_true_2; [done|].
  apply add_column_after_elem. by left.
Qed.

Lemma add_column_file_second_run_witness :
  AddJaColumn.process_file
    (mkTable [KEY; u "zh"]
       [<[KEY := Some (u "a")]> (<[u "zh" := Some (u "x")]> ∅)])
    JA (u "zh")
  = (Returned true,
     Some ([KEY; u "zh"; JA],
           [<[JA := Some []]>
              (<[KEY := Some (u "a")]> (<[u "zh" := Some (u "x")]> ∅))]))
  /\ AddJaColumn.process_file
       (mkTable [KEY; u "zh"; JA]
          [<[JA := Some []]>
             (<[KEY := Some (u "a")]> (<[u "zh" := Some (u "x")]> ∅))])
       JA (u "en")
     = (Returned false, None).
Proof.
  assert (AddJaColumn.process_file
            (mkTable [KEY; u "zh"]
               [<[KEY := Some (u "a")]> (<[u "zh" := Some (u "x")]> ∅)])
            JA (u "zh")
          = (Returned true,
             Some ([KEY; u "zh"; JA],
                   [<[JA := Some []]>
                      (<[KEY := Some (u "a")]>
                         (<[u "zh" := Some (u "x")]> ∅))]))) as H
    by (vm_compute; reflexivity).
  split; [exact H|].
  exact (add_column_file_second_run _ JA (u "zh") (u "en") _ _ _ H).
Defined.

(** ** A maximum width of zero or less *)

Section NarrowWidth.

Variable max_len : Z.
Hypothesis Hnarrow : max_len <= 0.

Lemma fits_from_narrow g : forall cd,
  0 <= cd -> Forall token_ok g -> fits_from max_len cd g = true ->
  Forall (fun t => snd t = 0) g.
Proof.
  induction g as [|t g IH]; intros cd Hcd Hok Hf; [constructor|].
  inversion Hok as [|? ? [_ Ht] Hok']; subst. cbn [fits_from] in Hf.
  apply andb_true_iff in Hf as [H1 H2].
  assert (snd t = 0) as H0.
  { apply orb_true_iff in H1 as [H1|H1]; [by apply Z.eqb_eq|].
    apply Z.leb_le in H1. lia. }
  constructor; [done|]. apply (IH (cd + snd t)); [lia|done|done].
Qed.

Lemma line_ok_narrow g :
  Forall token_ok g -> line_ok max_len g = true ->
  match g with
  | [] => True
  | t :: g' => Forall (fun t' => snd t' = 0) g'
  end.
Proof.
  destruct g as [|t g]; [done|]. intros Hok Hl.
  inversion Hok as [|? ? [_ Ht] Hok']; subst.
  by apply (fits_from_narrow g (snd t)).
Qed.

End NarrowWidth.

(** X26.  With a maximum width of zero or less, every line of what
    [wrap_segment] returns has at most one token of positive width, and
    that token opens the line: the segment is broken before every token
    that takes a column, and tokens of width zero stay on the line of the
    token before them. *)
Theorem wrap_segment_narrow (ua : char -> bool) (segment : str)
    (max_len : Z) :
  max_len <= 0 ->
  let gs := line_groups ua segment max_len in
  wrap_segment ua segment max_len = join_lines (map text_of_tokens gs)
  /\ concat gs = tokenize ua segment
  /\ Forall (fun g => match g with
                      | [] => True
                      | t :: g' => Forall (fun t' => snd t' = 0) g'
                      end) gs.
Proof.
  intros Hmax gs. split; [apply wrap_segment_groups|].
  destruct (line_groups_spec ua segment max_len) as (Hc & Hl & _).
  fold gs in Hc, Hl. split; [done|].
  assert (Forall token_ok (concat gs)) as Hok
    by (rewrite Hc; apply tokenize_ok).
  clear Hc. induction Hl as [|g gs' Hg _ IH]; [constructor|].
  simpl in Hok. apply Forall_app in Hok as [Hokg Hok'].
  constructor; [|by apply IH]. by apply (line_ok_narrow max_len).
Qed.

(** At a tag, a word, a blank and a letter, width 0: the tag stands on a
    line of its own, since the word after it takes columns. *)
Lemma wrap_segment_narrow_witness :
  0 <= 0
  /\ wrap_segment kana_kanji (u "[b]ab c[/b]") 0
     = join_lines [u "[b]"; u "ab"; u " "; u "c[/b]"]
  /\ line_groups kana_kanji (u "[b]ab c[/b]") 0
     = [[(u "[b]", 0)]; [(u "ab", 2)]; [(u " ", 1)];
        [(u "c", 1); (u "[/b]", 0)]].
Proof.
  split; [lia|].
  destruct (wrap_segment_narrow kana_kanji (u "[b]ab c[/b]") 0 ltac:(lia))
    as (H & _).
  split; [exact H|]. reflexivity.
Defined.

(** X27.  Tokenizing is stable under cutting at a token boundary: the
    text of a leading part of the tokens of a text, and the text of the
    rest, are tokenized into those same tokens. *)
Theorem tokenize_at_boundary (ua : char -> bool) (text : str)
    (T1 T2 : list token) :
  tokenize ua text = T1 ++ T2 ->
  tokenize ua (text_of_tokens T1) = T1
  /\ tokenize ua (text_of_tokens T2) = T2.
Proof. apply tokenize_split. Qed.

Lemma tokenize_at_boundary_witness :
  tokenize kana_kanji (u "ab[b]{x}c")
  = [(u "ab", 2); (u "[b]", 0)] ++ [(u "{x}", 3); (u "c", 1)]
  /\ tokenize kana_kanji (u "ab[b]") = [(u "ab", 2); (u "[b]", 0)]
  /\ tokenize kana_kanji (u "{x}c") = [(u "{x}", 3); (u "c", 1)].
Proof.
  assert (tokenize kana_kanji (u "ab[b]{x}c")
          = [(u "ab", 2); (u "[b]", 0)] ++ [(u "{x}", 3); (u "c", 1)]) as H
    by reflexivity.
  split; [exact H|].
  exact (tokenize_at_boundary kana_kanji _ _ _ H).
Defined.
